(** * Karaoke: time-synchronisation core

    A shallow embedding of the lyric parser, the lyric lookup, the progress
    computation and the audio sync engine of the karaoke player, together
    with the properties of its specification.

    Two scripts of the repository are embedded:
    - [AppJs]: src/app.js (parseLrcLyrics, syncLyricsToTime, updateProgress);
    - [Pro]: src/unnamed/part_001 (AudioSyncEngine, LyricsService.parseLRC,
      App.syncLyrics, the syncFrame closure of App.startSyncLoop).

    Numbers.  JavaScript numbers are IEEE doubles.  Times are modelled as
    exact rationals [Q]: rounding, overflow and the negative zero are not
    modelled, and equality of times is [Qeq].  Where the code divides by a
    number that may be zero (the progress percentage) the rationals are
    extended with NaN and the two infinities ([jsnum]).

    Strings.  A JavaScript string is modelled as a [string] whose characters
    are the UTF-16 code units below 256. *)

From Stdlib Require Import QArith Qabs Qminmax Qround ZArith NArith Lia Lqa Bool.
From Stdlib Require Import List String Ascii DecimalString Sorted Permutation.
Import ListNotations.

Local Open Scope Q_scope.

(** An entry of the lyric arrays: [{ time, text }]. *)
Record LyricEvent : Type := { time : Q; text : string }.

(** ** JavaScript primitives used by the scripts *)

Module JS.

(** A number that may be the result of a division: finite, an infinity, or
    NaN. *)
Inductive jsnum : Type :=
| Fin (q : Q)
| PosInf
| NegInf
| NaN.

Definition is_zero (q : Q) : bool := Qeq_bool q 0.
Definition is_neg (q : Q) : bool := negb (Qle_bool 0 q).

(** [x / y] of IEEE arithmetic on the extended rationals. *)
Definition div (x y : jsnum) : jsnum :=
  match x, y with
  | NaN, _ | _, NaN => NaN
  | Fin a, Fin b =>
      if is_zero b then
        if is_zero a then NaN else if is_neg a then NegInf else PosInf
      else Fin (a / b)
  | Fin _, (PosInf | NegInf) => Fin 0
  | PosInf, Fin b => if is_neg b then NegInf else PosInf
  | NegInf, Fin b => if is_neg b then PosInf else NegInf
  | (PosInf | NegInf), (PosInf | NegInf) => NaN
  end.

(** [x * y] of IEEE arithmetic on the extended rationals. *)
Definition mul (x y : jsnum) : jsnum :=
  match x, y with
  | NaN, _ | _, NaN => NaN
  | Fin a, Fin b => Fin (a * b)
  | Fin a, PosInf | PosInf, Fin a =>
      if is_zero a then NaN else if is_neg a then NegInf else PosInf
  | Fin a, NegInf | NegInf, Fin a =>
      if is_zero a then NaN else if is_neg a then PosInf else NegInf
  | PosInf, PosInf | NegInf, NegInf => PosInf
  | PosInf, NegInf | NegInf, PosInf => NegInf
  end.

Definition is_finite (x : jsnum) : bool :=
  match x with Fin _ => true | _ => false end.

(** *** Strings *)

Local Open Scope char_scope.

(** The class [\d] of a regular expression without the unicode flag. *)
Definition isDigit (c : ascii) : bool :=
  let n := nat_of_ascii c in (48 <=? n)%nat && (n <=? 57)%nat.

(** White space and line terminators, as [trim] strips them: TAB, LF, VT,
    FF, CR, SP and NBSP. *)
Definition isWhiteSpace (c : ascii) : bool :=
  let n := nat_of_ascii c in
  ((9 <=? n)%nat && (n <=? 13)%nat) || (n =? 32)%nat || (n =? 160)%nat.

(** The characters [.] of a regular expression does not match. *)
Definition isLineTerminator (c : ascii) : bool :=
  let n := nat_of_ascii c in (n =? 10)%nat || (n =? 13)%nat.

(** [s.slice(n)] for [0 <= n]. *)
Fixpoint slice (n : nat) (s : string) : string :=
  match n, s with
  | O, _ => s
  | S n', String _ s' => slice n' s'
  | S _, EmptyString => EmptyString
  end.

Fixpoint trimStart (s : string) : string :=
  match s with
  | String c s' => if isWhiteSpace c then trimStart s' else s
  | EmptyString => EmptyString
  end.

Fixpoint trimEnd (s : string) : string :=
  match s with
  | String c s' =>
      match trimEnd s' with
      | EmptyString => if isWhiteSpace c then EmptyString
                       else String c EmptyString
      | r => String c r
      end
  | EmptyString => EmptyString
  end.

(** [s.trim()] *)
Definition trim (s : string) : string := trimEnd (trimStart s).

(** The truth value of a string in a condition: not empty. *)
Definition truthy (s : string) : bool :=
  match s with EmptyString => false | String _ _ => true end.

(** [s.split(c)] for a one-character separator; the pieces come with the
    piece under construction in [cur]. *)
Fixpoint splitOn (c : ascii) (s : string) (cur : string) : list string :=
  match s with
  | EmptyString => [cur]
  | String x s' =>
      if Ascii.eqb x c then cur :: splitOn c s' EmptyString
      else splitOn c s' (cur ++ String x EmptyString)
  end.

Definition split (c : ascii) (s : string) : list string :=
  splitOn c s EmptyString.

Fixpoint repeatChar (c : ascii) (n : nat) : string :=
  match n with O => EmptyString | S n' => String c (repeatChar c n') end.

(** [s.padEnd(n, c)] with a one-character filler. *)
Definition padEnd (n : nat) (c : ascii) (s : string) : string :=
  (s ++ repeatChar c (n - String.length s))%string.

Definition digitValue (c : ascii) : Z := Z.of_nat (nat_of_ascii c - 48).

Fixpoint digitsValue (acc : Z) (s : string) : Z :=
  match s with
  | String c s' =>
      if isDigit c then digitsValue (acc * 10 + digitValue c)%Z s' else acc
  | EmptyString => acc
  end.

(** [parseInt(s)] on the strings the parsers pass to it, which start with a
    decimal digit: the value of the leading run of digits.  [None] is NaN
    (no leading digit).  Leading white space, a sign and the hexadecimal
    prefix, none of which [\d] captures, are not modelled. *)
Definition parseInt (s : string) : option Z :=
  match s with
  | String c _ => if isDigit c then Some (digitsValue 0 s) else None
  | EmptyString => None
  end.

(** *** Pieces of a backtracking regular-expression matcher: each consumes
    a prefix of the input and returns the rest. *)

Definition lit (c : ascii) (s : string) : option string :=
  match s with
  | String x s' => if Ascii.eqb x c then Some s' else None
  | EmptyString => None
  end.

(** [\d{n}]: exactly [n] digits; returns them and the rest. *)
Fixpoint digits (n : nat) (s : string) : option (string * string) :=
  match n with
  | O => Some (EmptyString, s)
  | S n' =>
      match s with
      | String x s' =>
          if isDigit x then
            match digits n' s' with
            | Some (ds, rest) => Some (String x ds, rest)
            | None => None
            end
          else None
      | EmptyString => None
      end
  end.

(** [.*]: the longest run of characters that are not line terminators. *)
Fixpoint dotStar (s : string) : string * string :=
  match s with
  | String x s' =>
      if isLineTerminator x then (EmptyString, s)
      else let (m, rest) := dotStar s' in (String x m, rest)
  | EmptyString => (EmptyString, EmptyString)
  end.

(** [\d{2,3}\]], greedy: three digits and the bracket, else two digits
    and the bracket. *)
Definition fraction (s : string) : option (string * string) :=
  match
    match digits 3 s with
    | Some (g, rest) =>
        match lit "]" rest with Some rest' => Some (g, rest') | None => None end
    | None => None
    end
  with
  | Some r => Some r
  | None =>
      match digits 2 s with
      | Some (g, rest) =>
          match lit "]" rest with
          | Some rest' => Some (g, rest')
          | None => None
          end
      | None => None
      end
  end.

(** *** Array.prototype.sort with the comparator [(a, b) => a.time - b.time]

    ECMAScript requires the sort to be stable, and for a consistent
    comparator the sorted array is then unique; the algorithm is the
    engine's choice.  The model is a stable insertion sort. *)

Fixpoint insertByTime (x : LyricEvent) (l : list LyricEvent)
  : list LyricEvent :=
  match l with
  | [] => [x]
  | y :: l' =>
      if Qle_bool (time x) (time y) then x :: l else y :: insertByTime x l'
  end.

Definition sortByTime (l : list LyricEvent) : list LyricEvent :=
  fold_right insertByTime [] l.

(** *** Outcome of a loop that is run with fuel

    [Done a]: the loop came to its end with [a].  [OutOfFuel]: the fuel
    was used up first.  [NaNTime]: parseInt read a capture as NaN;
    JavaScript would carry the NaN on as the time of the event, the model
    stops there.  The properties below show that on no input either of the
    last two happens. *)

Inductive outcome (A : Type) : Type :=
| Done (a : A)
| OutOfFuel
| NaNTime.

Arguments Done {A} a.
Arguments OutOfFuel {A}.
Arguments NaNTime {A}.

(** The lines both parsers run on the captures of a tag:
    [parseInt(match[1])], [parseInt(match[2])],
    [parseInt(match[3].padEnd(3, '0'))] and
    [mins * 60 + secs + ms / 1000].  [None] is a NaN time. *)
Definition tagTime (g1 g2 g3 : string) : option Q :=
  match parseInt g1, parseInt g2, parseInt (padEnd 3 "0" g3) with
  | Some mins, Some secs, Some ms =>
      Some (inject_Z mins * 60 + inject_Z secs + inject_Z ms / 1000)
  | _, _, _ => None
  end.

(** *** More pieces of the matcher: literal text, alternatives, search *)

(** The class [[a-zA-Z0-9_-]]. *)
Definition isIdChar (c : ascii) : bool :=
  let n := nat_of_ascii c in
  ((97 <=? n)%nat && (n <=? 122)%nat) || ((65 <=? n)%nat && (n <=? 90)%nat)
  || ((48 <=? n)%nat && (n <=? 57)%nat) || (n =? 95)%nat || (n =? 45)%nat.

(** The characters of [p], one after the other. *)
Fixpoint litStr (p s : string) : option string :=
  match p with
  | EmptyString => Some s
  | String c p' =>
      match lit c s with
      | Some s' => litStr p' s'
      | None => None
      end
  end.

(** [[a-zA-Z0-9_-]{n}]: exactly [n] characters of the class; returns them
    and the rest. *)
Fixpoint idChars (n : nat) (s : string) : option (string * string) :=
  match n with
  | O => Some (EmptyString, s)
  | S n' =>
      match s with
      | String x s' =>
          if isIdChar x then
            match idChars n' s' with
            | Some (cs, rest) => Some (String x cs, rest)
            | None => None
            end
          else None
      | EmptyString => None
      end
  end.

(** [(?:p1|p2|...)] followed by [k]: the first alternative, in their
    order, after which [k] matches. *)
Fixpoint firstOf (alts : list string) (k : string -> option string)
    (s : string) : option string :=
  match alts with
  | [] => None
  | p :: rest =>
      match
        match litStr p s with
        | Some s' => k s'
        | None => None
        end
      with
      | Some r => Some r
      | None => firstOf rest k s
      end
  end.

(** [s.match(regex)] for a regex without the [g] flag whose matcher at one
    position is [m]: the capture of the leftmost match. *)
Fixpoint searchFor (m : string -> option string) (s : string)
  : option string :=
  match m s with
  | Some r => Some r
  | None =>
      match s with
      | String _ s' => searchFor m s'
      | EmptyString => None
      end
  end.

(** The capture [([a-zA-Z0-9_-]{11})] that ends both patterns. *)
Definition videoId (s : string) : option string :=
  match idChars 11 s with
  | Some (id, _) => Some id
  | None => None
  end.

(** *** Replacing, splitting and joining *)

(** A character as a regex with the [i] flag compares it: the letters a
    to z stand for A to Z. *)
Definition upper (c : ascii) : ascii :=
  let n := nat_of_ascii c in
  if (97 <=? n)%nat && (n <=? 122)%nat then ascii_of_nat (n - 32) else c.

(** The characters of [p], compared without regard to case. *)
Fixpoint litStrCI (p s : string) : option string :=
  match p with
  | EmptyString => Some s
  | String c p' =>
      match s with
      | String x s' =>
          if Ascii.eqb (upper x) (upper c) then litStrCI p' s' else None
      | EmptyString => None
      end
  end.

(** [.*?] followed by the character [close]: up to the first [close],
    with no line terminator on the way. *)
Fixpoint lazyUntil (close : ascii) (s : string) : option string :=
  match s with
  | String c s' =>
      if Ascii.eqb c close then Some s'
      else if isLineTerminator c then None
      else lazyUntil close s'
  | EmptyString => None
  end.

(** [s.replace(regex, '')] for a global regex whose matcher at one
    position is [m], which returns the input left after a match that is
    not empty: the matches are found from left to right, each search
    starting where the last match ended.  [skip] counts the characters of
    the current match still to drop. *)
Fixpoint removeAll (m : string -> option string) (s : string) (skip : nat)
  : string :=
  match s with
  | EmptyString => EmptyString
  | String c s' =>
      match skip with
      | S k => removeAll m s' k
      | O =>
          match m s with
          | Some r => removeAll m s' (String.length s' - String.length r)
          | None => String c (removeAll m s' 0)
          end
      end
  end.

(** [s.includes(sep)] *)
Fixpoint includes (sep s : string) : bool :=
  if prefix sep s then true
  else match s with
       | String _ s' => includes sep s'
       | EmptyString => false
       end.

(** [s.split(sep)] for a separator that is not empty, as the first piece
    and the others; [skip] counts the characters of the current separator
    still to drop, [cur] is the piece under construction. *)
Fixpoint splitBy (sep s : string) (skip : nat) (cur : string)
  : string * list string :=
  match s with
  | EmptyString => (cur, [])
  | String c s' =>
      match skip with
      | S k => splitBy sep s' k cur
      | O =>
          if prefix sep s then
            let (piece, others) :=
              splitBy sep s' (String.length sep - 1) EmptyString in
            (cur, piece :: others)
          else splitBy sep s' 0 (cur ++ String c EmptyString)
      end
  end.

(** [parts.join(sep)] *)
Fixpoint join (sep : string) (parts : list string) : string :=
  match parts with
  | [] => EmptyString
  | [x] => x
  | x :: rest => (x ++ sep ++ join sep rest)%string
  end.

(** *** Integers of numbers and their text *)

(** Rounding toward zero, as the remainder of two numbers uses it. *)
Definition truncate (x : Q) : Z :=
  if Qle_bool 0 x then Qfloor x else Qceiling x.

(** [a % b] on numbers, [b] not zero: the remainder has the sign of the
    dividend. *)
Definition rem (a b : Q) : Q := a - b * inject_Z (truncate (a / b)).

(** [Number.MAX_SAFE_INTEGER], 2^53 - 1: up to it every integer is a number
    of its own. *)
Definition maxSafeInteger : Z := 9007199254740991.

(** The text of a number that is an integer, as a template literal and
    [toString] give it.  Up to [maxSafeInteger] in absolute value it is the
    decimal digits of the integer, with a minus sign before them when it is
    negative.  Beyond, the digits printed are those of the shortest decimal
    that rounds to the same double, in exponent notation from 10^21 on;
    they depend on the rounding of doubles, which the rationals used here
    for numbers do not have: [None], no text is given for such a number. *)
Definition intToString (z : Z) : option string :=
  if (Z.abs z <=? maxSafeInteger)%Z
  then Some (NilZero.string_of_int (Z.to_int z))
  else None.

(** [s.padStart(n, c)] with a one-character filler. *)
Definition padStart (n : nat) (c : ascii) (s : string) : string :=
  (repeatChar c (n - String.length s) ++ s)%string.

End JS.

(** What the YouTube player reports on one tick: [getCurrentTime()] and
    [getDuration()].  The duration is 0 until the metadata is loaded and may
    be missing altogether ([NaN] once it enters arithmetic). *)
Record Player : Type := { getCurrentTime : Q; getDuration : JS.jsnum }.

(** ** src/app.js *)

Module AppJs.

Import JS.
Local Open Scope char_scope.

(** *** parseLrcLyrics *)

(** The result of a successful [timeRegex.exec]: [match.index], [match[0]]
    and the three captures. *)
Record RegExpMatch : Type := {
  index : nat;
  m0 : string;
  m1 : string;
  m2 : string;
  m3 : string
}.

(** [/\[(\d{2}):(\d{2})\.(\d{2,3})\]/] matched at the start of [s]:
    the captures and the input left after the match. *)
Definition matchTime (s : string) : option (string * string * string * string) :=
  match lit "[" s with
  | None => None
  | Some s1 =>
  match digits 2 s1 with
  | None => None
  | Some (g1, s2) =>
  match lit ":" s2 with
  | None => None
  | Some s3 =>
  match digits 2 s3 with
  | None => None
  | Some (g2, s4) =>
  match lit "." s4 with
  | None => None
  | Some s5 =>
  match fraction s5 with
  | None => None
  | Some (g3, rest) => Some (g1, g2, g3, rest)
  end end end end end end.

(** The leftmost match in [s], which is the input from position [i] on. *)
Fixpoint search (s : string) (i : nat) : option RegExpMatch :=
  match matchTime s with
  | Some (g1, g2, g3, _) =>
      Some {| index := i;
              m0 := ("[" ++ g1 ++ ":" ++ g2 ++ "." ++ g3 ++ "]")%string;
              m1 := g1; m2 := g2; m3 := g3 |}
  | None =>
      match s with
      | String _ s' => search s' (S i)
      | EmptyString => None
      end
  end.

(** [timeRegex.exec(line)] with [timeRegex.lastIndex = lastIndex]; the
    regex has the [g] flag, so the search starts there. *)
Definition exec (line : string) (lastIndex : nat) : option RegExpMatch :=
  search (slice lastIndex line) lastIndex.

(** The loop [while ((match = timeRegex.exec(line)) !== null)]: [re] is
    [timeRegex.lastIndex], [timestamps] and [lastIndex] are the locals. *)
Fixpoint whileExec (fuel : nat) (line : string) (re : nat)
    (timestamps : list Q) (lastIndex : nat) : outcome (list Q * nat) :=
  match fuel with
  | O => OutOfFuel
  | S fuel' =>
      match exec line re with
      | None => Done (timestamps, lastIndex)
      | Some m =>
          match tagTime (m1 m) (m2 m) (m3 m) with
          | None => NaNTime
          | Some t =>
              whileExec fuel' line
                (index m + String.length (m0 m))
                (timestamps ++ [t])
                (index m + String.length (m0 m))
          end
      end
  end.

(** The loop [for (const time of timestamps) if (text) parsed.push(...)]. *)
Fixpoint pushEach (timestamps : list Q) (txt : string)
    (parsed : list LyricEvent) : list LyricEvent :=
  match timestamps with
  | [] => parsed
  | t :: rest =>
      pushEach rest txt
        (if truthy txt then parsed ++ [ {| time := t; text := txt |} ]
         else parsed)
  end.

(** The loop [for (const line of lines)]; every line starts with
    [timeRegex.lastIndex = 0], which the regex literal and the reset at the
    end of the body establish. *)
Fixpoint forLines (fuel : nat) (lines : list string)
    (parsed : list LyricEvent) : outcome (list LyricEvent) :=
  match lines with
  | [] => Done parsed
  | line :: rest =>
      match whileExec fuel line 0 [] 0 with
      | Done (timestamps, lastIndex) =>
          let txt := trim (slice lastIndex line) in
          forLines fuel rest (pushEach timestamps txt parsed)
      | OutOfFuel => OutOfFuel
      | NaNTime => NaNTime
      end
  end.

(** The array [parsed] when the loops are over, before it is sorted. *)
Definition parsedEvents (fuel : nat) (lrcText : string)
  : outcome (list LyricEvent) :=
  forLines fuel (split "010" lrcText) [].

(** [parseLrcLyrics(lrcText)], every [while] loop running on [fuel]. *)
Definition parseLrcLyrics_fuel (fuel : nat) (lrcText : string)
  : outcome (list LyricEvent) :=
  match parsedEvents fuel lrcText with
  | Done parsed => Done (sortByTime parsed)
  | OutOfFuel => OutOfFuel
  | NaNTime => NaNTime
  end.

(** [parseLrcLyrics(lrcText)] with fuel for one iteration per character
    and one more. *)
Definition parseLrcLyrics (lrcText : string) : outcome (list LyricEvent) :=
  parseLrcLyrics_fuel (S (String.length lrcText)) lrcText.

(** *** Removing the timestamps

    [data.syncedLyrics.replace(/\[\d{2}:\d{2}\.\d{2,3}\]/g, '')], the plain
    text made from synced lyrics in fetchFromLrclib (and in the
    fetchFromLrclib of src/unnamed/part_000); the regex matches what
    [timeRegex] matches. *)

(** The loop of [replace] with a global regex and the replacement ['']:
    [from] is the regex's [lastIndex], [acc] the result so far. *)
Fixpoint replaceTags (fuel : nat) (s : string) (from : nat) (acc : string)
  : outcome string :=
  match fuel with
  | O => OutOfFuel
  | S fuel' =>
      match exec s from with
      | None => Done (acc ++ slice from s)%string
      | Some m =>
          replaceTags fuel' s
            (index m + String.length (m0 m))
            (acc ++ substring from (index m - from) s)%string
      end
  end.

Definition stripTimestamps (s : string) : outcome string :=
  replaceTags (S (String.length s)) s 0 EmptyString.

(** *** extractYouTubeVideoId (the same in src/unnamed/part_000) *)

Definition watchPrefixes : list string :=
  [ "youtube.com/watch?v="; "youtu.be/"; "youtube.com/embed/";
    "youtube.com/v/" ]%string.

Definition shortsPrefixes : list string := [ "youtube.com/shorts/" ]%string.

(** The loop [for (const pattern of patterns)] over the two patterns. *)
Definition extractYouTubeVideoId (url : string) : option string :=
  match searchFor (firstOf watchPrefixes videoId) url with
  | Some id => Some id
  | None => searchFor (firstOf shortsPrefixes videoId) url
  end.

(** *** formatTime *)

(** [formatTime(seconds)]; [Math.floor] is [Qfloor].  [None] only where
    [intToString] gives no text: for minutes beyond [maxSafeInteger]. *)
Definition formatTime (seconds : Q) : option string :=
  let mins := Qfloor (seconds / 60) in
  let secs := Qfloor (rem seconds 60) in
  match intToString mins, intToString secs with
  | Some m, Some s => Some (m ++ ":" ++ padStart 2 "0" s)%string
  | _, _ => None
  end.

(** *** The font size buttons *)

(** The click handlers of [fontIncrease] and [fontDecrease] on
    [currentFontSize], in rem. *)
Definition fontIncrease (currentFontSize : Q) : Q :=
  if Qlt_le_dec currentFontSize 2.5 then currentFontSize + 0.1
  else currentFontSize.

Definition fontDecrease (currentFontSize : Q) : Q :=
  if Qlt_le_dec 0.8 currentFontSize then currentFontSize - 0.1
  else currentFontSize.

(** *** The sync path *)

(** The module-level variables the sync path reads and writes, and the two
    outputs it produces: the number interpolated into
    [elements.progressFill.style.width] and the calls of
    [highlightCurrentLine]. *)
Record State : Type := {
  player : option Player;
  syncedLyrics : list LyricEvent;
  hasSyncedLyrics : bool;
  currentLineIndex : Z;
  progressFill : JS.jsnum;
  highlighted : list Z
}.

Definition set_progressFill (w : JS.jsnum) (st : State) : State :=
  {| player := player st; syncedLyrics := syncedLyrics st;
     hasSyncedLyrics := hasSyncedLyrics st;
     currentLineIndex := currentLineIndex st;
     progressFill := w; highlighted := highlighted st |}.

Definition set_currentLine (i : Z) (st : State) : State :=
  {| player := player st; syncedLyrics := syncedLyrics st;
     hasSyncedLyrics := hasSyncedLyrics st;
     currentLineIndex := i;
     progressFill := progressFill st;
     highlighted := highlighted st ++ [i] |}.

(** The loop [for (let i = syncedLyrics.length - 1; i >= 0; i--)] of
    syncLyricsToTime, entered with [i = n - 1]; the result is the final
    [newLineIndex].  [None] is the TypeError of reading [.time] of an
    [undefined] array element. *)
Fixpoint lineScan (lines : list LyricEvent) (currentTime : Q) (n : nat)
  : option Z :=
  match n with
  | O => Some (-1)%Z
  | S i =>
      match nth_error lines i with
      | None => None
      | Some ev =>
          if Qle_bool (time ev) currentTime then Some (Z.of_nat i)
          else lineScan lines currentTime i
      end
  end.

Definition newLineIndex (lines : list LyricEvent) (currentTime : Q)
  : option Z :=
  lineScan lines currentTime (List.length lines).

(** [syncLyricsToTime(currentTime)] *)
Definition syncLyricsToTime (currentTime : Q) (st : State) : option State :=
  if negb (hasSyncedLyrics st) || (List.length (syncedLyrics st) =? 0)%nat
  then Some st
  else
    match newLineIndex (syncedLyrics st) currentTime with
    | None => None
    | Some i =>
        if negb (i =? currentLineIndex st)%Z
        then Some (set_currentLine i st)
        else Some st
    end.

(** [updateProgress()], the body of the 100 ms interval.  The time display
    it also rewrites is text only and is left out. *)
Definition updateProgress (st : State) : option State :=
  match player st with
  | None => Some st
  | Some p =>
      let currentTime := getCurrentTime p in
      let duration := getDuration p in
      let progress :=
        JS.mul (JS.div (JS.Fin currentTime) duration) (JS.Fin 100) in
      let st1 := set_progressFill progress st in
      if hasSyncedLyrics st1 then syncLyricsToTime currentTime st1
      else Some st1
  end.

End AppJs.

(** ** src/unnamed/part_001: the audio sync engine *)

Module Pro.

Import JS.
Local Open Scope char_scope.

(** *** LyricsService.parseLRC *)

(** The result of a successful [regex.exec]: [match.index], [match[0]] and
    the four captures. *)
Record RegExpMatch : Type := {
  index : nat;
  m0 : string;
  m1 : string;
  m2 : string;
  m3 : string;
  m4 : string
}.

(** What follows the minutes: [:(\d{2})\.(\d{2,3})\]] and the fourth
    capture, the rest of the line. *)
Definition afterMinutes (s : string)
  : option (string * string * string * string) :=
  match lit ":" s with
  | None => None
  | Some s1 =>
  match digits 2 s1 with
  | None => None
  | Some (g2, s2) =>
  match lit "." s2 with
  | None => None
  | Some s3 =>
  match fraction s3 with
  | None => None
  | Some (g3, s4) => let (g4, rest) := dotStar s4 in Some (g2, g3, g4, rest)
  end end end end.

(** The regex of parseLRC, [\[(\d{1,2}):(\d{2})\.(\d{2,3})\]] followed by
    a capture of the rest of the line, matched at the start of [s]; the
    minutes are greedy: two digits and the remainder of the pattern, else
    one digit and the remainder. *)
Definition matchLine (s : string)
  : option (string * (string * string * string * string)) :=
  match lit "[" s with
  | None => None
  | Some s1 =>
      match
        match digits 2 s1 with
        | Some (g1, s2) =>
            match afterMinutes s2 with
            | Some r => Some (g1, r)
            | None => None
            end
        | None => None
        end
      with
      | Some r => Some r
      | None =>
          match digits 1 s1 with
          | Some (g1, s2) =>
              match afterMinutes s2 with
              | Some r => Some (g1, r)
              | None => None
              end
          | None => None
          end
      end
  end.

(** The leftmost match in [s], which is the input from position [i] on. *)
Fixpoint search (s : string) (i : nat) : option RegExpMatch :=
  match matchLine s with
  | Some (g1, (g2, g3, g4, _)) =>
      Some {| index := i;
              m0 := ("[" ++ g1 ++ ":" ++ g2 ++ "." ++ g3 ++ "]" ++ g4)%string;
              m1 := g1; m2 := g2; m3 := g3; m4 := g4 |}
  | None =>
      match s with
      | String _ s' => search s' (S i)
      | EmptyString => None
      end
  end.

(** [regex.exec(lrcText)] with [regex.lastIndex = lastIndex]. *)
Definition exec (lrcText : string) (lastIndex : nat) : option RegExpMatch :=
  search (slice lastIndex lrcText) lastIndex.

(** The loop [while ((match = regex.exec(lrcText)) !== null)]: [re] is
    [regex.lastIndex], [lines] the array under construction. *)
Fixpoint whileExec (fuel : nat) (lrcText : string) (re : nat)
    (lines : list LyricEvent) : outcome (list LyricEvent) :=
  match fuel with
  | O => OutOfFuel
  | S fuel' =>
      match exec lrcText re with
      | None => Done lines
      | Some m =>
          match tagTime (m1 m) (m2 m) (m3 m) with
          | None => NaNTime
          | Some t =>
              let txt := trim (m4 m) in
              whileExec fuel' lrcText
                (index m + String.length (m0 m))
                (if truthy txt then lines ++ [ {| time := t; text := txt |} ]
                 else lines)
          end
      end
  end.

(** The array [lines] when the loop is over, before it is sorted. *)
Definition matchedLines (fuel : nat) (lrcText : string)
  : outcome (list LyricEvent) :=
  whileExec fuel lrcText 0 [].

(** [parseLRC(lrcText)], the [while] loop running on [fuel]. *)
Definition parseLRC_fuel (fuel : nat) (lrcText : string)
  : outcome (list LyricEvent) :=
  match matchedLines fuel lrcText with
  | Done lines => Done (sortByTime lines)
  | OutOfFuel => OutOfFuel
  | NaNTime => NaNTime
  end.

(** [parseLRC(lrcText)] with fuel for one iteration per character and one
    more. *)
Definition parseLRC (lrcText : string) : outcome (list LyricEvent) :=
  parseLRC_fuel (S (String.length lrcText)) lrcText.

(** *** LyricsService: the two sources and the fallback *)

(** What an awaited [fetch(url)] and [res.json()] give: a rejection of
    either promise, a response that is not [ok], or the data of an [ok]
    response. *)
Inductive Response (A : Type) : Type :=
| Rejected
| NotOk
| Ok (data : A).

Arguments Rejected {A}.
Arguments NotOk {A}.
Arguments Ok {A} data.

(** What an async function ends with. *)
Inductive attempt (A : Type) : Type :=
| Returned (a : A)
| Threw.

Arguments Returned {A} a.
Arguments Threw {A}.

(** The fields read of the two services' data; [None] is a missing
    field. *)
Record LrclibData : Type := { syncedLyrics : option string }.
Record OvhData : Type := { lyricsText : option string }.

(** What fetchLRCLIB and fetchLyricsOvh return: [{ synced, lines }]; a
    returned [null] is [None]. *)
Record Found : Type := { found_synced : bool; found_lines : list LyricEvent }.

(** What fetchWithFallback returns: the result with the name of its
    source. *)
Record Sourced : Type := { result : Found; source : string }.

(** [fetchLRCLIB]; the loop of parseLRC runs with parseLRC's fuel. *)
Definition fetchLRCLIB (res : Response LrclibData)
  : outcome (attempt (option Found)) :=
  match res with
  | Rejected => Done Threw
  | NotOk => Done Threw
  | Ok data =>
      match syncedLyrics data with
      | Some s =>
          if truthy s then
            match parseLRC s with
            | Done ls =>
                Done (Returned
                        (Some {| found_synced := true; found_lines := ls |}))
            | OutOfFuel => OutOfFuel
            | NaNTime => NaNTime
            end
          else Done (Returned None)
      | None => Done (Returned None)
      end
  end.

(** [array.map((text, i) => f(text, i))], from index [i] on. *)
Fixpoint mapIndexed {A B : Type} (f : A -> nat -> B) (i : nat) (l : list A)
  : list B :=
  match l with
  | [] => []
  | x :: l' => f x i :: mapIndexed f (S i) l'
  end.

(** The lines fetchLyricsOvh makes of plain lyrics: the lines that are not
    blank, trimmed, three seconds apart. *)
Definition unsyncedLines (lyricsText : string) : list LyricEvent :=
  mapIndexed
    (fun txt i => {| time := inject_Z (Z.of_nat i) * 3; text := trim txt |})
    0
    (filter (fun txt => truthy (trim txt)) (split "010" lyricsText)).

(** [fetchLyricsOvh]; without a [lyrics] field [data.lyrics.split] throws. *)
Definition fetchLyricsOvh (res : Response OvhData) : attempt (option Found) :=
  match res with
  | Rejected => Threw
  | NotOk => Threw
  | Ok data =>
      match lyricsText data with
      | Some s =>
          Returned (Some {| found_synced := false;
                            found_lines := unsyncedLines s |})
      | None => Threw
      end
  end.

(** [fetchWithFallback] on what the two services answer: LRCLIB first,
    Lyrics.ovh when LRCLIB threw or returned [null]; an error when neither
    returned a result. *)
Definition fetchWithFallback (lrclib : Response LrclibData)
    (ovh : Response OvhData) : outcome (attempt Sourced) :=
  match fetchLRCLIB lrclib with
  | Done (Returned (Some r)) =>
      Done (Returned {| result := r; source := "LRCLIB" |})
  | Done (Returned None) | Done Threw =>
      match fetchLyricsOvh ovh with
      | Returned (Some r) =>
          Done (Returned {| result := r; source := "Lyrics.ovh" |})
      | Returned None | Threw => Done Threw
      end
  | OutOfFuel => OutOfFuel
  | NaNTime => NaNTime
  end.

(** *** YouTubeService.parseTitle *)

(** [open], [word] without regard to case, and the shortest run up to
    [close]: the regexes [/\(Official.*?\)/gi] and their like. *)
Definition marker (open : ascii) (word : string) (close : ascii)
    (s : string) : option string :=
  match lit open s with
  | Some s1 =>
      match litStrCI word s1 with
      | Some s2 => lazyUntil close s2
      | None => None
      end
  | None => None
  end.

(** [parseTitle(title)]: the artist and the song. *)
Definition parseTitle (title : string) : string * string :=
  let clean :=
    trim
      (removeAll (marker "[" "Lyric" "]")
         (removeAll (marker "(" "Lyric" ")")
            (removeAll (marker "[" "Official" "]")
               (removeAll (marker "(" "Official" ")") title 0) 0) 0) 0) in
  if includes " - " clean then
    let (artist, songParts) := splitBy " - " clean 0 EmptyString in
    (trim artist, trim (join " - " songParts))
  else (EmptyString, clean).

(** *** YouTubeService.extractVideoId *)

Definition watchPrefixes : list string :=
  [ "youtube.com/watch?v="; "youtu.be/"; "youtube.com/embed/" ]%string.

Definition shortsPrefixes : list string := [ "youtube.com/shorts/" ]%string.

Definition extractVideoId (url : string) : option string :=
  match searchFor (firstOf watchPrefixes videoId) url with
  | Some id => Some id
  | None => searchFor (firstOf shortsPrefixes videoId) url
  end.

(** *** App.formatTime *)

Definition formatTime (secs : Q) : option string :=
  let m := Qfloor (secs / 60) in
  let s := Qfloor (rem secs 60) in
  match intToString m, intToString s with
  | Some mt, Some st => Some (mt ++ ":" ++ padStart 2 "0" st)%string
  | _, _ => None
  end.

(** *** AudioSyncEngine *)

(** The part of a Web Audio context the engine reads: its clock. *)
Record AudioContext : Type := { currentTime : Q }.

(** The fields of [class AudioSyncEngine]; [audioContext = None] is the
    [null] the constructor stores. *)
Record AudioSyncEngine : Type := {
  audioContext : option AudioContext;
  startTime : Q;
  pausedTime : Q;
  driftCorrection : Q
}.

(** [constructor()] *)
Definition new_engine : AudioSyncEngine :=
  {| audioContext := None; startTime := 0; pausedTime := 0;
     driftCorrection := 0 |}.

(** [init()]: creates the context on first use; a fresh context's clock
    starts at 0. *)
Definition init (e : AudioSyncEngine) : AudioSyncEngine :=
  match audioContext e with
  | Some _ => e
  | None =>
      {| audioContext := Some {| currentTime := 0 |};
         startTime := startTime e; pausedTime := pausedTime e;
         driftCorrection := driftCorrection e |}
  end.

(** The environment's step: the audio context's clock advances by [dt]
    seconds; the engine's own fields are untouched. *)
Definition elapse (dt : Q) (e : AudioSyncEngine) : AudioSyncEngine :=
  {| audioContext :=
       match audioContext e with
       | Some ctx => Some {| currentTime := currentTime ctx + dt |}
       | None => None
       end;
     startTime := startTime e; pausedTime := pausedTime e;
     driftCorrection := driftCorrection e |}.

(** [getAccurateTime()] *)
Definition getAccurateTime (e : AudioSyncEngine) : Q :=
  match audioContext e with
  | None => 0
  | Some ctx =>
      let rawTime := currentTime ctx - startTime e + pausedTime e in
      Qmax 0 (rawTime + driftCorrection e)
  end.

(** [start(currentVideoTime)]; [None] is the TypeError of reading
    [currentTime] of [null]. *)
Definition start (currentVideoTime : Q) (e : AudioSyncEngine)
  : option AudioSyncEngine :=
  match audioContext e with
  | None => None
  | Some ctx =>
      Some {| audioContext := audioContext e;
              startTime := currentTime ctx - currentVideoTime;
              pausedTime := pausedTime e;
              driftCorrection := driftCorrection e |}
  end.

(** [pause(currentVideoTime)] *)
Definition pause (currentVideoTime : Q) (e : AudioSyncEngine)
  : AudioSyncEngine :=
  {| audioContext := audioContext e;
     startTime := startTime e;
     pausedTime := currentVideoTime;
     driftCorrection := driftCorrection e |}.

(** [correctDrift(videoTime, syncedTime)] *)
Definition correctDrift (videoTime syncedTime : Q) (e : AudioSyncEngine)
  : AudioSyncEngine :=
  let drift := videoTime - syncedTime in
  if Qlt_le_dec 0.2 (Qabs drift) then
    {| audioContext := audioContext e;
       startTime := startTime e;
       pausedTime := pausedTime e;
       driftCorrection := driftCorrection e + drift * 0.3 |}
  else e.

(** [App.lyrics]: the object built by the lyrics service. *)
Record Lyrics : Type := { synced : bool; lines : list LyricEvent }.

(** The fields of [App] the sync loop reads and writes, and its outputs:
    the number interpolated into [progressFill.style.width], the calls of
    [highlightLine] and the number of beeps played. *)
Record App : Type := {
  player : option Player;
  syncEngine : AudioSyncEngine;
  lyrics : option Lyrics;
  currentLine : Z;
  audioEnabled : bool;
  progressFill : JS.jsnum;
  highlighted : list Z;
  beeps : nat
}.

(** The loop of App.syncLyrics, entered with [i = n - 1]. *)
Fixpoint lineScan (ls : list LyricEvent) (currentTime : Q) (n : nat)
  : option Z :=
  match n with
  | O => Some (-1)%Z
  | S i =>
      match nth_error ls i with
      | None => None
      | Some ev =>
          if Qle_bool (time ev - 0.1) currentTime then Some (Z.of_nat i)
          else lineScan ls currentTime i
      end
  end.

Definition newLine (ls : list LyricEvent) (currentTime : Q) : option Z :=
  lineScan ls currentTime (List.length ls).

(** [App.syncLyrics(currentTime)]; playBeep does nothing without an audio
    context. *)
Definition syncLyrics (currentTime : Q) (a : App) : option App :=
  match lyrics a with
  | None => Some a
  | Some l =>
      match newLine (lines l) currentTime with
      | None => None
      | Some i =>
          if negb (i =? currentLine a)%Z then
            Some {| player := player a; syncEngine := syncEngine a;
                    lyrics := lyrics a; currentLine := i;
                    audioEnabled := audioEnabled a;
                    progressFill := progressFill a;
                    highlighted := highlighted a ++ [i];
                    beeps :=
                      if audioEnabled a && (0 <=? i)%Z then
                        match audioContext (syncEngine a) with
                        | Some _ => S (beeps a)
                        | None => beeps a
                        end
                      else beeps a |}
          else Some a
      end
  end.

(** One run of the [syncFrame] closure of App.startSyncLoop; the frame it
    requests next is the scheduler's business.  The time text it also
    rewrites is left out. *)
Definition syncFrame (a : App) : option App :=
  match player a with
  | None => Some a
  | Some p =>
      let accurateTime := getAccurateTime (syncEngine a) in
      let videoTime := getCurrentTime p in
      let duration := getDuration p in
      let engine := correctDrift videoTime accurateTime (syncEngine a) in
      let progress :=
        JS.mul (JS.div (JS.Fin accurateTime) duration) (JS.Fin 100) in
      syncLyrics accurateTime
        {| player := player a; syncEngine := engine;
           lyrics := lyrics a; currentLine := currentLine a;
           audioEnabled := audioEnabled a;
           progressFill := progress;
           highlighted := highlighted a;
           beeps := beeps a |}
  end.

(** The environment between two frames while the video plays: [dt] seconds
    pass on the audio context's clock and in the video alike. *)
Definition playFor (dt : Q) (a : App) : App :=
  {| player :=
       match player a with
       | Some p => Some {| getCurrentTime := getCurrentTime p + dt;
                           getDuration := getDuration p |}
       | None => None
       end;
     syncEngine := elapse dt (syncEngine a);
     lyrics := lyrics a; currentLine := currentLine a;
     audioEnabled := audioEnabled a;
     progressFill := progressFill a;
     highlighted := highlighted a;
     beeps := beeps a |}.

(** The sync loop while the video plays: one run of [syncFrame] after each
    of the intervals [dts]. *)
Fixpoint syncFrames (dts : list Q) (a : App) : option App :=
  match dts with
  | [] => Some a
  | dt :: rest =>
      match syncFrame (playFor dt a) with
      | Some a' => syncFrames rest a'
      | None => None
      end
  end.

(** The drift the loop works against: the video's time minus the engine's
    estimate. *)
Definition videoDrift (a : App) : Q :=
  match player a with
  | Some p => getCurrentTime p - getAccurateTime (syncEngine a)
  | None => 0
  end.

(** The estimate before it is floored at 0. *)
Definition rawEstimate (e : AudioSyncEngine) : Q :=
  match audioContext e with
  | Some ctx => currentTime ctx - startTime e + pausedTime e + driftCorrection e
  | None => 0
  end.

(** A playing app whose estimate is not held at the floor: it has a player
    at a non-negative time and an audio context, and the estimate before
    flooring is not negative. *)
Definition running (a : App) : Prop :=
  (exists p, player a = Some p /\ 0 <= getCurrentTime p) /\
  (exists ctx, audioContext (syncEngine a) = Some ctx) /\
  0 <= rawEstimate (syncEngine a).

(** What is left of a drift [d] after [n] corrections of 30 %. *)
Fixpoint decay (n : nat) (d : Q) : Q :=
  match n with
  | O => d
  | S n' => decay n' (0.7 * d)
  end.

(** States used as examples: the engine once the player is ready
    ([init(); start(0)] at context time 0), the same engine ten seconds
    later after one drift correction, and after five seconds of playback. *)
Definition engine_ready : AudioSyncEngine :=
  {| audioContext := Some {| currentTime := 0 |};
     startTime := 0; pausedTime := 0; driftCorrection := 0 |}.

Definition engine_drifted : AudioSyncEngine :=
  correctDrift 11 10 (elapse 10 engine_ready).

Definition engine_playing : AudioSyncEngine := elapse 5 engine_ready.

(** The property the specification states for [start]: the estimate read
    right after [start(T)] is [T]. *)
Definition start_anchors_at (e : AudioSyncEngine) (T : Q) : Prop :=
  exists e', start T e = Some e' /\ getAccurateTime e' == T.

(** The property the specification states for [pause]: the estimate read
    after [pause(T)] does not move when the context's clock advances. *)
Definition pause_freezes_at (e : AudioSyncEngine) (T dt : Q) : Prop :=
  getAccurateTime (elapse dt (pause T e)) == getAccurateTime (pause T e).

End Pro.

(** ** src/app.js: the lyric fetchers and displayLyrics *)

Module AppJsLyrics.

Import JS.
Local Open Scope char_scope.

(** The fields read of a track of LRCLIB; [None] is a missing field. *)
Record LrclibTrack : Type := {
  syncedLyrics : option string;
  plainLyrics : option string
}.

(** The object the fetchers return: [{ synced, raw, parsed, plain }];
    [raw = None] is [null]. *)
Record LyricsResult : Type := {
  synced : bool;
  raw : option string;
  parsed : list LyricEvent;
  plain : string
}.

(** [field && field.trim()] as a condition. *)
Definition nonBlank (field : option string) : bool :=
  match field with
  | Some s => truthy s && truthy (trim s)
  | None => false
  end.

(** The two [if]s fetchFromLrclib runs on [data] and, in the same words,
    on [results[0]]: a synced result, a plain result, or no [return]
    ([None]).  In [data.plainLyrics || ...] the timestamps are removed
    only when [plainLyrics] is missing or empty. *)
Definition fromTrack (data : LrclibTrack) : outcome (option LyricsResult) :=
  match syncedLyrics data with
  | Some s =>
      if truthy s && truthy (trim s) then
        match AppJs.parseLrcLyrics s with
        | Done evs =>
            match
              match plainLyrics data with
              | Some p =>
                  if truthy p then Done p
                  else match AppJs.stripTimestamps s with
                       | Done t => Done (trim t)
                       | OutOfFuel => OutOfFuel
                       | NaNTime => NaNTime
                       end
              | None =>
                  match AppJs.stripTimestamps s with
                  | Done t => Done (trim t)
                  | OutOfFuel => OutOfFuel
                  | NaNTime => NaNTime
                  end
              end
            with
            | Done p =>
                Done (Some {| synced := true; raw := Some s;
                              parsed := evs; plain := p |})
            | OutOfFuel => OutOfFuel
            | NaNTime => NaNTime
            end
        | OutOfFuel => OutOfFuel
        | NaNTime => NaNTime
        end
      else
        match plainLyrics data with
        | Some p =>
            if truthy p && truthy (trim p) then
              Done (Some {| synced := false; raw := None;
                            parsed := []; plain := p |})
            else Done None
        | None => Done None
        end
  | None =>
      match plainLyrics data with
      | Some p =>
          if truthy p && truthy (trim p) then
            Done (Some {| synced := false; raw := None;
                          parsed := []; plain := p |})
          else Done None
      | None => Done None
      end
  end.

(** [fetchFromLrclib] on what the [get] and the [search] endpoints
    answer; the search answers with an array or [null]. *)
Definition fetchFromLrclib (get : Pro.Response LrclibTrack)
    (search : Pro.Response (option (list LrclibTrack)))
  : outcome (Pro.attempt LyricsResult) :=
  let searching :=
    match search with
    | Pro.Ok (Some (best :: _)) =>
        match fromTrack best with
        | Done (Some r) => Done (Pro.Returned r)
        | Done None => Done Pro.Threw
        | OutOfFuel => OutOfFuel
        | NaNTime => NaNTime
        end
    | _ => Done Pro.Threw
    end in
  match get with
  | Pro.Ok data =>
      match fromTrack data with
      | Done (Some r) => Done (Pro.Returned r)
      | Done None => searching
      | OutOfFuel => OutOfFuel
      | NaNTime => NaNTime
      end
  | _ => searching
  end.

(** [fetchFromLyricsOvh] *)
Definition fetchFromLyricsOvh (res : Pro.Response Pro.OvhData)
  : Pro.attempt LyricsResult :=
  match res with
  | Pro.Ok data =>
      match Pro.lyricsText data with
      | Some s =>
          if truthy s && truthy (trim s) then
            Pro.Returned {| synced := false; raw := None;
                            parsed := []; plain := s |}
          else Pro.Threw
      | None => Pro.Threw
      end
  | _ => Pro.Threw
  end.

(** [fetchLyrics]: LRCLIB, then Lyrics.ovh, then the error. *)
Definition fetchLyrics (get : Pro.Response LrclibTrack)
    (search : Pro.Response (option (list LrclibTrack)))
    (ovh : Pro.Response Pro.OvhData)
  : outcome (Pro.attempt LyricsResult) :=
  match fetchFromLrclib get search with
  | Done (Pro.Returned r) => Done (Pro.Returned r)
  | Done Pro.Threw => Done (fetchFromLyricsOvh ovh)
  | OutOfFuel => OutOfFuel
  | NaNTime => NaNTime
  end.

(** What [displayLyrics(lyricsResult, ...)] stores for the sync path:
    [syncedLyrics] and [hasSyncedLyrics]. *)
Definition displayLyrics (lyricsResult : LyricsResult) (st : AppJs.State)
  : AppJs.State :=
  {| AppJs.player := AppJs.player st;
     AppJs.syncedLyrics := parsed lyricsResult;
     AppJs.hasSyncedLyrics :=
       synced lyricsResult && (0 <? List.length (parsed lyricsResult))%nat;
     AppJs.currentLineIndex := AppJs.currentLineIndex st;
     AppJs.progressFill := AppJs.progressFill st;
     AppJs.highlighted := AppJs.highlighted st |}.

End AppJsLyrics.

(** ** Notions of the specification *)

(** A string that starts with a decimal digit. *)
Definition headIsDigit (s : string) : bool :=
  match s with String c _ => JS.isDigit c | EmptyString => false end.

(** The captures of a timestamp tag, [[MM:SS.ff]] or [[MM:SS.fff]]. *)
Record Tag : Type := { mm : string; ss : string; ff : string }.

Definition tagString (g : Tag) : string :=
  ("[" ++ mm g ++ ":" ++ ss g ++ "." ++ ff g ++ "]")%string.

Definition tagsString (gs : list Tag) : string :=
  fold_right (fun g acc => (tagString g ++ acc)%string) EmptyString gs.

(** Two digits of minutes, two of seconds, two or three of fraction. *)
Definition wellFormedTag (g : Tag) : Prop :=
  JS.digits 2 (mm g) = Some (mm g, EmptyString) /\
  JS.digits 2 (ss g) = Some (ss g, EmptyString) /\
  (JS.digits 2 (ff g) = Some (ff g, EmptyString) \/
   JS.digits 3 (ff g) = Some (ff g, EmptyString)).

(** The two tags of the line [[00:01.00][00:05.00]Chorus]. *)
Definition chorus_tags : list Tag :=
  [ {| mm := "00"; ss := "01"; ff := "00" |};
    {| mm := "00"; ss := "05"; ff := "00" |} ].

(** The same tags, the later one first. *)
Definition chorus_tags_rev : list Tag :=
  [ {| mm := "00"; ss := "05"; ff := "00" |};
    {| mm := "00"; ss := "01"; ff := "00" |} ].

(** The time a tag stands for. *)
Definition tagStandsFor (g : Tag) (t : Q) : Prop :=
  JS.tagTime (mm g) (ss g) (ff g) = Some t.

(** A sequence of events is sorted ascending by time. *)
Definition ascending (ls : list LyricEvent) : Prop :=
  StronglySorted (fun a b => time a <= time b) ls.

(** The events of a sequence that carry the time [t], in their order. *)
Definition atTime (t : Q) (ls : list LyricEvent) : list LyricEvent :=
  filter (fun e => Qeq_bool (time e) t) ls.

(** [sorted] is the stable ascending arrangement of [pushed]: it has the
    same events, ascending by time, and events with equal times stand in
    the order in which they were pushed. *)
Definition stable_sort_of (pushed sorted : list LyricEvent) : Prop :=
  Permutation pushed sorted /\ ascending sorted /\
  forall t, atTime t sorted = atTime t pushed.

(** The events of a track have strictly increasing times. *)
Definition increasing (ls : list LyricEvent) : Prop :=
  StronglySorted (fun a b => time a < time b) ls.

(** The index the specification assigns to a query time [q] over the
    thresholds [t0 < t1 < ... < tn]: -1 below [t0], [i] from [ti] up to
    (excluding) the next threshold, [n] from [tn] on. *)
Definition lookup_spec (ts : list Q) (q : Q) (idx : Z) : Prop :=
  (forall t0, nth_error ts 0 = Some t0 -> q < t0 -> idx = (-1)%Z) /\
  (forall i ti tj,
      nth_error ts i = Some ti -> nth_error ts (S i) = Some tj ->
      ti <= q -> q < tj -> idx = Z.of_nat i) /\
  (forall n tn,
      nth_error ts n = Some tn -> List.length ts = S n ->
      tn <= q -> idx = Z.of_nat n).

(** The lookup [f] meets the specification on the track [ls] at [q], the
    thresholds being the event times. *)
Definition lookup_exact (f : list LyricEvent -> Q -> option Z)
    (ls : list LyricEvent) (q : Q) : Prop :=
  exists idx, f ls q = Some idx /\ lookup_spec (map time ls) q idx.

(** The same with every threshold 0.1 s early. *)
Definition lookup_early (f : list LyricEvent -> Q -> option Z)
    (ls : list LyricEvent) (q : Q) : Prop :=
  exists idx, f ls q = Some idx /\
    lookup_spec (map (fun e => time e - 0.1) ls) q idx.

(** An event moved 0.1 s earlier: src/unnamed/part_001 runs the scan of
    src/app.js on such events. *)
Definition earlier (e : LyricEvent) : LyricEvent :=
  {| time := time e - 0.1; text := text e |}.

(** The track of the specification's end-to-end scenario. *)
Definition track_abc : list LyricEvent :=
  [ {| time := 0; text := "Line A" |};
    {| time := 3; text := "Line B" |};
    {| time := 6; text := "Line C" |} ].

(** The property the specification states for the progress computation: a
    tick leaves a number on the progress display that is neither NaN nor an
    infinity (the display starts at a finite width, so a skipped or clamped
    computation keeps it finite). *)
Definition progress_clean (w : option JS.jsnum) : Prop :=
  exists x, w = Some x /\ JS.is_finite x = true.

(** What a tick that divides without a test leaves on the progress display
    for the position [t] and the reported duration [dur]: the finite
    percentage for a finite duration that is not zero; for a duration of
    zero NaN at position zero and an infinity of the sign of the position
    elsewhere; NaN for a duration that is NaN; so nothing finite for a
    duration that is zero or NaN. *)
Definition progress_written (t : Q) (dur w : JS.jsnum) : Prop :=
  (forall d, dur = JS.Fin d -> ~ d == 0 -> w = JS.Fin (t / d * 100)) /\
  (forall d, dur = JS.Fin d -> d == 0 ->
     (t == 0 -> w = JS.NaN) /\
     (0 < t -> w = JS.PosInf) /\
     (t < 0 -> w = JS.NegInf)) /\
  (dur = JS.NaN -> w = JS.NaN) /\
  (dur = JS.NaN \/ (exists d, dur = JS.Fin d /\ d == 0) ->
   JS.is_finite w = false).

(** A player 50 s into a track of 200 s. *)
Definition player_quarter : Player :=
  {| getCurrentTime := 50; getDuration := JS.Fin 200 |}.

(** A player that has not loaded its metadata: position 0, duration 0. *)
Definition player_loading : Player :=
  {| getCurrentTime := 0; getDuration := JS.Fin 0 |}.

Definition appjs_loading : AppJs.State :=
  {| AppJs.player := Some player_loading;
     AppJs.syncedLyrics := track_abc;
     AppJs.hasSyncedLyrics := true;
     AppJs.currentLineIndex := (-1)%Z;
     AppJs.progressFill := JS.Fin 0;
     AppJs.highlighted := [] |}.

Definition pro_loading : Pro.App :=
  {| Pro.player := Some player_loading;
     Pro.syncEngine := Pro.engine_ready;
     Pro.lyrics := Some {| Pro.synced := true; Pro.lines := track_abc |};
     Pro.currentLine := (-1)%Z;
     Pro.audioEnabled := true;
     Pro.progressFill := JS.Fin 0;
     Pro.highlighted := [];
     Pro.beeps := 0 |}.

(** Every character of [s] satisfies [f]. *)
Fixpoint allChars (f : ascii -> bool) (s : string) : bool :=
  match s with
  | EmptyString => true
  | String c s' => f c && allChars f s'
  end.

(** A video id: eleven characters of the class of the patterns. *)
Definition isVideoId (id : string) : Prop :=
  String.length id = 11%nat /\ allChars JS.isIdChar id = true.

Definition notDot (c : ascii) : bool := negb (Ascii.eqb c ".").

(** The character [o] does not occur in [s]. *)
Definition lacks (o : ascii) (s : string) : bool :=
  allChars (fun c => negb (Ascii.eqb c o)) s.

(** A line of white space only, or empty. *)
Definition blankLine (s : string) : bool := allChars JS.isWhiteSpace s.

(** A plain lyrics text of three lines, the second of them blank. *)
Definition plain_three_lines : string :=
  ("one" ++ String "010" ("  " ++ String "010" " two "))%string.


(** A click on one of the font size buttons of src/app.js. *)
Inductive FontClick : Type := Increase | Decrease.

Definition fontClick (c : FontClick) (size : Q) : Q :=
  match c with
  | Increase => AppJs.fontIncrease size
  | Decrease => AppJs.fontDecrease size
  end.

(** A text as the parsers store it: not empty, with no white space at
    either end. *)
Definition storedText (s : string) : Prop :=
  JS.truthy s = true /\ JS.trim s = s.

(** The largest time a tag can stand for: 99 min 99 s 999 ms. *)
Definition maxTagTime : Q := 6039.999.

Definition tagTimeRange (t : Q) : Prop := 0 <= t /\ t <= maxTagTime.

(** What holds of every event of the arrays: its text is stored text and
    its time is the time of a tag. *)
Definition eventOk (e : LyricEvent) : Prop :=
  storedText (text e) /\ tagTimeRange (time e).

(** An app whose video is at 7 s while the engine's estimate is 5 s. *)
Definition pro_drifting : Pro.App :=
  {| Pro.player := Some {| getCurrentTime := 7; getDuration := JS.Fin 200 |};
     Pro.syncEngine := Pro.engine_playing;
     Pro.lyrics := Some {| Pro.synced := true; Pro.lines := track_abc |};
     Pro.currentLine := (-1)%Z;
     Pro.audioEnabled := true;
     Pro.progressFill := JS.Fin 0;
     Pro.highlighted := [];
     Pro.beeps := 0 |}.

(** What holds of a result of the fetchers of src/app.js: a synced result
    carries the non-blank text it was parsed from, a result that is not
    synced carries no events and a plain text that is not blank. *)
Definition resultOk (res : AppJsLyrics.LyricsResult) : Prop :=
  (AppJsLyrics.synced res = true ->
   exists s, AppJsLyrics.raw res = Some s /\
     JS.truthy (JS.trim s) = true /\
     AppJs.parseLrcLyrics s = JS.Done (AppJsLyrics.parsed res)) /\
  (AppJsLyrics.synced res = false ->
   AppJsLyrics.raw res = None /\ AppJsLyrics.parsed res = [] /\
   JS.truthy (JS.trim (AppJsLyrics.plain res)) = true).

(** An answer of LRCLIB with synced lyrics of two lines. *)
Definition lrclib_two_lines : Pro.Response AppJsLyrics.LrclibTrack :=
  Pro.Ok {| AppJsLyrics.syncedLyrics :=
              Some (String "[" (String "0" (String "0" (String ":"
                   (String "0" (String "5" (String "." (String "0"
                   (String "0" (String "]" (String "b" (String "010"
                   (String "[" (String "0" (String "0" (String ":"
                   (String "0" (String "1" (String "." (String "0"
                   (String "0" (String "]" (String "a"
                    EmptyString)))))))))))))))))))))));
            AppJsLyrics.plainLyrics := None |}.

(** * Properties *)

(** ** Strings and the pieces of the regular expressions *)

Section Strings.
Import JS.
Local Open Scope string_scope.

Lemma length_append (a b : string) :
  String.length (a ++ b) = (String.length a + String.length b)%nat.
Proof. induction a as [ | c a IH]; cbn; [reflexivity | now rewrite IH]. Qed.

Lemma append_assoc (a b c : string) : (a ++ b) ++ c = a ++ b ++ c.
Proof. induction a as [ | x a IH]; cbn; [reflexivity | now rewrite IH]. Qed.

Lemma length_slice (n : nat) (s : string) :
  String.length (slice n s) = (String.length s - n)%nat.
Proof.
  revert s. induction n as [ | n IH]; intros s; cbn.
  - now rewrite Nat.sub_0_r.
  - destruct s as [ | c s]; cbn; [reflexivity | apply IH].
Qed.

Lemma lit_inv (c : ascii) (s r : string) :
  lit c s = Some r -> s = String c r.
Proof.
  destruct s as [ | x s]; cbn; [discriminate | ].
  destruct (Ascii.eqb_spec x c) as [-> | _]; [ | discriminate].
  now intros [= ->].
Qed.

Lemma digits_inv (n : nat) (s ds r : string) :
  digits n s = Some (ds, r) ->
  s = ds ++ r /\ String.length ds = n /\
  ((0 < n)%nat -> headIsDigit ds = true).
Proof.
  revert s ds r. induction n as [ | n IH]; intros s ds r; cbn.
  - intros [= <- <-]. repeat split. lia.
  - destruct s as [ | x s]; [discriminate | ].
    destruct (isDigit x) eqn:Hx; [ | discriminate].
    destruct (digits n s) as [[ds' r'] | ] eqn:Hd; [ | discriminate].
    intros [= <- <-]. destruct (IH _ _ _ Hd) as [-> [<- _]].
    repeat split. intros _. exact Hx.
Qed.

Lemma fraction_inv (s g r : string) :
  fraction s = Some (g, r) ->
  s = g ++ String "]" r /\ headIsDigit g = true /\
  (2 <= String.length g <= 3)%nat.
Proof.
  unfold fraction.
  assert (Hcase : forall n, (0 < n)%nat ->
    match digits n s with
    | Some (g0, rest) =>
        match lit "]" rest with
        | Some rest' => Some (g0, rest')
        | None => None
        end
    | None => None
    end = Some (g, r) ->
    s = g ++ String "]" r /\ headIsDigit g = true /\ String.length g = n).
  { intros n Hn. destruct (digits n s) as [[g0 rest] | ] eqn:Hd; [ | discriminate].
    destruct (lit "]" rest) as [rest' | ] eqn:Hl; [ | discriminate].
    intros [= <- <-]. apply lit_inv in Hl as ->.
    destruct (digits_inv _ _ _ _ Hd) as [-> [Hlen Hhead]]. auto. }
  destruct (match digits 3 s with Some _ => _ | None => _ end)
    as [[g0 r0] | ] eqn:H3.
  - intros [= <- <-].
    destruct (Hcase 3%nat ltac:(lia) H3) as [-> [Hh Hl]].
    repeat split; auto; lia.
  - intros H2.
    destruct (Hcase 2%nat ltac:(lia) H2) as [-> [Hh Hl]].
    repeat split; auto; lia.
Qed.

Lemma parseInt_defined (s : string) :
  headIsDigit s = true -> exists z, parseInt s = Some z.
Proof.
  destruct s as [ | c s]; cbn; [discriminate | ]. intros ->. eauto.
Qed.

Lemma headIsDigit_append (a b : string) :
  headIsDigit a = true -> headIsDigit (a ++ b) = true.
Proof. destruct a; cbn; [discriminate | auto]. Qed.

(** The captures of a tag never give a NaN time. *)
Lemma tagTime_defined (g1 g2 g3 : string) :
  headIsDigit g1 = true -> headIsDigit g2 = true -> headIsDigit g3 = true ->
  exists t, tagTime g1 g2 g3 = Some t.
Proof.
  intros H1 H2 H3. unfold tagTime.
  destruct (parseInt_defined g1 H1) as [a ->].
  destruct (parseInt_defined g2 H2) as [b ->].
  destruct (parseInt_defined (padEnd 3 "0" g3)) as [c ->]; [ | eauto].
  unfold padEnd. now apply headIsDigit_append.
Qed.

Lemma splitOn_length (c : ascii) (s cur line : string) :
  In line (splitOn c s cur) ->
  (String.length line <= String.length cur + String.length s)%nat.
Proof.
  revert cur. induction s as [ | x s IH]; intros cur; cbn.
  - intros [<- | []]. lia.
  - destruct (Ascii.eqb x c).
    + intros [<- | Hin]; [lia | ]. apply IH in Hin. cbn in Hin. lia.
    + intros Hin. apply IH in Hin. rewrite length_append in Hin.
      cbn in Hin. lia.
Qed.

Lemma split_length (c : ascii) (s line : string) :
  In line (split c s) -> (String.length line <= String.length s)%nat.
Proof. intros Hin. apply splitOn_length in Hin. cbn in Hin. lia. Qed.

End Strings.

(** ** parseLrcLyrics of src/app.js *)

Section ParseLrcLyrics.
Import JS.
Local Open Scope string_scope.

Lemma matchTime_inv (s g1 g2 g3 r : string) :
  AppJs.matchTime s = Some (g1, g2, g3, r) ->
  s = "[" ++ g1 ++ ":" ++ g2 ++ "." ++ g3 ++ "]" ++ r /\
  headIsDigit g1 = true /\ headIsDigit g2 = true /\ headIsDigit g3 = true.
Proof.
  unfold AppJs.matchTime.
  destruct (lit "[" s) as [s1 | ] eqn:H1; [ | discriminate].
  destruct (digits 2 s1) as [[a s2] | ] eqn:H2; [ | discriminate].
  destruct (lit ":" s2) as [s3 | ] eqn:H3; [ | discriminate].
  destruct (digits 2 s3) as [[b s4] | ] eqn:H4; [ | discriminate].
  destruct (lit "." s4) as [s5 | ] eqn:H5; [ | discriminate].
  destruct (fraction s5) as [[c s6] | ] eqn:H6; [ | discriminate].
  intros [= <- <- <- <-].
  apply lit_inv in H1 as ->. apply lit_inv in H3 as ->.
  apply lit_inv in H5 as ->.
  destruct (digits_inv _ _ _ _ H2) as [-> [_ Ha]].
  destruct (digits_inv _ _ _ _ H4) as [-> [_ Hb]].
  destruct (fraction_inv _ _ _ H6) as [-> [Hc _]].
  repeat split; auto.
Qed.

(** A match lies in the part of the input that was searched, is not empty,
    and its captures start with digits. *)
Lemma search_inv (s : string) (i : nat) (m : AppJs.RegExpMatch) :
  AppJs.search s i = Some m ->
  (i <= AppJs.index m)%nat /\
  (AppJs.index m + String.length (AppJs.m0 m) <= i + String.length s)%nat /\
  (0 < String.length (AppJs.m0 m))%nat /\
  headIsDigit (AppJs.m1 m) = true /\ headIsDigit (AppJs.m2 m) = true /\
  headIsDigit (AppJs.m3 m) = true.
Proof.
  revert i. induction s as [ | c s IH]; intros i.
  - cbn. discriminate.
  - cbn [AppJs.search].
    destruct (AppJs.matchTime (String c s)) as [[[[g1 g2] g3] r] | ] eqn:Hm.
    + intros [= <-]. cbn [AppJs.index AppJs.m0 AppJs.m1 AppJs.m2 AppJs.m3].
      destruct (matchTime_inv _ _ _ _ _ Hm) as [Hs [H1 [H2 H3]]].
      repeat split; auto; [ | cbn; lia].
      rewrite Hs. cbn. rewrite !length_append. cbn. rewrite !length_append.
      cbn. rewrite !length_append. cbn. lia.
    + intros Hs. apply IH in Hs as [Hi [Hend Hrest]]. cbn.
      repeat split; try tauto; lia.
Qed.

Lemma exec_inv (line : string) (re : nat) (m : AppJs.RegExpMatch) :
  AppJs.exec line re = Some m ->
  (re < AppJs.index m + String.length (AppJs.m0 m) <= String.length line)%nat
  /\ exists t, tagTime (AppJs.m1 m) (AppJs.m2 m) (AppJs.m3 m) = Some t.
Proof.
  unfold AppJs.exec. intros Hs.
  apply search_inv in Hs as [Hi [Hend [Hpos [H1 [H2 H3]]]]].
  rewrite length_slice in Hend. split; [lia | now apply tagTime_defined].
Qed.

(** The [while] loop ends: every match moves [lastIndex] forward. *)
Lemma whileExec_enough (line : string) (n : nat) :
  forall re ts li, (String.length line - re < n)%nat ->
  exists r, forall fuel, (n <= fuel)%nat ->
    AppJs.whileExec fuel line re ts li = Done r.
Proof.
  induction n as [ | n IH]; intros re ts li Hn; [lia | ].
  destruct (AppJs.exec line re) as [m | ] eqn:Hm.
  - destruct (exec_inv _ _ _ Hm) as [Hrange [t Ht]].
    destruct (IH (AppJs.index m + String.length (AppJs.m0 m))%nat
                (ts ++ [t])%list
                (AppJs.index m + String.length (AppJs.m0 m))%nat)
      as [r Hr]; [lia | ].
    exists r. intros [ | fuel] Hfuel; [lia | ].
    cbn [AppJs.whileExec]. rewrite Hm, Ht. apply Hr. lia.
  - exists (ts, li). intros [ | fuel] Hfuel; [lia | ].
    cbn [AppJs.whileExec]. now rewrite Hm.
Qed.

Lemma forLines_enough (n : nat) (lines : list string) :
  (forall line, In line lines -> (String.length line < n)%nat) ->
  forall parsed, exists r, forall fuel, (n <= fuel)%nat ->
    AppJs.forLines fuel lines parsed = Done r.
Proof.
  induction lines as [ | line rest IH]; intros Hlen parsed.
  - exists parsed. reflexivity.
  - destruct (whileExec_enough line n 0 [] 0) as [[ts li] Hw].
    { specialize (Hlen line (or_introl eq_refl)). lia. }
    destruct (IH (fun l Hl => Hlen l (or_intror Hl))
                (AppJs.pushEach ts (trim (slice li line)) parsed)) as [r Hr].
    exists r. intros fuel Hfuel. cbn [AppJs.forLines].
    rewrite (Hw fuel Hfuel). now apply Hr.
Qed.

(** The loops of parseLrcLyrics end on every input, with the same array
    whatever fuel is left over. *)
Lemma parsedEvents_total (lrcText : string) :
  exists parsed, forall fuel, (String.length lrcText < fuel)%nat ->
    AppJs.parsedEvents fuel lrcText = Done parsed.
Proof.
  destruct (forLines_enough (S (String.length lrcText))
              (split "010"%char lrcText)) with (parsed := @nil LyricEvent)
    as [r Hr].
  - intros line Hin. apply split_length in Hin. lia.
  - exists r. intros fuel Hfuel. apply Hr. lia.
Qed.

(** *** Lines that start with several tags *)

Lemma slice_append (a b : string) : slice (String.length a) (a ++ b) = b.
Proof. induction a as [ | c a IH]; cbn; [now destruct b | exact IH]. Qed.

Lemma digits_append (n : nat) (g s : string) :
  digits n g = Some (g, "") -> digits n (g ++ s) = Some (g, s).
Proof.
  revert g. induction n as [ | n IH]; intros g; cbn.
  - now intros [= <-].
  - destruct g as [ | x g]; [discriminate | ]. cbn.
    destruct (isDigit x); [ | discriminate].
    destruct (digits n g) as [[ds r] | ] eqn:Hd; [ | discriminate].
    intros [= -> ->]. now rewrite (IH _ Hd).
Qed.

Lemma fraction_of_tag (g s : string) :
  digits 2 g = Some (g, "") \/ digits 3 g = Some (g, "") ->
  fraction (g ++ String "]" s) = Some (g, s).
Proof.
  intros [H2 | H3]; unfold fraction.
  - assert (H3 : digits 3 (g ++ String "]" s) = None).
    { destruct (digits_inv _ _ _ _ H2) as [_ [Hlen _]].
      destruct g as [ | a [ | b [ | c g]]]; try discriminate.
      cbn in H2 |- *.
      destruct (isDigit a); [ | discriminate].
      destruct (isDigit b); [reflexivity | discriminate]. }
    rewrite H3, (digits_append 2 g _ H2). cbn. reflexivity.
  - rewrite (digits_append 3 g _ H3). cbn. reflexivity.
Qed.

Lemma matchTime_of_tag (g : Tag) (s : string) :
  wellFormedTag g ->
  AppJs.matchTime (tagString g ++ s) = Some (mm g, ss g, ff g, s).
Proof.
  intros [Hm [Hs Hf]]. unfold AppJs.matchTime, tagString.
  rewrite !append_assoc. cbn [append lit]. rewrite Ascii.eqb_refl.
  rewrite (digits_append 2 _ _ Hm).
  cbn [append lit]. rewrite Ascii.eqb_refl.
  rewrite (digits_append 2 _ _ Hs).
  cbn [append lit]. rewrite Ascii.eqb_refl.
  now rewrite (fraction_of_tag _ _ Hf).
Qed.

Lemma search_none_index (s : string) (i j : nat) :
  AppJs.search s i = None -> AppJs.search s j = None.
Proof.
  revert i j. induction s as [ | c s IH]; intros i j; cbn [AppJs.search].
  - destruct (AppJs.matchTime "") as [[[[? ?] ?] ?] | ]; [discriminate | auto].
  - destruct (AppJs.matchTime (String c s)) as [[[[? ?] ?] ?] | ];
      [discriminate | apply IH].
Qed.

(** The [while] loop on a line made of [pre], already scanned, the tags
    [gs] and a [rest] in which the pattern matches nowhere: one timestamp
    per tag, and [lastIndex] behind the last tag. *)
Lemma whileExec_tags (rest : string) (gs : list Tag) :
  AppJs.search rest 0 = None ->
  forall ts, Forall2 tagStandsFor gs ts -> Forall wellFormedTag gs ->
  forall fuel pre acc li, (List.length gs < fuel)%nat ->
    AppJs.whileExec fuel (pre ++ tagsString gs ++ rest)
      (String.length pre) acc li
    = Done ((acc ++ ts)%list,
            match gs with
            | [] => li
            | _ => (String.length pre + String.length (tagsString gs))%nat
            end).
Proof.
  intros Hrest ts Hts. induction Hts as [ | g t gs ts Hg Hts IH];
    intros Hwf fuel pre acc li Hfuel.
  - destruct fuel as [ | fuel]; [cbn in Hfuel; lia | ].
    cbn [AppJs.whileExec tagsString fold_right append].
    unfold AppJs.exec. rewrite slice_append.
    rewrite (search_none_index _ _ _ Hrest). now rewrite app_nil_r.
  - destruct fuel as [ | fuel]; [cbn in Hfuel; lia | ].
    inversion Hwf as [ | ? ? Hwg Hwgs]; subst.
    cbn [AppJs.whileExec tagsString fold_right].
    unfold AppJs.exec. rewrite slice_append.
    fold (tagsString gs). rewrite append_assoc.
    destruct (tagString g ++ tagsString gs ++ rest) as [ | c rem] eqn:Hline.
    { unfold tagString in Hline. discriminate. }
    cbn [AppJs.search]. rewrite <- Hline.
    rewrite (matchTime_of_tag g _ Hwg).
    cbn [AppJs.index AppJs.m0 AppJs.m1 AppJs.m2 AppJs.m3].
    unfold tagStandsFor in Hg. rewrite Hg.
    fold (tagString g).
    replace (String.length pre + String.length (tagString g))%nat
      with (String.length (pre ++ tagString g)) by apply length_append.
    replace (pre ++ tagString g ++ tagsString gs ++ rest)
      with ((pre ++ tagString g) ++ tagsString gs ++ rest)
      by (now rewrite !append_assoc).
    rewrite (IH Hwgs fuel (pre ++ tagString g) (acc ++ [t])%list
               (String.length (pre ++ tagString g))); [ | cbn in Hfuel; lia].
    rewrite <- app_assoc. cbn [app]. f_equal. f_equal.
    rewrite !length_append.
    destruct gs; cbn [tagsString fold_right String.length]; lia.
Qed.

Lemma pushEach_truthy (txt : string) (ts : list Q) :
  truthy txt = true ->
  forall parsed,
    AppJs.pushEach ts txt parsed
    = (parsed ++ map (fun t => {| time := t; text := txt |}) ts)%list.
Proof.
  intros Htxt. induction ts as [ | t ts IH]; intros parsed; cbn.
  - now rewrite app_nil_r.
  - rewrite Htxt, IH, <- app_assoc. reflexivity.
Qed.

(** On a line that starts with well-formed tags and goes on with a text in
    which the pattern matches nowhere, the body of the [for] loop pushes
    one event per tag, in the order of the tags, all with the trimmed
    text. *)
Lemma forLines_tagged_line (gs : list Tag) (ts : list Q) (rest : string) :
  Forall wellFormedTag gs -> Forall2 tagStandsFor gs ts ->
  AppJs.search rest 0 = None -> truthy (trim rest) = true ->
  forall fuel parsed, (List.length gs < fuel)%nat ->
    AppJs.forLines fuel [tagsString gs ++ rest] parsed
    = Done (parsed
            ++ map (fun t => {| time := t; text := trim rest |}) ts)%list.
Proof.
  intros Hwf Hts Hrest Htxt fuel parsed Hfuel. cbn [AppJs.forLines].
  pose proof (whileExec_tags rest gs Hrest ts Hts Hwf fuel "" [] 0%nat Hfuel)
    as Hw.
  cbn [append String.length Nat.add app] in Hw. rewrite Hw.
  destruct gs as [ | g gs].
  - inversion Hts; subst. cbn. now rewrite app_nil_r.
  - rewrite slice_append. now rewrite pushEach_truthy.
Qed.

Lemma forLines_chorus_line :
  exists t1 t2,
    t1 == 1 /\ t2 == 5 /\
    AppJs.forLines 3 ["[00:01.00][00:05.00]Chorus"] []
    = Done [ {| time := t1; text := "Chorus" |};
             {| time := t2; text := "Chorus" |} ].
Proof.
  assert (Hts : exists t1 t2, t1 == 1 /\ t2 == 5 /\
                  Forall2 tagStandsFor chorus_tags [t1; t2]).
  { do 2 eexists. split; [ | split].
    3: { repeat constructor; unfold tagStandsFor; cbn [mm ss ff];
         vm_compute; reflexivity. }
    all: reflexivity. }
  destruct Hts as [t1 [t2 [H1 [H2 Hts]]]].
  exists t1, t2. split; [exact H1 | ]. split; [exact H2 | ].
  apply (forLines_tagged_line chorus_tags [t1; t2] "Chorus"); auto.
  repeat constructor.
  all: unfold wellFormedTag; cbn; auto.
Qed.

End ParseLrcLyrics.

(** ** parseLRC of src/unnamed/part_001 *)

Section ParseLRC.
Import JS.
Local Open Scope string_scope.

Lemma afterMinutes_inv (s g2 g3 g4 r : string) :
  Pro.afterMinutes s = Some (g2, g3, g4, r) ->
  String.length s
  = (3 + String.length g2 + String.length g3 + String.length g4
     + String.length r)%nat /\
  headIsDigit g2 = true /\ headIsDigit g3 = true.
Proof.
  unfold Pro.afterMinutes.
  destruct (lit ":" s) as [s1 | ] eqn:H1; [ | discriminate].
  destruct (digits 2 s1) as [[b s2] | ] eqn:H2; [ | discriminate].
  destruct (lit "." s2) as [s3 | ] eqn:H3; [ | discriminate].
  destruct (fraction s3) as [[c s4] | ] eqn:H4; [ | discriminate].
  destruct (dotStar s4) as [d rest] eqn:H5.
  intros [= <- <- <- <-].
  apply lit_inv in H1 as ->. apply lit_inv in H3 as ->.
  destruct (digits_inv _ _ _ _ H2) as [-> [_ Hb]].
  destruct (fraction_inv _ _ _ H4) as [-> [Hc _]].
  repeat split; auto.
  assert (Hd : String.length s4 = (String.length d + String.length rest)%nat).
  { clear - H5. revert d rest H5.
    induction s4 as [ | x s4 IH]; intros d rest; cbn.
    - now intros [= <- <-].
    - destruct (isLineTerminator x); [now intros [= <- <-] | ].
      destruct (dotStar s4) as [d' rest'].
      intros [= <- <-]. cbn. now rewrite (IH _ _ eq_refl). }
  cbn. rewrite !length_append. cbn. rewrite !length_append. cbn. lia.
Qed.

Lemma matchLine_inv (s g1 g2 g3 g4 r : string) :
  Pro.matchLine s = Some (g1, (g2, g3, g4, r)) ->
  String.length s
  = (4 + String.length g1 + String.length g2 + String.length g3
     + String.length g4 + String.length r)%nat /\
  headIsDigit g1 = true /\ headIsDigit g2 = true /\ headIsDigit g3 = true.
Proof.
  unfold Pro.matchLine.
  destruct (lit "[" s) as [s1 | ] eqn:H1; [ | discriminate].
  apply lit_inv in H1 as ->.
  assert (Hcase : forall n, (0 < n)%nat ->
    match digits n s1 with
    | Some (g, s2) =>
        match Pro.afterMinutes s2 with
        | Some r0 => Some (g, r0)
        | None => None
        end
    | None => None
    end = Some (g1, (g2, g3, g4, r)) ->
    String.length (String "[" s1)
    = (4 + String.length g1 + String.length g2 + String.length g3
       + String.length g4 + String.length r)%nat /\
    headIsDigit g1 = true /\ headIsDigit g2 = true /\ headIsDigit g3 = true).
  { intros n Hn.
    destruct (digits n s1) as [[g s2] | ] eqn:Hd; [ | discriminate].
    destruct (Pro.afterMinutes s2) as [[[[a b] c] d] | ] eqn:Ha;
      [ | discriminate].
    intros [= <- <- <- <- <-].
    destruct (digits_inv _ _ _ _ Hd) as [-> [_ Hg]].
    destruct (afterMinutes_inv _ _ _ _ _ Ha) as [Hlen [Hb Hc]].
    repeat split; auto. cbn. rewrite length_append, Hlen. lia. }
  destruct (match digits 2 s1 with Some _ => _ | None => _ end)
    as [r0 | ] eqn:H2.
  - intros [= ->]. apply (Hcase 2%nat); [lia | exact H2].
  - intros H. apply (Hcase 1%nat); [lia | exact H].
Qed.

Lemma pro_search_inv (s : string) (i : nat) (m : Pro.RegExpMatch) :
  Pro.search s i = Some m ->
  (i <= Pro.index m)%nat /\
  (Pro.index m + String.length (Pro.m0 m) <= i + String.length s)%nat /\
  (0 < String.length (Pro.m0 m))%nat /\
  headIsDigit (Pro.m1 m) = true /\ headIsDigit (Pro.m2 m) = true /\
  headIsDigit (Pro.m3 m) = true.
Proof.
  revert i. induction s as [ | c s IH]; intros i.
  - cbn. discriminate.
  - cbn [Pro.search].
    destruct (Pro.matchLine (String c s)) as [[g1 [[[g2 g3] g4] r]] | ] eqn:Hm.
    + intros [= <-]. cbn [Pro.index Pro.m0 Pro.m1 Pro.m2 Pro.m3].
      destruct (matchLine_inv _ _ _ _ _ _ Hm) as [Hs [H1 [H2 H3]]].
      repeat split; auto; [ | cbn; lia].
      rewrite Hs. cbn. rewrite !length_append. cbn. rewrite !length_append.
      cbn. rewrite !length_append. cbn. lia.
    + intros Hs. apply IH in Hs as [Hi [Hend Hrest]]. cbn.
      repeat split; try tauto; lia.
Qed.

Lemma pro_exec_inv (lrcText : string) (re : nat) (m : Pro.RegExpMatch) :
  Pro.exec lrcText re = Some m ->
  (re < Pro.index m + String.length (Pro.m0 m) <= String.length lrcText)%nat
  /\ exists t, tagTime (Pro.m1 m) (Pro.m2 m) (Pro.m3 m) = Some t.
Proof.
  unfold Pro.exec. intros Hs.
  apply pro_search_inv in Hs as [Hi [Hend [Hpos [H1 [H2 H3]]]]].
  rewrite length_slice in Hend. split; [lia | now apply tagTime_defined].
Qed.

Lemma pro_whileExec_enough (lrcText : string) (n : nat) :
  forall re ls, (String.length lrcText - re < n)%nat ->
  exists r, forall fuel, (n <= fuel)%nat ->
    Pro.whileExec fuel lrcText re ls = Done r.
Proof.
  induction n as [ | n IH]; intros re ls Hn; [lia | ].
  destruct (Pro.exec lrcText re) as [m | ] eqn:Hm.
  - destruct (pro_exec_inv _ _ _ Hm) as [Hrange [t Ht]].
    destruct (IH (Pro.index m + String.length (Pro.m0 m))%nat
                (if truthy (trim (Pro.m4 m))
                 then (ls ++ [ {| time := t; text := trim (Pro.m4 m) |} ])%list
                 else ls))
      as [r Hr]; [lia | ].
    exists r. intros [ | fuel] Hfuel; [lia | ].
    cbn [Pro.whileExec]. rewrite Hm, Ht. apply Hr. lia.
  - exists ls. intros [ | fuel] Hfuel; [lia | ].
    cbn [Pro.whileExec]. now rewrite Hm.
Qed.

Lemma matchedLines_total (lrcText : string) :
  exists ls, forall fuel, (String.length lrcText < fuel)%nat ->
    Pro.matchedLines fuel lrcText = Done ls.
Proof.
  destruct (pro_whileExec_enough lrcText (S (String.length lrcText)) 0 [])
    as [r Hr]; [lia | ].
  exists r. intros fuel Hfuel. apply Hr. lia.
Qed.

End ParseLRC.


(** ** The sort of the parsers *)

Section Sorting.
Import JS.

Lemma insertByTime_perm (x : LyricEvent) (l : list LyricEvent) :
  Permutation (x :: l) (insertByTime x l).
Proof.
  induction l as [ | y l IH]; cbn; [reflexivity | ].
  destruct (Qle_bool (time x) (time y)); [reflexivity | ].
  rewrite perm_swap. now constructor.
Qed.

Lemma sortByTime_perm (l : list LyricEvent) : Permutation l (sortByTime l).
Proof.
  induction l as [ | x l IH]; cbn; [constructor | ].
  rewrite <- insertByTime_perm. now constructor.
Qed.

Lemma insertByTime_ascending (x : LyricEvent) (l : list LyricEvent) :
  ascending l -> ascending (insertByTime x l).
Proof.
  unfold ascending. induction 1 as [ | y l Hl IH Hy]; cbn.
  - repeat constructor.
  - destruct (Qle_bool (time x) (time y)) eqn:Hxy.
    + apply Qle_bool_iff in Hxy. constructor; [now constructor | ].
      constructor; [exact Hxy | ].
      eapply Forall_impl; [ | exact Hy]. cbn. intros z Hz.
      eapply Qle_trans; eassumption.
    + constructor; [exact IH | ].
      assert (Hyx : time y <= time x).
      { destruct (Qlt_le_dec (time y) (time x)) as [Hlt | Hle].
        - now apply Qlt_le_weak.
        - apply Qle_bool_iff in Hle. congruence. }
      eapply Permutation_Forall; [apply insertByTime_perm | ].
      now constructor.
Qed.

Lemma sortByTime_ascending (l : list LyricEvent) : ascending (sortByTime l).
Proof.
  induction l as [ | x l IH]; cbn; [constructor | ].
  now apply insertByTime_ascending.
Qed.

(** An event is inserted after the events of smaller time only, so it
    stays in front of every event of its own time. *)
Lemma insertByTime_atTime (t : Q) (x : LyricEvent) (l : list LyricEvent) :
  atTime t (insertByTime x l) = atTime t (x :: l).
Proof.
  unfold atTime. induction l as [ | y l IH]; [reflexivity | ].
  cbn [insertByTime]. destruct (Qle_bool (time x) (time y)) eqn:Hxy;
    [reflexivity | ].
  cbn [filter] in *. rewrite IH.
  destruct (Qeq_bool (time x) t) eqn:Hx; [ | reflexivity].
  destruct (Qeq_bool (time y) t) eqn:Hy; [ | reflexivity].
  apply Qeq_bool_iff in Hx, Hy.
  assert (Hle : time x <= time y) by (rewrite Hx, Hy; apply Qle_refl).
  apply Qle_bool_iff in Hle. congruence.
Qed.

Lemma sortByTime_atTime (t : Q) (l : list LyricEvent) :
  atTime t (sortByTime l) = atTime t l.
Proof.
  induction l as [ | x l IH]; [reflexivity | ].
  cbn [sortByTime fold_right]. rewrite insertByTime_atTime.
  unfold atTime in *. cbn [filter]. fold (sortByTime l). now rewrite IH.
Qed.

Lemma sortByTime_stable (l : list LyricEvent) :
  stable_sort_of l (sortByTime l).
Proof.
  repeat split.
  - apply sortByTime_perm.
  - apply sortByTime_ascending.
  - intros t. apply sortByTime_atTime.
Qed.

End Sorting.

(** ** The parsers: results *)

Section Parsers.
Import JS.
Local Open Scope string_scope.

(** C8: on every input string the loops of parseLrcLyrics come to an end
    and the parser returns an array of events, the same whatever fuel is
    left over; no NaN time arises.  Brackets that are not a tag are text:
    a line whose only bracket is malformed gives no event, and a malformed
    bracket after a tag belongs to the tag's text. *)
Theorem parseLrcLyrics_total (lrcText : string) :
  (exists events,
     AppJs.parseLrcLyrics lrcText = Done events /\
     forall fuel, (String.length lrcText < fuel)%nat ->
       AppJs.parseLrcLyrics_fuel fuel lrcText = Done events) /\
  AppJs.parseLrcLyrics "[ab:cd.ef]Hello" = Done [] /\
  AppJs.parseLrcLyrics "[00:1.00]Hello" = Done [] /\
  (exists e, AppJs.parseLrcLyrics "[00:01.00][oops]Hello" = Done [e] /\
     time e == 1 /\ text e = "[oops]Hello").
Proof.
  split; [ | split; [reflexivity | split; [reflexivity | ]]].
  - destruct (parsedEvents_total lrcText) as [parsed Hp].
    exists (sortByTime parsed). unfold AppJs.parseLrcLyrics. split.
    + unfold AppJs.parseLrcLyrics_fuel. rewrite Hp; [reflexivity | lia].
    + intros fuel Hfuel. unfold AppJs.parseLrcLyrics_fuel.
      now rewrite Hp.
  - eexists. split; [vm_compute; reflexivity | ]. split; reflexivity.
Qed.

(** C9: on every input string both parsers return their events sorted
    ascending by time, events of equal time standing in the order in which
    the loops pushed them. *)
Theorem parsers_sort_stably (lrcText : string) :
  (exists pushed events,
     AppJs.parsedEvents (S (String.length lrcText)) lrcText = Done pushed /\
     AppJs.parseLrcLyrics lrcText = Done events /\
     stable_sort_of pushed events) /\
  (exists pushed events,
     Pro.matchedLines (S (String.length lrcText)) lrcText = Done pushed /\
     Pro.parseLRC lrcText = Done events /\
     stable_sort_of pushed events).
Proof.
  split.
  - destruct (parsedEvents_total lrcText) as [parsed Hp].
    exists parsed, (sortByTime parsed).
    assert (H : AppJs.parsedEvents (S (String.length lrcText)) lrcText
                = Done parsed) by (apply Hp; lia).
    split; [exact H | ]. split; [ | apply sortByTime_stable].
    unfold AppJs.parseLrcLyrics, AppJs.parseLrcLyrics_fuel. now rewrite H.
  - destruct (matchedLines_total lrcText) as [ls Hl].
    exists ls, (sortByTime ls).
    assert (H : Pro.matchedLines (S (String.length lrcText)) lrcText
                = Done ls) by (apply Hl; lia).
    split; [exact H | ]. split; [ | apply sortByTime_stable].
    unfold Pro.parseLRC, Pro.parseLRC_fuel. now rewrite H.
Qed.

Lemma parseInt_two_digits_padded (a b : ascii) :
  isDigit a = true -> isDigit b = true ->
  parseInt (padEnd 3 "0" (String a (String b "")))
  = Some (digitValue a * 100 + digitValue b * 10)%Z.
Proof.
  intros Ha Hb. unfold parseInt, padEnd.
  cbn [String.length Nat.sub repeatChar append]. rewrite Ha.
  cbn [digitsValue]. rewrite Ha, Hb.
  replace (isDigit "0") with true by reflexivity.
  replace (digitValue "0") with 0%Z by reflexivity.
  f_equal. lia.
Qed.

Lemma parseInt_three_digits_padded (a b c : ascii) :
  isDigit a = true -> isDigit b = true -> isDigit c = true ->
  parseInt (padEnd 3 "0" (String a (String b (String c ""))))
  = Some (digitValue a * 100 + digitValue b * 10 + digitValue c)%Z.
Proof.
  intros Ha Hb Hc. unfold parseInt, padEnd.
  cbn [String.length Nat.sub repeatChar append]. rewrite Ha.
  cbn [digitsValue]. rewrite Ha, Hb, Hc.
  f_equal. lia.
Qed.

(** C6: a fraction of two digits is padded on the right with a zero and
    read as milliseconds, so the digits a b stand for a*100 + b*10 ms, and
    a fraction of three digits is read as it is; parseLrcLyrics of
    "[00:01.50]Hello" is the single event at 1.5 s with the text Hello. *)
Theorem fraction_padded_to_milliseconds :
  (forall g1 g2 mins secs a b,
     parseInt g1 = Some mins -> parseInt g2 = Some secs ->
     isDigit a = true -> isDigit b = true ->
     exists t, tagTime g1 g2 (String a (String b "")) = Some t /\
       t == inject_Z mins * 60 + inject_Z secs
            + inject_Z (digitValue a * 100 + digitValue b * 10) / 1000) /\
  (forall g1 g2 mins secs a b c,
     parseInt g1 = Some mins -> parseInt g2 = Some secs ->
     isDigit a = true -> isDigit b = true -> isDigit c = true ->
     exists t, tagTime g1 g2 (String a (String b (String c ""))) = Some t /\
       t == inject_Z mins * 60 + inject_Z secs
            + inject_Z (digitValue a * 100 + digitValue b * 10
                        + digitValue c) / 1000) /\
  (exists e, AppJs.parseLrcLyrics "[00:01.50]Hello" = Done [e] /\
     time e == 1.5 /\ ~ time e == 1.05 /\ text e = "Hello").
Proof.
  split; [ | split].
  - intros g1 g2 mins secs a b H1 H2 Ha Hb. unfold tagTime.
    rewrite H1, H2, (parseInt_two_digits_padded a b Ha Hb).
    eexists. split; reflexivity.
  - intros g1 g2 mins secs a b c H1 H2 Ha Hb Hc. unfold tagTime.
    rewrite H1, H2, (parseInt_three_digits_padded a b c Ha Hb Hc).
    eexists. split; reflexivity.
  - eexists. split; [vm_compute; reflexivity | ].
    split; [reflexivity | ]. split; [ | reflexivity].
    cbn. intros H. vm_compute in H. discriminate.
Qed.

Lemma fraction_padded_to_milliseconds_witness :
  exists t, tagTime "00" "01" "50" = Some t /\ t == 1.5.
Proof.
  destruct (proj1 fraction_padded_to_milliseconds "00" "01" 0%Z 1%Z
              "5"%char "0"%char eq_refl eq_refl eq_refl eq_refl)
    as [t [Ht Hv]].
  exists t. split; [exact Ht | ]. rewrite Hv. reflexivity.
Defined.

(** C7 on src/unnamed/part_001: parseLRC of "[00:01.00][00:05.00]Chorus"
    is one event, at 1 s, whose text is "[00:05.00]Chorus": the second tag
    is not read as a tag. *)
Theorem parseLRC_second_tag_is_text :
  exists e, Pro.parseLRC "[00:01.00][00:05.00]Chorus" = Done [e] /\
    time e == 1 /\ text e = "[00:05.00]Chorus".
Proof.
  eexists. split; [vm_compute; reflexivity | ]. split; reflexivity.
Qed.

(** The same line in src/app.js: two events, at 1 s and 5 s, both with the
    text "Chorus". *)
Lemma parseLrcLyrics_two_tags :
  exists e1 e2,
    AppJs.parseLrcLyrics "[00:01.00][00:05.00]Chorus" = Done [e1; e2] /\
    time e1 == 1 /\ time e2 == 5 /\
    text e1 = "Chorus" /\ text e2 = "Chorus".
Proof.
  do 2 eexists. split; [vm_compute; reflexivity | ].
  repeat split; reflexivity.
Qed.

End Parsers.

(** ** The lyric lookup *)

Section Lookup.

Lemma increasing_nth (ls : list LyricEvent) :
  increasing ls ->
  forall i j a b, (i < j)%nat ->
    nth_error ls i = Some a -> nth_error ls j = Some b -> time a < time b.
Proof.
  induction 1 as [ | x l Hl IH Hx]; intros i j a b Hij Ha Hb.
  - destruct i; discriminate.
  - destruct j as [ | j]; [lia | ]. cbn in Hb.
    destruct i as [ | i]; cbn in Ha.
    + injection Ha as <-. rewrite Forall_forall in Hx.
      apply Hx. eapply nth_error_In; eassumption.
    + apply (IH i j); auto. lia.
Qed.

(** The backward scan stops at the highest index, below [n], whose time is
    not after the query. *)
Lemma lineScan_hit (ls : list LyricEvent) (q : Q) (n i : nat) (ev : LyricEvent) :
  (i < n)%nat -> (n <= List.length ls)%nat ->
  nth_error ls i = Some ev -> time ev <= q ->
  (forall j e, (i < j < n)%nat -> nth_error ls j = Some e -> q < time e) ->
  AppJs.lineScan ls q n = Some (Z.of_nat i).
Proof.
  induction n as [ | n IH]; intros Hi Hn Hev Hle Hlater; [lia | ].
  cbn. destruct (Nat.eq_dec i n) as [-> | Hne].
  - rewrite Hev. rewrite (proj2 (Qle_bool_iff _ _) Hle). reflexivity.
  - destruct (nth_error ls n) as [e | ] eqn:He.
    + assert (Hq : q < time e) by (apply (Hlater n); [lia | exact He]).
      destruct (Qle_bool (time e) q) eqn:Hb.
      * apply Qle_bool_iff in Hb. exfalso.
        apply (Qlt_irrefl q). eapply Qlt_le_trans; eassumption.
      * apply IH; auto; try lia. intros j e' Hj. apply Hlater. lia.
    + apply nth_error_None in He. lia.
Qed.

Lemma lineScan_miss (ls : list LyricEvent) (q : Q) (n : nat) :
  (n <= List.length ls)%nat ->
  (forall j e, (j < n)%nat -> nth_error ls j = Some e -> q < time e) ->
  AppJs.lineScan ls q n = Some (-1)%Z.
Proof.
  induction n as [ | n IH]; intros Hn Hall; [reflexivity | ].
  cbn. destruct (nth_error ls n) as [e | ] eqn:He.
  - assert (Hq : q < time e) by (apply (Hall n); [lia | exact He]).
    destruct (Qle_bool (time e) q) eqn:Hb.
    + apply Qle_bool_iff in Hb. exfalso.
      apply (Qlt_irrefl q). eapply Qlt_le_trans; eassumption.
    + apply IH; [lia | ]. intros j e' Hj. apply Hall. lia.
  - apply nth_error_None in He. lia.
Qed.

(** The scan never reads past the array. *)
Lemma lineScan_defined (ls : list LyricEvent) (q : Q) (n : nat) :
  (n <= List.length ls)%nat -> exists idx, AppJs.lineScan ls q n = Some idx.
Proof.
  induction n as [ | n IH]; intros Hn; cbn; [eauto | ].
  destruct (nth_error ls n) as [e | ] eqn:He.
  - destruct (Qle_bool (time e) q); [eauto | apply IH; lia].
  - apply nth_error_None in He. lia.
Qed.

(** src/app.js: the scan computes the index of the specification. *)
Lemma newLineIndex_exact (ls : list LyricEvent) (q : Q) :
  increasing ls -> lookup_exact AppJs.newLineIndex ls q.
Proof.
  intros Hs. unfold lookup_exact, AppJs.newLineIndex.
  destruct (lineScan_defined ls q (List.length ls) (le_n _)) as [idx Hidx].
  exists idx. split; [exact Hidx | ].
  assert (Hnth : forall k t, nth_error (map time ls) k = Some t ->
            exists e, nth_error ls k = Some e /\ time e = t).
  { intros k t Hk. rewrite nth_error_map in Hk.
    destruct (nth_error ls k) as [e | ]; [ | discriminate].
    injection Hk as <-. eauto. }
  repeat split.
  - intros t0 H0 Hq. apply Hnth in H0 as [e0 [H0 <-]].
    rewrite lineScan_miss in Hidx; [congruence | lia | ].
    intros j e _ Hj. destruct j as [ | j].
    + rewrite H0 in Hj. now injection Hj as <-.
    + eapply Qlt_trans; [exact Hq | ].
      apply (increasing_nth ls Hs 0 (S j)); auto. lia.
  - intros i ti tj Hi Hj Hle Hlt.
    apply Hnth in Hi as [ei [Hi <-]]. apply Hnth in Hj as [ej [Hj <-]].
    rewrite (lineScan_hit ls q _ i ei) in Hidx; auto; [congruence | | ].
    + apply nth_error_Some. congruence.
    + intros k e Hk He. destruct (Nat.eq_dec k (S i)) as [-> | Hne].
      * rewrite Hj in He. now injection He as <-.
      * eapply Qlt_trans; [exact Hlt | ].
        apply (increasing_nth ls Hs (S i) k); auto. lia.
  - intros n tn Hn Hlen Hle. apply Hnth in Hn as [en [Hn <-]].
    rewrite length_map in Hlen.
    rewrite (lineScan_hit ls q _ n en) in Hidx; auto; [congruence | lia | ].
    intros k e Hk. lia.
Qed.

Lemma pro_lineScan_earlier (ls : list LyricEvent) (q : Q) (n : nat) :
  Pro.lineScan ls q n = AppJs.lineScan (map earlier ls) q n.
Proof.
  induction n as [ | n IH]; [reflexivity | ]. cbn.
  rewrite nth_error_map. destruct (nth_error ls n) as [e | ]; cbn; [ | reflexivity].
  now rewrite IH.
Qed.

Lemma increasing_earlier (ls : list LyricEvent) :
  increasing ls -> increasing (map earlier ls).
Proof.
  induction 1 as [ | x l Hl IH Hx]; cbn; constructor; auto.
  rewrite Forall_forall in *. intros y Hy.
  apply in_map_iff in Hy as [z [<- Hz]]. cbn.
  specialize (Hx z Hz). lra.
Qed.

Lemma newLine_early (ls : list LyricEvent) (q : Q) :
  increasing ls -> lookup_early Pro.newLine ls q.
Proof.
  intros Hs.
  destruct (newLineIndex_exact (map earlier ls) q (increasing_earlier ls Hs))
    as [idx [Hidx Hspec]].
  exists idx. split.
  - unfold Pro.newLine. rewrite pro_lineScan_earlier.
    unfold AppJs.newLineIndex in Hidx. now rewrite length_map in Hidx.
  - now rewrite map_map in Hspec.
Qed.

(** C1 (as the code has it): on a track with strictly increasing times the
    scan of src/app.js computes -1 below t0, i on [ti, t(i+1)) and n from tn
    on; the scan of src/unnamed/part_001 computes the same index with every
    threshold lowered by 0.1 s. *)
Theorem lyric_lookup_thresholds (ls : list LyricEvent) (q : Q) :
  increasing ls ->
  lookup_exact AppJs.newLineIndex ls q /\ lookup_early Pro.newLine ls q.
Proof.
  intros Hs. split; [now apply newLineIndex_exact | now apply newLine_early].
Qed.

Lemma track_abc_increasing : increasing track_abc.
Proof.
  unfold increasing, track_abc.
  repeat (constructor; cbn [time]); reflexivity.
Qed.

Lemma lyric_lookup_thresholds_witness :
  increasing track_abc /\
  lookup_exact AppJs.newLineIndex track_abc 3.2 /\
  lookup_early Pro.newLine track_abc 3.2.
Proof.
  split; [exact track_abc_increasing | ].
  apply (lyric_lookup_thresholds track_abc 3.2). exact track_abc_increasing.
Defined.

(** C1 fails as stated for src/unnamed/part_001: with one event at 1 s the
    query 0.95 s precedes the first event, and the scan answers 0, not -1. *)
Lemma lyric_lookup_counterexample :
  ~ lookup_exact Pro.newLine [ {| time := 1; text := "a" |} ] 0.95.
Proof.
  intros [idx [Hidx [Hfirst _]]].
  vm_compute in Hidx. injection Hidx as <-.
  specialize (Hfirst 1 eq_refl eq_refl). discriminate.
Qed.

(** The index computed is the one stored in [currentLineIndex]. *)
Lemma syncLyricsToTime_index (q : Q) (st : AppJs.State) :
  AppJs.hasSyncedLyrics st = true -> AppJs.syncedLyrics st <> [] ->
  exists st' idx,
    AppJs.syncLyricsToTime q st = Some st' /\
    AppJs.newLineIndex (AppJs.syncedLyrics st) q = Some idx /\
    AppJs.currentLineIndex st' = idx.
Proof.
  intros Hhas Hne. unfold AppJs.syncLyricsToTime. rewrite Hhas.
  destruct (AppJs.syncedLyrics st) as [ | e l] eqn:Hl; [congruence | ].
  cbn [negb orb List.length Nat.eqb].
  destruct (lineScan_defined (e :: l) q _ (le_n _)) as [idx Hidx].
  unfold AppJs.newLineIndex. rewrite Hidx.
  destruct (idx =? AppJs.currentLineIndex st)%Z eqn:Heq; cbn [negb].
  - exists st, idx. apply Z.eqb_eq in Heq. auto.
  - exists (AppJs.set_currentLine idx st), idx. auto.
Qed.

Lemma syncLyricsToTime_progressFill (q : Q) (st st' : AppJs.State) :
  AppJs.syncLyricsToTime q st = Some st' ->
  AppJs.progressFill st' = AppJs.progressFill st.
Proof.
  unfold AppJs.syncLyricsToTime.
  destruct (negb _ || _); [now intros [= <-] | ].
  destruct (AppJs.newLineIndex _ _) as [i | ]; [ | discriminate].
  destruct (negb _); now intros [= <-].
Qed.

Lemma syncLyricsToTime_defined (q : Q) (st : AppJs.State) :
  exists st', AppJs.syncLyricsToTime q st = Some st'.
Proof.
  unfold AppJs.syncLyricsToTime.
  destruct (negb _ || _); [eauto | ].
  destruct (lineScan_defined (AppJs.syncedLyrics st) q _ (le_n _)) as [i Hi].
  unfold AppJs.newLineIndex. rewrite Hi. destruct (negb _); eauto.
Qed.

Lemma syncLyrics_progressFill (q : Q) (a a' : Pro.App) :
  Pro.syncLyrics q a = Some a' -> Pro.progressFill a' = Pro.progressFill a.
Proof.
  unfold Pro.syncLyrics.
  destruct (Pro.lyrics a) as [l | ]; [ | now intros [= <-]].
  destruct (Pro.newLine _ _) as [i | ]; [ | discriminate].
  destruct (negb _); now intros [= <-].
Qed.

Lemma syncLyrics_defined (q : Q) (a : Pro.App) :
  exists a', Pro.syncLyrics q a = Some a'.
Proof.
  unfold Pro.syncLyrics.
  destruct (Pro.lyrics a) as [l | ]; [ | eauto].
  unfold Pro.newLine. rewrite pro_lineScan_earlier.
  destruct (lineScan_defined (map earlier (Pro.lines l)) q
              (List.length (Pro.lines l))) as [i Hi].
  { now rewrite length_map. }
  rewrite Hi. destruct (negb _); eauto.
Qed.

End Lookup.

(** ** The progress computation *)

Section Progress.

Lemma percent_finite (t d : Q) :
  ~ d == 0 ->
  JS.mul (JS.div (JS.Fin t) (JS.Fin d)) (JS.Fin 100) = JS.Fin (t / d * 100).
Proof.
  intros Hd. unfold JS.div, JS.is_zero.
  destruct (Qeq_bool d 0) eqn:Hz; [ | reflexivity].
  apply Qeq_bool_iff in Hz. contradiction.
Qed.

Lemma percent_written (t : Q) (dur : JS.jsnum) :
  progress_written t dur (JS.mul (JS.div (JS.Fin t) dur) (JS.Fin 100)).
Proof.
  assert (Hzero : forall d, d == 0 ->
            (t == 0 ->
             JS.mul (JS.div (JS.Fin t) (JS.Fin d)) (JS.Fin 100) = JS.NaN) /\
            (0 < t ->
             JS.mul (JS.div (JS.Fin t) (JS.Fin d)) (JS.Fin 100) = JS.PosInf) /\
            (t < 0 ->
             JS.mul (JS.div (JS.Fin t) (JS.Fin d)) (JS.Fin 100) = JS.NegInf)).
  { intros d Hd. unfold JS.div, JS.is_zero, JS.is_neg.
    apply Qeq_bool_iff in Hd. rewrite Hd.
    destruct (Qeq_bool t 0) eqn:Ht0.
    - apply Qeq_bool_iff in Ht0.
      split; [reflexivity | split; intros Ht; rewrite Ht0 in Ht;
                            exfalso; revert Ht; apply Qlt_irrefl].
    - apply Qeq_bool_neq in Ht0.
      destruct (Qle_bool 0 t) eqn:Hle; cbn [negb].
      + apply Qle_bool_iff in Hle.
        split; [contradiction | split; [reflexivity | ]].
        intros Ht. exfalso. apply (Qlt_irrefl t).
        eapply Qlt_le_trans; eassumption.
      + split; [contradiction | split; [ | reflexivity]].
        intros Ht. apply Qlt_le_weak, Qle_bool_iff in Ht. congruence. }
  split; [ | split; [ | split]].
  - intros d -> Hd. now apply percent_finite.
  - intros d -> Hd. exact (Hzero d Hd).
  - intros ->. reflexivity.
  - intros [-> | [d [-> Hd]]]; [reflexivity | ].
    destruct (Hzero d Hd) as [H0 [Hpos Hneg]].
    destruct (Q_dec t 0) as [[Ht | Ht] | Ht].
    + now rewrite (Hneg Ht).
    + now rewrite (Hpos Ht).
    + now rewrite (H0 Ht).
Qed.

(** C5 (as the code has it): every tick of either loop that finds a player
    divides the position by the reported duration without testing it and
    writes the result to the progress display: the finite number
    time / duration * 100 for a finite duration that is not zero; for a
    duration of zero NaN at position zero, +Infinity at a positive position
    and -Infinity at a negative one; NaN for a duration that is NaN.  No
    such tick is skipped and nothing is clamped, so for a duration that is
    zero or NaN the number written is never finite. *)
Theorem progress_written_on_every_tick (p : Player) :
  (forall st, AppJs.player st = Some p ->
     exists st', AppJs.updateProgress st = Some st' /\
       progress_written (getCurrentTime p) (getDuration p)
         (AppJs.progressFill st')) /\
  (forall a, Pro.player a = Some p ->
     exists a', Pro.syncFrame a = Some a' /\
       progress_written (Pro.getAccurateTime (Pro.syncEngine a))
         (getDuration p) (Pro.progressFill a')).
Proof.
  split.
  - intros st Hp. unfold AppJs.updateProgress. rewrite Hp.
    cbn zeta.
    destruct (AppJs.hasSyncedLyrics _).
    + match goal with |- context [AppJs.syncLyricsToTime ?q ?s] =>
        destruct (syncLyricsToTime_defined q s) as [st' Hst'] end.
      exists st'. split; [exact Hst' | ].
      rewrite (syncLyricsToTime_progressFill _ _ _ Hst').
      apply percent_written.
    + eexists. split; [reflexivity | apply percent_written].
  - intros a Hp. unfold Pro.syncFrame. rewrite Hp.
    cbn zeta.
    match goal with |- context [Pro.syncLyrics ?q ?s] =>
      destruct (syncLyrics_defined q s) as [a' Ha'] end.
    exists a'. split; [exact Ha' | ].
    rewrite (syncLyrics_progressFill _ _ _ Ha').
    apply percent_written.
Qed.

Lemma progress_written_on_every_tick_witness :
  (exists st', AppJs.updateProgress
                 {| AppJs.player := Some player_quarter;
                    AppJs.syncedLyrics := track_abc;
                    AppJs.hasSyncedLyrics := true;
                    AppJs.currentLineIndex := (-1)%Z;
                    AppJs.progressFill := JS.Fin 0;
                    AppJs.highlighted := [] |} = Some st' /\
     AppJs.progressFill st' = JS.Fin (50 / 200 * 100)) /\
  (exists a', Pro.syncFrame pro_loading = Some a' /\
     JS.is_finite (Pro.progressFill a') = false).
Proof.
  assert (Hd : ~ 200 == 0) by (intros H; vm_compute in H; discriminate).
  split.
  - destruct (proj1 (progress_written_on_every_tick player_quarter)
                {| AppJs.player := Some player_quarter;
                   AppJs.syncedLyrics := track_abc;
                   AppJs.hasSyncedLyrics := true;
                   AppJs.currentLineIndex := (-1)%Z;
                   AppJs.progressFill := JS.Fin 0;
                   AppJs.highlighted := [] |} eq_refl)
      as [st' [Hst' Hw]].
    exists st'. split; [exact Hst' | ].
    exact (proj1 Hw 200 eq_refl Hd).
  - destruct (proj2 (progress_written_on_every_tick player_loading)
                pro_loading eq_refl) as [a' [Ha' Hw]].
    exists a'. split; [exact Ha' | ].
    apply (proj2 (proj2 (proj2 Hw))). right. exists 0. split; reflexivity.
Defined.

(** C5 fails as stated: while the player reports a duration of 0 at
    position 0, both loops write NaN to the progress display. *)
Lemma progress_nan_counterexample :
  ~ progress_clean
      (option_map AppJs.progressFill (AppJs.updateProgress appjs_loading)) /\
  ~ progress_clean
      (option_map Pro.progressFill (Pro.syncFrame pro_loading)).
Proof.
  split; intros [x [Hx Hfin]]; vm_compute in Hx;
    injection Hx as <-; discriminate.
Qed.

Lemma progress_nan_written :
  option_map AppJs.progressFill (AppJs.updateProgress appjs_loading)
  = Some JS.NaN /\
  option_map Pro.progressFill (Pro.syncFrame pro_loading) = Some JS.NaN.
Proof. split; reflexivity. Qed.

End Progress.

(** ** The audio sync engine *)

Section Engine.
Import Pro.

Lemma correctDrift_small (v s : Q) (e : AudioSyncEngine) :
  Qabs (v - s) <= 0.2 -> correctDrift v s e = e.
Proof.
  intros Hle. unfold correctDrift.
  destruct (Qlt_le_dec 0.2 (Qabs (v - s))) as [Hlt | _]; [ | reflexivity].
  exfalso. apply (Qlt_irrefl 0.2). eapply Qlt_le_trans; eassumption.
Qed.

Lemma correctDrift_large (v s : Q) (e : AudioSyncEngine) :
  0.2 < Qabs (v - s) ->
  driftCorrection (correctDrift v s e) = driftCorrection e + (v - s) * 0.3.
Proof.
  intros Hlt. unfold correctDrift.
  destruct (Qlt_le_dec 0.2 (Qabs (v - s))) as [_ | Hle]; [reflexivity | ].
  exfalso. apply (Qlt_irrefl 0.2). eapply Qlt_le_trans; eassumption.
Qed.

(** C2: correctDrift leaves driftCorrection as it is when the absolute
    difference of the two times is at most 0.2, and otherwise changes it by
    exactly 0.3 times the difference (authoritative minus estimated). *)
Theorem correctDrift_spec (authoritative estimated : Q) (e : AudioSyncEngine) :
  (Qabs (authoritative - estimated) <= 0.2 ->
   driftCorrection (correctDrift authoritative estimated e)
   = driftCorrection e)
  /\
  (~ Qabs (authoritative - estimated) <= 0.2 ->
   driftCorrection (correctDrift authoritative estimated e)
   - driftCorrection e == 0.3 * (authoritative - estimated)).
Proof.
  split.
  - intros Hle. now rewrite correctDrift_small.
  - intros Hgt. rewrite correctDrift_large by now apply Qnot_le_lt. ring.
Qed.

Lemma correctDrift_spec_witness :
  (Qabs (5 - 4.9) <= 0.2 /\
   driftCorrection (correctDrift 5 4.9 new_engine) == 0)
  /\
  (~ Qabs (5 - 4) <= 0.2 /\
   driftCorrection (correctDrift 5 4 new_engine) - 0 == 0.3 * (5 - 4)).
Proof.
  split; split.
  - vm_compute. discriminate.
  - rewrite (proj1 (correctDrift_spec 5 4.9 new_engine)).
    + reflexivity.
    + vm_compute. discriminate.
  - vm_compute. intros H. now apply H.
  - apply (proj2 (correctDrift_spec 5 4 new_engine)).
    vm_compute. intros H. now apply H.
Defined.

(** C10: correctDrift changes at most driftCorrection: the audio context,
    startTime and pausedTime are the same after every call. *)
Theorem correctDrift_frame (videoTime syncedTime : Q) (e : AudioSyncEngine) :
  startTime (correctDrift videoTime syncedTime e) = startTime e /\
  pausedTime (correctDrift videoTime syncedTime e) = pausedTime e /\
  audioContext (correctDrift videoTime syncedTime e) = audioContext e.
Proof.
  unfold correctDrift.
  destruct (Qlt_le_dec 0.2 (Qabs (videoTime - syncedTime))); cbn; auto.
Qed.

Lemma engine_ready_reached : start 0 (init new_engine) = Some engine_ready.
Proof. reflexivity. Qed.

(** The estimate right after [start(T)], in every state with a context. *)
Lemma start_estimate (e : AudioSyncEngine) (T : Q) (ctx : AudioContext) :
  audioContext e = Some ctx ->
  exists e', start T e = Some e' /\
    getAccurateTime e' == Qmax 0 (T + pausedTime e + driftCorrection e).
Proof.
  intros Hctx. unfold start. rewrite Hctx. eexists. split; [reflexivity | ].
  unfold getAccurateTime; cbn.
  apply Q.max_compat; [reflexivity | ring].
Qed.

Lemma start_without_context (e : AudioSyncEngine) (T : Q) :
  audioContext e = None -> start T e = None.
Proof. intros H. unfold start. now rewrite H. Qed.

(** C3 (as the code has it): with a context and no recorded pause position,
    the estimate right after start(T) is max(0, T + driftCorrection); it is
    T when T is not negative and driftCorrection is 0. *)
Theorem start_anchors_estimate (e : AudioSyncEngine) (T : Q)
    (ctx : AudioContext) :
  audioContext e = Some ctx ->
  pausedTime e == 0 ->
  exists e', start T e = Some e' /\
    getAccurateTime e' == Qmax 0 (T + driftCorrection e) /\
    (0 <= T -> driftCorrection e == 0 -> getAccurateTime e' == T).
Proof.
  intros Hctx Hp.
  destruct (start_estimate e T ctx Hctx) as [e' [Hs He]].
  exists e'. split; [exact Hs | ]. split.
  - rewrite He. apply Q.max_compat; [reflexivity | ]. rewrite Hp. ring.
  - intros HT Hd. rewrite He, Hp, Hd.
    rewrite Q.max_r; [ring | ]. lra.
Qed.

Lemma start_anchors_estimate_witness :
  exists e', start 4 engine_playing = Some e' /\
    getAccurateTime e' == Qmax 0 (4 + 0) /\
    (0 <= 4 -> 0 == 0 -> getAccurateTime e' == 4).
Proof.
  apply (start_anchors_estimate engine_playing 4 {| currentTime := 0 + 5 |}).
  - reflexivity.
  - reflexivity.
Defined.

(** C3 fails as stated: with a drift correction of 0.3 in place, the
    estimate right after start(4) is 4.3. *)
Lemma start_anchors_counterexample : ~ start_anchors_at engine_drifted 4.
Proof.
  intros [e' [Hs He]]. vm_compute in Hs. injection Hs as <-.
  vm_compute in He. discriminate.
Qed.

(** The estimate after [pause(T)], however far the context's clock went. *)
Lemma pause_estimate (e : AudioSyncEngine) (T dt : Q) (ctx : AudioContext) :
  audioContext e = Some ctx ->
  getAccurateTime (elapse dt (pause T e))
  == Qmax 0 (currentTime ctx + dt - startTime e + T + driftCorrection e).
Proof.
  intros Hctx. unfold getAccurateTime, elapse, pause; cbn. rewrite Hctx; cbn.
  reflexivity.
Qed.

(** C4 (as the code has it): pause(T) stores T in pausedTime and leaves
    startTime and driftCorrection alone; the stored position stays T while
    the context's clock advances, but the estimate does not: at context time
    c + dt it is max(0, c + dt - startTime + T + driftCorrection), so above
    the floor it advances by dt. *)
Theorem pause_records_position (e : AudioSyncEngine) (T dt : Q)
    (ctx : AudioContext) :
  audioContext e = Some ctx ->
  pausedTime (elapse dt (pause T e)) = T /\
  startTime (elapse dt (pause T e)) = startTime e /\
  driftCorrection (elapse dt (pause T e)) = driftCorrection e /\
  getAccurateTime (elapse dt (pause T e))
  == Qmax 0 (currentTime ctx + dt - startTime e + T + driftCorrection e) /\
  (0 <= currentTime ctx - startTime e + T + driftCorrection e ->
   0 <= dt ->
   getAccurateTime (elapse dt (pause T e))
   == getAccurateTime (elapse 0 (pause T e)) + dt).
Proof.
  intros Hctx. repeat split.
  - now apply pause_estimate.
  - intros Hraw Hdt. rewrite !(pause_estimate e T _ ctx Hctx).
    rewrite !Q.max_r by lra. ring.
Qed.

Lemma pause_records_position_witness :
  pausedTime (elapse 1 (pause 5 engine_playing)) = 5 /\
  getAccurateTime (elapse 1 (pause 5 engine_playing)) == 11.
Proof.
  destruct (pause_records_position engine_playing 5 1
              {| currentTime := 0 + 5 |} eq_refl)
    as [Hp [_ [_ [He _]]]].
  split; [exact Hp | ]. rewrite He. reflexivity.
Defined.

(** C4 fails as stated: five seconds into playback, after pause(5), the
    estimate is 10 and one second later it is 11. *)
Lemma pause_freezes_counterexample : ~ pause_freezes_at engine_playing 5 1.
Proof. unfold pause_freezes_at. vm_compute. discriminate. Qed.

End Engine.

(** * Further properties of the scripts *)

(** ** The events the parsers return *)

Section Events.
Import JS.
Local Open Scope string_scope.

Lemma trimStart_fixed (s : string) :
  match s with String c _ => isWhiteSpace c = false | "" => True end ->
  trimStart s = s.
Proof. destruct s as [ | c s]; cbn; [reflexivity | now intros ->]. Qed.

Lemma trimStart_head (s : string) :
  match trimStart s with
  | String c _ => isWhiteSpace c = false
  | "" => True
  end.
Proof.
  induction s as [ | c s IH]; cbn; [exact I | ].
  destruct (isWhiteSpace c) eqn:Hc; [exact IH | exact Hc].
Qed.

Lemma trimEnd_head (s : string) :
  match s with String c _ => isWhiteSpace c = false | "" => True end ->
  match trimEnd s with
  | String c _ => isWhiteSpace c = false
  | "" => True
  end.
Proof.
  destruct s as [ | c s]; cbn; [auto | ]. intros Hc.
  destruct (trimEnd s); [now rewrite Hc | exact Hc].
Qed.

Lemma trimEnd_cons (c : ascii) (s : string) :
  trimEnd (String c s)
  = match trimEnd s with
    | "" => if isWhiteSpace c then "" else String c ""
    | r => String c r
    end.
Proof. reflexivity. Qed.

Lemma trimEnd_idem (s : string) : trimEnd (trimEnd s) = trimEnd s.
Proof.
  induction s as [ | c s IH]; [reflexivity | ].
  rewrite trimEnd_cons.
  destruct (trimEnd s) as [ | d r] eqn:Hr.
  - destruct (isWhiteSpace c) eqn:Hc; [reflexivity | ].
    rewrite trimEnd_cons. cbn. now rewrite Hc.
  - rewrite trimEnd_cons. now rewrite IH.
Qed.

(** [trim] leaves a trimmed string as it is. *)
Lemma trim_idem (s : string) : trim (trim s) = trim s.
Proof.
  unfold trim.
  rewrite (trimStart_fixed (trimEnd (trimStart s))).
  - apply trimEnd_idem.
  - apply trimEnd_head, trimStart_head.
Qed.

Lemma storedText_trim (s : string) :
  truthy (trim s) = true -> storedText (trim s).
Proof. intros H. split; [exact H | apply trim_idem]. Qed.

Lemma digitValue_range (c : ascii) :
  isDigit c = true -> (0 <= digitValue c <= 9)%Z.
Proof.
  unfold isDigit, digitValue. cbv zeta. intros H.
  apply andb_true_iff in H as [H1 H2].
  apply Nat.leb_le in H1. apply Nat.leb_le in H2. lia.
Qed.

Lemma digitsValue_range (s : string) :
  forall acc, (0 <= acc)%Z ->
    (0 <= digitsValue acc s
     < (acc + 1) * 10 ^ Z.of_nat (String.length s))%Z.
Proof.
  induction s as [ | c s IH]; intros acc Hacc.
  - cbn. lia.
  - cbn [digitsValue String.length]. rewrite Nat2Z.inj_succ, Z.pow_succ_r by lia.
    assert (Hpow : (0 < 10 ^ Z.of_nat (String.length s))%Z)
      by (apply Z.pow_pos_nonneg; lia).
    destruct (isDigit c) eqn:Hc.
    + pose proof (digitValue_range c Hc) as Hd.
      destruct (IH (acc * 10 + digitValue c)%Z) as [Hlo Hhi]; [lia | ].
      split; [exact Hlo | ]. nia.
    + nia.
Qed.

Lemma parseInt_range (s : string) (z : Z) :
  parseInt s = Some z -> (0 <= z < 10 ^ Z.of_nat (String.length s))%Z.
Proof.
  unfold parseInt. destruct s as [ | c s]; [discriminate | ].
  destruct (isDigit c); [ | discriminate]. intros [= <-].
  pose proof (digitsValue_range (String c s) 0 ltac:(lia)) as H.
  rewrite Z.add_0_l, Z.mul_1_l in H. exact H.
Qed.

Lemma length_repeatChar (c : ascii) (n : nat) :
  String.length (repeatChar c n) = n.
Proof. induction n as [ | n IH]; cbn; [reflexivity | now rewrite IH]. Qed.

Lemma time_expression_range (mins secs ms : Q) :
  (0 <= mins <= 99)%Q -> (0 <= secs <= 99)%Q -> (0 <= ms <= 999)%Q ->
  (0 <= mins * 60 + secs + ms / 1000 <= 6039.999)%Q.
Proof.
  intros H1 H2 H3. unfold Qdiv.
  assert (Hinv : / 1000 == 1 # 1000) by reflexivity.
  rewrite Hinv. split; lra.
Qed.

(** The time of a tag with at most two digits of minutes, two of seconds
    and three of fraction. *)
Lemma tagTime_range (g1 g2 g3 : string) (t : Q) :
  (String.length g1 <= 2)%nat -> (String.length g2 <= 2)%nat ->
  (String.length g3 <= 3)%nat ->
  tagTime g1 g2 g3 = Some t -> tagTimeRange t.
Proof.
  intros L1 L2 L3. unfold tagTime.
  destruct (parseInt g1) as [a | ] eqn:Ha; [ | discriminate].
  destruct (parseInt g2) as [b | ] eqn:Hb; [ | discriminate].
  destruct (parseInt (padEnd 3 "0" g3)) as [c | ] eqn:Hc; [ | discriminate].
  intros [= <-].
  apply parseInt_range in Ha, Hb, Hc.
  assert (Hlen : String.length (padEnd 3 "0" g3) = 3%nat).
  { unfold padEnd. rewrite length_append, length_repeatChar. lia. }
  rewrite Hlen in Hc.
  assert (Ha' : (0 <= a <= 99)%Z).
  { assert ((10 ^ Z.of_nat (String.length g1) <= 10 ^ 2)%Z)
      by (apply Z.pow_le_mono_r; lia). lia. }
  assert (Hb' : (0 <= b <= 99)%Z).
  { assert ((10 ^ Z.of_nat (String.length g2) <= 10 ^ 2)%Z)
      by (apply Z.pow_le_mono_r; lia). lia. }
  assert (Hc' : (0 <= c <= 999)%Z) by (cbn in Hc; lia).
  unfold tagTimeRange, maxTagTime.
  assert (Qa : (0 <= inject_Z a <= 99)%Q).
  { split; [change 0%Q with (inject_Z 0) | change 99%Q with (inject_Z 99)];
      rewrite <- Zle_Qle; lia. }
  assert (Qb : (0 <= inject_Z b <= 99)%Q).
  { split; [change 0%Q with (inject_Z 0) | change 99%Q with (inject_Z 99)];
      rewrite <- Zle_Qle; lia. }
  assert (Qc : (0 <= inject_Z c <= 999)%Q).
  { split; [change 0%Q with (inject_Z 0) | change 999%Q with (inject_Z 999)];
      rewrite <- Zle_Qle; lia. }
  apply time_expression_range; assumption.
Qed.

Lemma matchTime_lengths (s g1 g2 g3 r : string) :
  AppJs.matchTime s = Some (g1, g2, g3, r) ->
  String.length g1 = 2%nat /\ String.length g2 = 2%nat /\
  (2 <= String.length g3 <= 3)%nat.
Proof.
  unfold AppJs.matchTime.
  destruct (lit "[" s) as [s1 | ]; [ | discriminate].
  destruct (digits 2 s1) as [[a s2] | ] eqn:H2; [ | discriminate].
  destruct (lit ":" s2) as [s3 | ]; [ | discriminate].
  destruct (digits 2 s3) as [[b s4] | ] eqn:H4; [ | discriminate].
  destruct (lit "." s4) as [s5 | ]; [ | discriminate].
  destruct (fraction s5) as [[c s6] | ] eqn:H6; [ | discriminate].
  intros [= <- <- <- <-].
  destruct (digits_inv _ _ _ _ H2) as [_ [Ha _]].
  destruct (digits_inv _ _ _ _ H4) as [_ [Hb _]].
  destruct (fraction_inv _ _ _ H6) as [_ [_ Hc]]. auto.
Qed.

Lemma search_time (s : string) (i : nat) (m : AppJs.RegExpMatch) (t : Q) :
  AppJs.search s i = Some m ->
  tagTime (AppJs.m1 m) (AppJs.m2 m) (AppJs.m3 m) = Some t -> tagTimeRange t.
Proof.
  revert i. induction s as [ | c s IH]; intros i; cbn [AppJs.search].
  - cbn. discriminate.
  - destruct (AppJs.matchTime (String c s)) as [[[[g1 g2] g3] r] | ] eqn:Hm.
    + intros [= <-]. cbn. destruct (matchTime_lengths _ _ _ _ _ Hm) as [L1 [L2 L3]].
      apply tagTime_range; lia.
    + apply IH.
Qed.

Lemma whileExec_times (line : string) (fuel : nat) :
  forall re ts li r,
    AppJs.whileExec fuel line re ts li = Done r ->
    Forall tagTimeRange ts -> Forall tagTimeRange (fst r).
Proof.
  induction fuel as [ | fuel IH]; intros re ts li r; [discriminate | ].
  cbn [AppJs.whileExec].
  destruct (AppJs.exec line re) as [m | ] eqn:Hm.
  - destruct (tagTime _ _ _) as [t | ] eqn:Ht; [ | discriminate].
    intros Hr Hts. apply (IH _ _ _ _ Hr).
    apply Forall_app. split; [exact Hts | ].
    constructor; [ | constructor]. unfold AppJs.exec in Hm.
    eapply search_time; eassumption.
  - now intros [= <-].
Qed.

Lemma pushEach_ok (txt : string) (ts : list Q) :
  (truthy txt = true -> storedText txt) -> Forall tagTimeRange ts ->
  forall parsed, Forall eventOk parsed ->
    Forall eventOk (AppJs.pushEach ts txt parsed).
Proof.
  intros Htxt Hts. induction Hts as [ | t ts Ht Hts IH]; intros parsed Hp;
    cbn [AppJs.pushEach]; [exact Hp | ].
  apply IH. destruct (truthy txt) eqn:Htr; [ | exact Hp].
  apply Forall_app. split; [exact Hp | ].
  constructor; [ | constructor]. split; cbn; auto.
Qed.

Lemma forLines_ok (fuel : nat) (lines : list string) :
  forall parsed r,
    AppJs.forLines fuel lines parsed = Done r ->
    Forall eventOk parsed -> Forall eventOk r.
Proof.
  induction lines as [ | line rest IH]; intros parsed r; cbn [AppJs.forLines].
  - now intros [= <-].
  - destruct (AppJs.whileExec fuel line 0 [] 0) as [[ts li] | | ] eqn:Hw;
      try discriminate.
    intros Hr Hp. apply (IH _ _ Hr).
    apply pushEach_ok; [apply storedText_trim | | exact Hp].
    apply (whileExec_times _ _ _ _ _ _ Hw). constructor.
Qed.

Lemma parseLrcLyrics_events_ok (lrcText : string) :
  exists events,
    AppJs.parseLrcLyrics lrcText = Done events /\ Forall eventOk events.
Proof.
  destruct (parsedEvents_total lrcText) as [parsed Hp].
  specialize (Hp (S (String.length lrcText)) ltac:(lia)).
  exists (sortByTime parsed). split.
  - unfold AppJs.parseLrcLyrics, AppJs.parseLrcLyrics_fuel. now rewrite Hp.
  - eapply Permutation_Forall; [apply sortByTime_perm | ].
    unfold AppJs.parsedEvents in Hp.
    apply (forLines_ok _ _ _ _ Hp). constructor.
Qed.

Lemma afterMinutes_lengths (s g2 g3 g4 r : string) :
  Pro.afterMinutes s = Some (g2, g3, g4, r) ->
  String.length g2 = 2%nat /\ (2 <= String.length g3 <= 3)%nat.
Proof.
  unfold Pro.afterMinutes.
  destruct (lit ":" s) as [s1 | ]; [ | discriminate].
  destruct (digits 2 s1) as [[b s2] | ] eqn:H2; [ | discriminate].
  destruct (lit "." s2) as [s3 | ]; [ | discriminate].
  destruct (fraction s3) as [[c s4] | ] eqn:H4; [ | discriminate].
  destruct (dotStar s4) as [d rest].
  intros [= <- <- <- <-].
  destruct (digits_inv _ _ _ _ H2) as [_ [Hb _]].
  destruct (fraction_inv _ _ _ H4) as [_ [_ Hc]]. auto.
Qed.

Lemma matchLine_lengths (s g1 g2 g3 g4 r : string) :
  Pro.matchLine s = Some (g1, (g2, g3, g4, r)) ->
  (String.length g1 <= 2)%nat /\ String.length g2 = 2%nat /\
  (2 <= String.length g3 <= 3)%nat.
Proof.
  unfold Pro.matchLine.
  destruct (lit "[" s) as [s1 | ]; [ | discriminate].
  assert (Hcase : forall n, (n <= 2)%nat ->
    match digits n s1 with
    | Some (g, s2) =>
        match Pro.afterMinutes s2 with
        | Some r0 => Some (g, r0)
        | None => None
        end
    | None => None
    end = Some (g1, (g2, g3, g4, r)) ->
    (String.length g1 <= 2)%nat /\ String.length g2 = 2%nat /\
    (2 <= String.length g3 <= 3)%nat).
  { intros n Hn.
    destruct (digits n s1) as [[g s2] | ] eqn:Hd; [ | discriminate].
    destruct (Pro.afterMinutes s2) as [[[[a b] c] d] | ] eqn:Ha;
      [ | discriminate].
    intros [= <- <- <- <- <-].
    destruct (digits_inv _ _ _ _ Hd) as [_ [Hg _]].
    destruct (afterMinutes_lengths _ _ _ _ _ Ha) as [Hb Hc].
    repeat split; lia. }
  destruct (match digits 2 s1 with Some _ => _ | None => _ end)
    as [r0 | ] eqn:H2.
  - intros [= ->]. apply (Hcase 2%nat); [lia | exact H2].
  - intros H. apply (Hcase 1%nat); [lia | exact H].
Qed.

Lemma pro_search_time (s : string) (i : nat) (m : Pro.RegExpMatch) (t : Q) :
  Pro.search s i = Some m ->
  tagTime (Pro.m1 m) (Pro.m2 m) (Pro.m3 m) = Some t -> tagTimeRange t.
Proof.
  revert i. induction s as [ | c s IH]; intros i; cbn [Pro.search].
  - cbn. discriminate.
  - destruct (Pro.matchLine (String c s)) as [[g1 [[[g2 g3] g4] r]] | ] eqn:Hm.
    + intros [= <-]. cbn.
      destruct (matchLine_lengths _ _ _ _ _ _ Hm) as [L1 [L2 L3]].
      apply tagTime_range; lia.
    + apply IH.
Qed.

Lemma pro_whileExec_ok (lrcText : string) (fuel : nat) :
  forall re ls r,
    Pro.whileExec fuel lrcText re ls = Done r ->
    Forall eventOk ls -> Forall eventOk r.
Proof.
  induction fuel as [ | fuel IH]; intros re ls r; [discriminate | ].
  cbn [Pro.whileExec].
  destruct (Pro.exec lrcText re) as [m | ] eqn:Hm.
  - destruct (tagTime _ _ _) as [t | ] eqn:Ht; [ | discriminate].
    intros Hr Hls. apply (IH _ _ _ Hr).
    destruct (truthy (trim (Pro.m4 m))) eqn:Htr; [ | exact Hls].
    apply Forall_app. split; [exact Hls | ].
    constructor; [ | constructor]. split; cbn.
    + now apply storedText_trim.
    + unfold Pro.exec in Hm. eapply pro_search_time; eassumption.
  - now intros [= <-].
Qed.

Lemma parseLRC_events_ok (lrcText : string) :
  exists events,
    Pro.parseLRC lrcText = Done events /\ Forall eventOk events.
Proof.
  destruct (matchedLines_total lrcText) as [ls Hl].
  specialize (Hl (S (String.length lrcText)) ltac:(lia)).
  exists (sortByTime ls). split.
  - unfold Pro.parseLRC, Pro.parseLRC_fuel. now rewrite Hl.
  - eapply Permutation_Forall; [apply sortByTime_perm | ].
    unfold Pro.matchedLines in Hl.
    apply (pro_whileExec_ok _ _ _ _ _ Hl). constructor.
Qed.

(** X1: on every input both parsers return events whose text is not empty
    and has no white space at either end. *)
Theorem parsers_store_trimmed_text (lrcText : string) :
  (exists events,
     AppJs.parseLrcLyrics lrcText = Done events /\
     Forall (fun e => storedText (text e)) events) /\
  (exists events,
     Pro.parseLRC lrcText = Done events /\
     Forall (fun e => storedText (text e)) events).
Proof.
  split.
  - destruct (parseLrcLyrics_events_ok lrcText) as [events [He Hok]].
    exists events. split; [exact He | ].
    eapply Forall_impl; [ | exact Hok]. now intros e [Ht _].
  - destruct (parseLRC_events_ok lrcText) as [events [He Hok]].
    exists events. split; [exact He | ].
    eapply Forall_impl; [ | exact Hok]. now intros e [Ht _].
Qed.

(** X2: on every input both parsers return events whose time lies between
    0 and 6039.999 s (99 min 99 s 999 ms). *)
Theorem parsers_times_in_range (lrcText : string) :
  (exists events,
     AppJs.parseLrcLyrics lrcText = Done events /\
     Forall (fun e => 0 <= time e /\ time e <= 6039.999)%Q events) /\
  (exists events,
     Pro.parseLRC lrcText = Done events /\
     Forall (fun e => 0 <= time e /\ time e <= 6039.999)%Q events).
Proof.
  split.
  - destruct (parseLrcLyrics_events_ok lrcText) as [events [He Hok]].
    exists events. split; [exact He | ].
    eapply Forall_impl; [ | exact Hok]. now intros e [_ Ht].
  - destruct (parseLRC_events_ok lrcText) as [events [He Hok]].
    exists events. split; [exact He | ].
    eapply Forall_impl; [ | exact Hok]. now intros e [_ Ht].
Qed.

End Events.

(** ** Lines of the lyric text *)

Section Lines.
Import JS.
Local Open Scope string_scope.

Lemma append_empty_r (s : string) : s ++ "" = s.
Proof. induction s as [ | c s IH]; cbn; [reflexivity | now rewrite IH]. Qed.

Lemma splitOn_append (c : ascii) (a b : string) :
  forall cur,
    splitOn c (a ++ String c b) cur
    = (splitOn c a cur ++ splitOn c b "")%list.
Proof.
  induction a as [ | x a IH]; intros cur; cbn.
  - now rewrite Ascii.eqb_refl.
  - destruct (Ascii.eqb x c); cbn; now rewrite IH.
Qed.

Lemma pushEach_acc (txt : string) (ts : list Q) :
  forall parsed,
    AppJs.pushEach ts txt parsed
    = (parsed ++ AppJs.pushEach ts txt [])%list.
Proof.
  induction ts as [ | t ts IH]; intros parsed; cbn [AppJs.pushEach].
  - now rewrite app_nil_r.
  - rewrite IH. rewrite (IH (if truthy txt then _ else _)).
    destruct (truthy txt); cbn [app]; [now rewrite <- app_assoc | reflexivity].
Qed.

(** The events a list of lines adds do not depend on the events that are
    in the array already. *)
Lemma forLines_acc (fuel : nat) (lines : list string) :
  forall parsed,
    AppJs.forLines fuel lines parsed
    = match AppJs.forLines fuel lines [] with
      | Done r => Done (parsed ++ r)%list
      | OutOfFuel => OutOfFuel
      | NaNTime => NaNTime
      end.
Proof.
  induction lines as [ | line rest IH]; intros parsed; cbn [AppJs.forLines].
  - now rewrite app_nil_r.
  - destruct (AppJs.whileExec fuel line 0 [] 0) as [[ts li] | | ];
      try reflexivity.
    set (txt := trim (slice li line)).
    rewrite (IH (AppJs.pushEach ts txt parsed)).
    rewrite (IH (AppJs.pushEach ts txt [])).
    destruct (AppJs.forLines fuel rest []) as [r | | ]; try reflexivity.
    rewrite (pushEach_acc txt ts parsed). now rewrite app_assoc.
Qed.

Lemma forLines_app (fuel : nat) (l1 l2 : list string) :
  forall parsed,
    AppJs.forLines fuel (l1 ++ l2) parsed
    = match AppJs.forLines fuel l1 parsed with
      | Done p => AppJs.forLines fuel l2 p
      | OutOfFuel => OutOfFuel
      | NaNTime => NaNTime
      end.
Proof.
  induction l1 as [ | line rest IH]; intros parsed; cbn [app AppJs.forLines].
  - reflexivity.
  - destruct (AppJs.whileExec fuel line 0 [] 0) as [[ts li] | | ];
      try reflexivity.
    apply IH.
Qed.

(** X3: parseLrcLyrics works line by line: the array built for two texts
    joined by a line feed is the array of the first followed by the array
    of the second, and the result is that array sorted. *)
Theorem parseLrcLyrics_by_lines (a b : string) :
  exists pa pb,
    AppJs.parsedEvents (S (String.length a)) a = Done pa /\
    AppJs.parsedEvents (S (String.length b)) b = Done pb /\
    AppJs.parsedEvents (S (String.length (a ++ String "010" b)))
      (a ++ String "010" b) = Done (pa ++ pb)%list /\
    AppJs.parseLrcLyrics (a ++ String "010" b)
    = Done (sortByTime (pa ++ pb)).
Proof.
  destruct (parsedEvents_total a) as [pa Ha].
  destruct (parsedEvents_total b) as [pb Hb].
  exists pa, pb.
  assert (Hlen : String.length (a ++ String "010" b)
                 = (String.length a + S (String.length b))%nat)
    by (rewrite length_append; reflexivity).
  assert (Hab : AppJs.parsedEvents (S (String.length (a ++ String "010" b)))
                  (a ++ String "010" b) = Done (pa ++ pb)%list).
  { unfold AppJs.parsedEvents, split. rewrite splitOn_append, forLines_app.
    fold (split "010" a). fold (split "010" b).
    fold (AppJs.parsedEvents (S (String.length (a ++ String "010" b))) a).
    rewrite Ha by lia. rewrite forLines_acc.
    fold (AppJs.parsedEvents (S (String.length (a ++ String "010" b))) b).
    rewrite Hb by lia. reflexivity. }
  repeat split.
  - apply Ha. lia.
  - apply Hb. lia.
  - exact Hab.
  - unfold AppJs.parseLrcLyrics, AppJs.parseLrcLyrics_fuel. now rewrite Hab.
Qed.

(** *** Lines of tags *)

Lemma trim_empty_trimStart (s : string) : trim s = "" -> trimStart s = "".
Proof.
  unfold trim. pose proof (trimStart_head s) as Hh.
  destruct (trimStart s) as [ | c r]; [reflexivity | ].
  rewrite trimEnd_cons. destruct (trimEnd r); [ | discriminate].
  now rewrite Hh.
Qed.

(** In white space the pattern matches nowhere. *)
Lemma search_blank (s : string) :
  trimStart s = "" -> forall i, AppJs.search s i = None.
Proof.
  induction s as [ | c s IH]; intros Hs i.
  - reflexivity.
  - cbn [trimStart] in Hs. destruct (isWhiteSpace c) eqn:Hc; [ | discriminate].
    cbn [AppJs.search].
    assert (Hm : AppJs.matchTime (String c s) = None).
    { unfold AppJs.matchTime. cbn [lit].
      destruct (Ascii.eqb_spec c "["%char) as [-> | _]; [discriminate | reflexivity]. }
    rewrite Hm. now apply IH.
Qed.

Lemma wellFormedTag_stands (g : Tag) :
  wellFormedTag g -> exists t, tagStandsFor g t.
Proof.
  intros [Hm [Hs Hf]]. apply tagTime_defined.
  - destruct (digits_inv _ _ _ _ Hm) as [_ [_ H]]. apply H. lia.
  - destruct (digits_inv _ _ _ _ Hs) as [_ [_ H]]. apply H. lia.
  - destruct Hf as [Hf | Hf];
      destruct (digits_inv _ _ _ _ Hf) as [_ [_ H]]; apply H; lia.
Qed.

Lemma wellFormedTags_stand (gs : list Tag) :
  Forall wellFormedTag gs -> exists ts, Forall2 tagStandsFor gs ts.
Proof.
  induction 1 as [ | g gs Hg Hgs [ts IH]].
  - exists []. constructor.
  - destruct (wellFormedTag_stands g Hg) as [t Ht].
    exists (t :: ts). now constructor.
Qed.

Lemma pushEach_falsy (txt : string) (ts : list Q) :
  truthy txt = false ->
  forall parsed, AppJs.pushEach ts txt parsed = parsed.
Proof.
  intros Htxt. induction ts as [ | t ts IH]; intros parsed; cbn;
    [reflexivity | ].
  now rewrite Htxt, IH.
Qed.

(** X4: a line of well-formed tags followed by nothing but white space
    adds no event. *)
Theorem forLines_blank_text (gs : list Tag) (rest : string) :
  Forall wellFormedTag gs -> trim rest = "" ->
  forall fuel parsed, (List.length gs < fuel)%nat ->
    AppJs.forLines fuel [tagsString gs ++ rest] parsed = Done parsed.
Proof.
  intros Hwf Hrest fuel parsed Hfuel.
  destruct (wellFormedTags_stand gs Hwf) as [ts Hts].
  cbn [AppJs.forLines].
  pose proof (whileExec_tags rest gs
                (search_blank rest (trim_empty_trimStart rest Hrest) 0%nat)
                ts Hts Hwf fuel "" [] 0%nat Hfuel) as Hw.
  cbn [append String.length Nat.add app] in Hw. rewrite Hw.
  rewrite pushEach_falsy; [reflexivity | ].
  destruct gs as [ | g gs].
  - cbn [tagsString fold_right append slice]. now rewrite Hrest.
  - rewrite slice_append. now rewrite Hrest.
Qed.

Lemma forLines_blank_text_witness :
  AppJs.forLines 2 ["[00:02.00]   "] [] = Done [].
Proof.
  apply (forLines_blank_text [ {| mm := "00"; ss := "02"; ff := "00" |} ]
           "   ").
  - repeat constructor; cbn; auto.
  - reflexivity.
  - cbn. lia.
Defined.

Lemma tagString_length (g : Tag) : (0 < String.length (tagString g))%nat.
Proof. unfold tagString. cbn. lia. Qed.

Lemma tagsString_length (gs : list Tag) :
  (List.length gs <= String.length (tagsString gs))%nat.
Proof.
  induction gs as [ | g gs IH]; cbn [tagsString fold_right List.length];
    [cbn; lia | ].
  fold (tagsString gs). rewrite length_append.
  pose proof (tagString_length g). lia.
Qed.

(** X5: for a text of one line, made of well-formed tags and a text that
    is not blank and in which the pattern matches nowhere, parseLrcLyrics
    returns one event for every tag, each with the trimmed text, sorted by
    time. *)
Theorem parseLrcLyrics_tagged_text (gs : list Tag) (ts : list Q)
    (rest : string) :
  Forall wellFormedTag gs -> Forall2 tagStandsFor gs ts ->
  AppJs.search rest 0 = None -> truthy (trim rest) = true ->
  split "010" (tagsString gs ++ rest) = [tagsString gs ++ rest] ->
  AppJs.parseLrcLyrics (tagsString gs ++ rest)
  = Done (sortByTime
            (map (fun t => {| time := t; text := trim rest |}) ts)).
Proof.
  intros Hwf Hts Hrest Htxt Hline.
  unfold AppJs.parseLrcLyrics, AppJs.parseLrcLyrics_fuel, AppJs.parsedEvents.
  rewrite Hline.
  rewrite (forLines_tagged_line gs ts rest Hwf Hts Hrest Htxt).
  - reflexivity.
  - pose proof (tagsString_length gs). rewrite length_append. lia.
Qed.

Lemma parseLrcLyrics_tagged_text_witness :
  exists t1 t2,
    t1 == 1 /\ t2 == 5 /\
    AppJs.parseLrcLyrics "[00:05.00][00:01.00] Chorus "
    = Done [ {| time := t1; text := "Chorus" |};
             {| time := t2; text := "Chorus" |} ].
Proof.
  assert (Hts : exists t1 t2, t1 == 1 /\ t2 == 5 /\
            Forall2 tagStandsFor chorus_tags_rev [t2; t1]).
  { do 2 eexists. split; [ | split].
    3: { repeat constructor; unfold tagStandsFor; cbn [mm ss ff];
         vm_compute; reflexivity. }
    all: reflexivity. }
  destruct Hts as [t1 [t2 [H1 [H2 Hts]]]].
  exists t1, t2. split; [exact H1 | ]. split; [exact H2 | ].
  assert (Hwf : Forall wellFormedTag chorus_tags_rev)
    by (repeat constructor; cbn; auto).
  change "[00:05.00][00:01.00] Chorus "
    with (tagsString chorus_tags_rev ++ " Chorus ").
  rewrite (parseLrcLyrics_tagged_text chorus_tags_rev [t2; t1] " Chorus "
             Hwf Hts eq_refl eq_refl eq_refl).
  cbn [map sortByTime fold_right insertByTime time].
  assert (Hle : Qle_bool t2 t1 = false).
  { destruct (Qle_bool t2 t1) eqn:Hb; [ | reflexivity].
    apply Qle_bool_iff in Hb. rewrite H1, H2 in Hb.
    exfalso. revert Hb. apply Qlt_not_le. reflexivity. }
  rewrite Hle. reflexivity.
Defined.

(** *** Removing the timestamps *)

Lemma substring_zero (n : nat) (s : string) : substring n 0 s = "".
Proof.
  revert s. induction n as [ | n IH]; intros s.
  - now destruct s.
  - destruct s as [ | c s]; [reflexivity | apply IH].
Qed.

Lemma replaceTags_tags (rest : string) (gs : list Tag) :
  AppJs.search rest 0 = None -> Forall wellFormedTag gs ->
  forall fuel pre acc, (List.length gs < fuel)%nat ->
    AppJs.replaceTags fuel (pre ++ tagsString gs ++ rest)
      (String.length pre) acc
    = Done (acc ++ rest).
Proof.
  intros Hrest Hwf. induction Hwf as [ | g gs Hg Hgs IH];
    intros fuel pre acc Hfuel.
  - destruct fuel as [ | fuel]; [cbn in Hfuel; lia | ].
    cbn [AppJs.replaceTags tagsString fold_right append].
    unfold AppJs.exec. rewrite slice_append.
    now rewrite (search_none_index _ _ _ Hrest).
  - destruct fuel as [ | fuel]; [cbn in Hfuel; lia | ].
    cbn [AppJs.replaceTags tagsString fold_right].
    unfold AppJs.exec. rewrite slice_append.
    fold (tagsString gs). rewrite append_assoc.
    destruct (tagString g ++ tagsString gs ++ rest) as [ | c rem] eqn:Hline.
    { unfold tagString in Hline. discriminate. }
    cbn [AppJs.search]. rewrite <- Hline.
    rewrite (matchTime_of_tag g _ Hg).
    cbn [AppJs.index AppJs.m0].
    fold (tagString g).
    rewrite Nat.sub_diag, substring_zero, append_empty_r.
    replace (String.length pre + String.length (tagString g))%nat
      with (String.length (pre ++ tagString g)) by apply length_append.
    replace (pre ++ tagString g ++ tagsString gs ++ rest)
      with ((pre ++ tagString g) ++ tagsString gs ++ rest)
      by (now rewrite !append_assoc).
    apply IH. cbn in Hfuel. lia.
Qed.

(** X6: removing the timestamps from well-formed tags followed by a text in
    which the pattern matches nowhere leaves exactly that text, the text
    parseLrcLyrics trims and attaches to the events of the line. *)
Theorem stripTimestamps_tagged_text (gs : list Tag) (rest : string) :
  Forall wellFormedTag gs -> AppJs.search rest 0 = None ->
  AppJs.stripTimestamps (tagsString gs ++ rest) = Done rest.
Proof.
  intros Hwf Hrest. unfold AppJs.stripTimestamps.
  apply (replaceTags_tags rest gs Hrest Hwf _ "" "").
  pose proof (tagsString_length gs). rewrite length_append. lia.
Qed.

Lemma stripTimestamps_tagged_text_witness :
  AppJs.stripTimestamps "[00:01.00][00:05.000]Chorus [live]"
  = Done "Chorus [live]".
Proof.
  apply (stripTimestamps_tagged_text
           [ {| mm := "00"; ss := "01"; ff := "00" |};
             {| mm := "00"; ss := "05"; ff := "000" |} ] "Chorus [live]").
  - constructor; [ | constructor; [ | constructor]].
    + split; [reflexivity | split; [reflexivity | left; reflexivity]].
    + split; [reflexivity | split; [reflexivity | right; reflexivity]].
  - reflexivity.
Defined.

Lemma length_substring_le (n m : nat) (s : string) :
  (String.length (substring n m s) <= m)%nat.
Proof.
  revert n m. induction s as [ | c s IH]; intros n m.
  - destruct n, m; cbn; lia.
  - destruct n as [ | n].
    + destruct m as [ | m]; cbn; [lia | ]. specialize (IH 0%nat m). lia.
    + cbn. apply IH.
Qed.

Lemma exec_index (line : string) (re : nat) (m : AppJs.RegExpMatch) :
  AppJs.exec line re = Some m ->
  (re <= AppJs.index m)%nat /\
  (AppJs.index m + String.length (AppJs.m0 m) <= String.length line)%nat /\
  (0 < String.length (AppJs.m0 m))%nat.
Proof.
  unfold AppJs.exec. intros Hs.
  apply search_inv in Hs as [Hi [Hend [Hpos _]]].
  rewrite length_slice in Hend. lia.
Qed.

Lemma replaceTags_enough (s : string) (n : nat) :
  forall from acc, (String.length s - from < n)%nat ->
  exists r,
    (String.length r <= String.length acc + (String.length s - from))%nat /\
    forall fuel, (n <= fuel)%nat ->
      AppJs.replaceTags fuel s from acc = Done r.
Proof.
  induction n as [ | n IH]; intros from acc Hn; [lia | ].
  destruct (AppJs.exec s from) as [m | ] eqn:Hm.
  - destruct (exec_index _ _ _ Hm) as [Hi [Hend Hpos]].
    destruct (IH (AppJs.index m + String.length (AppJs.m0 m))%nat
                (acc ++ substring from (AppJs.index m - from) s))
      as [r [Hlen Hr]]; [lia | ].
    exists r. split.
    + rewrite length_append in Hlen.
      pose proof (length_substring_le from (AppJs.index m - from) s). lia.
    + intros [ | fuel] Hfuel; [lia | ].
      cbn [AppJs.replaceTags]. rewrite Hm. apply Hr. lia.
  - exists (acc ++ slice from s). split.
    + rewrite length_append, length_slice. lia.
    + intros [ | fuel] Hfuel; [lia | ].
      cbn [AppJs.replaceTags]. now rewrite Hm.
Qed.

(** X7: removing the timestamps ends on every text and returns a text that
    is not longer; more fuel gives the same text. *)
Theorem stripTimestamps_total (s : string) :
  exists r,
    AppJs.stripTimestamps s = Done r /\
    (String.length r <= String.length s)%nat /\
    forall fuel, (String.length s < fuel)%nat ->
      AppJs.replaceTags fuel s 0 "" = Done r.
Proof.
  destruct (replaceTags_enough s (S (String.length s)) 0 "") as [r [Hlen Hr]];
    [lia | ].
  exists r. split; [apply Hr; lia | ]. split.
  - cbn in Hlen. lia.
  - intros fuel Hfuel. apply Hr. lia.
Qed.

Lemma stripTimestamps_defined (s : string) :
  exists r, AppJs.stripTimestamps s = Done r.
Proof.
  destruct (replaceTags_enough s (S (String.length s)) 0 "") as [r [_ Hr]];
    [lia | ].
  exists r. apply Hr. lia.
Qed.

End Lines.

(** ** The lookup on any array of events *)

Section LookupAny.

(** What the backward scan returns on any array, sorted or not: the
    highest index below [n] whose event is not after the query, or -1. *)
Lemma lineScan_last (ls : list LyricEvent) (q : Q) (n : nat) (idx : Z) :
  AppJs.lineScan ls q n = Some idx ->
  (-1 <= idx < Z.of_nat n)%Z /\
  (forall i e, (idx < Z.of_nat i)%Z -> (i < n)%nat ->
     nth_error ls i = Some e -> q < time e) /\
  ((0 <= idx)%Z ->
   exists e, nth_error ls (Z.to_nat idx) = Some e /\ time e <= q).
Proof.
  revert idx. induction n as [ | n IH]; intros idx; cbn [AppJs.lineScan].
  - intros [= <-]. repeat split; try lia.
  - destruct (nth_error ls n) as [e | ] eqn:He; [ | discriminate].
    destruct (Qle_bool (time e) q) eqn:Hb.
    + intros [= <-]. repeat split; try lia.
      intros _. exists e. rewrite Nat2Z.id. split; [exact He | ].
      now apply Qle_bool_iff.
    + intros Hidx. destruct (IH idx Hidx) as [Hr [Hlater Hat]].
      repeat split; try lia; [ | exact Hat].
      intros i e' Hi Hin He'. destruct (Nat.eq_dec i n) as [-> | Hne].
      * rewrite He in He'. injection He' as <-.
        destruct (Qlt_le_dec q (time e)) as [Hlt | Hle]; [exact Hlt | ].
        apply Qle_bool_iff in Hle. congruence.
      * apply (Hlater i e'); auto. lia.
Qed.

(** X8: on any array, sorted or not, both scans return an index between -1
    and the last index; every event behind that index is after the query
    (in src/unnamed/part_001: more than 0.1 s after it), and the event at
    the index, if there is one, is not. *)
Theorem scans_return_last_reached (ls : list LyricEvent) (q : Q) :
  (exists idx,
     AppJs.newLineIndex ls q = Some idx /\
     (-1 <= idx < Z.of_nat (List.length ls))%Z /\
     (forall i e, (idx < Z.of_nat i)%Z ->
        nth_error ls i = Some e -> q < time e) /\
     ((0 <= idx)%Z ->
      exists e, nth_error ls (Z.to_nat idx) = Some e /\ time e <= q)) /\
  (exists idx,
     Pro.newLine ls q = Some idx /\
     (-1 <= idx < Z.of_nat (List.length ls))%Z /\
     (forall i e, (idx < Z.of_nat i)%Z ->
        nth_error ls i = Some e -> q < time e - 0.1) /\
     ((0 <= idx)%Z ->
      exists e, nth_error ls (Z.to_nat idx) = Some e /\ time e - 0.1 <= q)).
Proof.
  split.
  - destruct (lineScan_defined ls q _ (le_n _)) as [idx Hidx].
    exists idx. split; [exact Hidx | ].
    destruct (lineScan_last _ _ _ _ Hidx) as [Hr [Hlater Hat]].
    repeat split; try lia; [ | exact Hat].
    intros i e Hi He. apply (Hlater i e Hi); [ | exact He].
    apply nth_error_Some. congruence.
  - destruct (lineScan_defined (map earlier ls) q (List.length ls)) as [idx Hidx];
      [now rewrite length_map | ].
    exists idx. split; [unfold Pro.newLine; now rewrite pro_lineScan_earlier | ].
    destruct (lineScan_last _ _ _ _ Hidx) as [Hr [Hlater Hat]].
    repeat split; try lia.
    + intros i e Hi He.
      apply (Hlater i (earlier e) Hi).
      * apply nth_error_Some. congruence.
      * rewrite nth_error_map, He. reflexivity.
    + intros H0. destruct (Hat H0) as [e' [He' Hle]].
      rewrite nth_error_map in He'.
      destruct (nth_error ls (Z.to_nat idx)) as [e | ]; [ | discriminate].
      injection He' as <-. exists e. split; [reflexivity | exact Hle].
Qed.

Lemma lineScan_monotone (ls : list LyricEvent) (q q' : Q) (n : nat) :
  q <= q' ->
  forall i i', AppJs.lineScan ls q n = Some i ->
    AppJs.lineScan ls q' n = Some i' -> (i <= i')%Z.
Proof.
  intros Hq. induction n as [ | n IH]; intros i i'; cbn [AppJs.lineScan].
  - intros [= <-] [= <-]. lia.
  - destruct (nth_error ls n) as [e | ] eqn:He; [ | discriminate].
    destruct (Qle_bool (time e) q) eqn:Hb.
    + apply Qle_bool_iff in Hb.
      assert (Hb' : Qle_bool (time e) q' = true)
        by (apply Qle_bool_iff; eapply Qle_trans; eassumption).
      rewrite Hb'. intros [= <-] [= <-]. lia.
    + intros Hi. destruct (Qle_bool (time e) q').
      * intros [= <-]. destruct (lineScan_last _ _ _ _ Hi) as [Hr _]. lia.
      * now apply IH.
Qed.

(** X9: on any array, a later or equal query time never gives a smaller
    index, in either scan. *)
Theorem scans_monotone (ls : list LyricEvent) (q q' : Q) :
  q <= q' ->
  (exists i i', AppJs.newLineIndex ls q = Some i /\
     AppJs.newLineIndex ls q' = Some i' /\ (i <= i')%Z) /\
  (exists i i', Pro.newLine ls q = Some i /\
     Pro.newLine ls q' = Some i' /\ (i <= i')%Z).
Proof.
  intros Hq. split.
  - destruct (lineScan_defined ls q _ (le_n _)) as [i Hi].
    destruct (lineScan_defined ls q' _ (le_n _)) as [i' Hi'].
    exists i, i'. repeat split; auto.
    eapply lineScan_monotone; eassumption.
  - destruct (lineScan_defined (map earlier ls) q (List.length ls)) as [i Hi];
      [now rewrite length_map | ].
    destruct (lineScan_defined (map earlier ls) q' (List.length ls)) as [i' Hi'];
      [now rewrite length_map | ].
    exists i, i'. unfold Pro.newLine. rewrite !pro_lineScan_earlier.
    repeat split; auto. eapply lineScan_monotone; eassumption.
Qed.

Lemma scans_monotone_witness :
  exists i i', AppJs.newLineIndex track_abc 0.5 = Some i /\
    AppJs.newLineIndex track_abc 3.2 = Some i' /\ (i <= i')%Z.
Proof.
  apply (proj1 (scans_monotone track_abc 0.5 3.2 ltac:(vm_compute; discriminate))).
Defined.

Lemma no_lines_guard (b : bool) (ls : list LyricEvent) :
  negb b || (List.length ls =? 0)%nat = true <-> b = false \/ ls = [].
Proof.
  rewrite orb_true_iff, negb_true_iff, Nat.eqb_eq, length_zero_iff_nil.
  reflexivity.
Qed.

(** X10: syncLyricsToTime returns on every state and time.  Without synced
    lyrics it changes nothing.  With them the index it stores in
    currentLineIndex is the one the backward scan computes for the time;
    when that index is the stored one nothing changes, and when it differs
    it is reported to highlightCurrentLine once and nothing else changes.
    A second call with the same time changes nothing. *)
Theorem syncLyricsToTime_reports_changes (q : Q) (st : AppJs.State) :
  exists st',
    AppJs.syncLyricsToTime q st = Some st' /\
    AppJs.syncLyricsToTime q st' = Some st' /\
    (AppJs.hasSyncedLyrics st = false \/ AppJs.syncedLyrics st = [] ->
     st' = st) /\
    (AppJs.hasSyncedLyrics st = true -> AppJs.syncedLyrics st <> [] ->
     exists idx,
       AppJs.newLineIndex (AppJs.syncedLyrics st) q = Some idx /\
       AppJs.currentLineIndex st' = idx /\
       (idx = AppJs.currentLineIndex st -> st' = st) /\
       (idx <> AppJs.currentLineIndex st ->
        AppJs.highlighted st' = AppJs.highlighted st ++ [idx] /\
        AppJs.syncedLyrics st' = AppJs.syncedLyrics st /\
        AppJs.hasSyncedLyrics st' = AppJs.hasSyncedLyrics st /\
        AppJs.player st' = AppJs.player st /\
        AppJs.progressFill st' = AppJs.progressFill st)).
Proof.
  unfold AppJs.syncLyricsToTime.
  destruct (negb (AppJs.hasSyncedLyrics st)
            || (List.length (AppJs.syncedLyrics st) =? 0)%nat) eqn:Hg.
  - exists st. rewrite Hg. apply no_lines_guard in Hg.
    split; [reflexivity | split; [reflexivity | split; [reflexivity | ]]].
    intros Hhas Hne. destruct Hg; congruence.
  - assert (Hyes : ~ (AppJs.hasSyncedLyrics st = false \/
                      AppJs.syncedLyrics st = [])).
    { intros H. apply no_lines_guard in H. congruence. }
    destruct (lineScan_defined (AppJs.syncedLyrics st) q _ (le_n _)) as [i Hi].
    unfold AppJs.newLineIndex. rewrite Hi.
    destruct (i =? AppJs.currentLineIndex st)%Z eqn:Heq; cbn [negb].
    + apply Z.eqb_eq in Heq.
      exists st. rewrite Hg, Hi. rewrite (proj2 (Z.eqb_eq _ _) Heq).
      split; [reflexivity | split; [reflexivity | split]].
      * intros H. contradiction.
      * intros _ _. exists i.
        split; [reflexivity | split; [now symmetry | split]].
        -- reflexivity.
        -- intros H. contradiction.
    + apply Z.eqb_neq in Heq.
      exists (AppJs.set_currentLine i st).
      cbn [AppJs.set_currentLine AppJs.hasSyncedLyrics AppJs.syncedLyrics
           AppJs.currentLineIndex AppJs.highlighted AppJs.player
           AppJs.progressFill].
      rewrite Hg, Hi, Z.eqb_refl. cbn [negb].
      split; [reflexivity | split; [reflexivity | split]].
      * intros H. contradiction.
      * intros _ _. exists i.
        split; [reflexivity | split; [reflexivity | split]].
        -- intros H. contradiction.
        -- intros _. auto.
Qed.

Lemma syncLyricsToTime_reports_changes_witness :
  exists st',
    AppJs.syncLyricsToTime 3.2 appjs_loading = Some st' /\
    AppJs.currentLineIndex st' = 1%Z /\
    AppJs.highlighted st' = [1%Z].
Proof.
  destruct (syncLyricsToTime_reports_changes 3.2 appjs_loading)
    as [st' [Hst' [_ [_ Hidx]]]].
  destruct (Hidx eq_refl ltac:(discriminate)) as [idx [Hi [Hcur [_ Hch]]]].
  vm_compute in Hi. injection Hi as <-.
  exists st'. split; [exact Hst' | split; [exact Hcur | ]].
  apply Hch. discriminate.
Defined.

(** X11: App.syncLyrics returns on every state and time.  Without lyrics
    it changes nothing.  With them the index it stores in currentLine is
    the one its backward scan computes for the time; when that index is the
    stored one nothing changes, and when it differs it is reported to
    highlightLine once, one beep is played if audio is enabled, the index
    is not -1 and the engine has an audio context, none otherwise, and
    nothing else changes.  A second call with the same time changes
    nothing. *)
Theorem syncLyrics_reports_changes (q : Q) (a : Pro.App) :
  exists a',
    Pro.syncLyrics q a = Some a' /\
    Pro.syncLyrics q a' = Some a' /\
    (Pro.lyrics a = None -> a' = a) /\
    (forall l, Pro.lyrics a = Some l ->
     exists idx,
       Pro.newLine (Pro.lines l) q = Some idx /\
       Pro.currentLine a' = idx /\
       (idx = Pro.currentLine a -> a' = a) /\
       (idx <> Pro.currentLine a ->
        Pro.highlighted a' = Pro.highlighted a ++ [idx] /\
        (Pro.audioEnabled a = true -> (0 <= idx)%Z ->
         Pro.audioContext (Pro.syncEngine a) <> None ->
         Pro.beeps a' = S (Pro.beeps a)) /\
        (Pro.audioEnabled a = false \/ (idx < 0)%Z \/
         Pro.audioContext (Pro.syncEngine a) = None ->
         Pro.beeps a' = Pro.beeps a) /\
        Pro.lyrics a' = Pro.lyrics a /\
        Pro.player a' = Pro.player a /\
        Pro.syncEngine a' = Pro.syncEngine a /\
        Pro.audioEnabled a' = Pro.audioEnabled a /\
        Pro.progressFill a' = Pro.progressFill a)).
Proof.
  unfold Pro.syncLyrics.
  destruct (Pro.lyrics a) as [l | ] eqn:Hl.
  - destruct (lineScan_defined (map earlier (Pro.lines l)) q
                (List.length (Pro.lines l))) as [i Hi];
      [now rewrite length_map | ].
    rewrite <- pro_lineScan_earlier in Hi. fold (Pro.newLine (Pro.lines l) q) in Hi.
    rewrite Hi.
    destruct (i =? Pro.currentLine a)%Z eqn:Heq; cbn [negb].
    + apply Z.eqb_eq in Heq.
      exists a. rewrite Hl, Hi, (proj2 (Z.eqb_eq _ _) Heq).
      split; [reflexivity | split; [reflexivity | split]].
      * discriminate.
      * intros l' [= <-]. exists i.
        split; [exact Hi | split; [now symmetry | split]].
        -- reflexivity.
        -- intros H. contradiction.
    + apply Z.eqb_neq in Heq.
      eexists. split; [reflexivity | ].
      cbn [Pro.lyrics Pro.currentLine Pro.highlighted Pro.beeps Pro.player
           Pro.syncEngine Pro.audioEnabled Pro.progressFill].
      rewrite Hi, Z.eqb_refl. cbn [negb].
      split; [reflexivity | split].
      * discriminate.
      * intros l' [= <-]. exists i.
        split; [exact Hi | split; [reflexivity | split]].
        -- intros H. contradiction.
        -- intros _.
           split; [reflexivity
                  | split; [ | split; [ | split; [reflexivity | auto]]]].
           ++ intros Hen Hidx Hctx. rewrite Hen.
              rewrite (proj2 (Z.leb_le 0 i) Hidx). cbn [andb].
              destruct (Pro.audioContext (Pro.syncEngine a));
                [reflexivity | contradiction].
           ++ intros [Hen | [Hidx | Hctx]].
              ** rewrite Hen. reflexivity.
              ** rewrite (proj2 (Z.leb_gt 0 i) Hidx), andb_false_r.
                 reflexivity.
              ** rewrite Hctx. now destruct (_ && _).
  - exists a. rewrite Hl.
    split; [reflexivity | split; [reflexivity | split]].
    + reflexivity.
    + discriminate.
Qed.

Lemma syncLyrics_reports_changes_witness :
  exists a',
    Pro.syncLyrics 2.95 pro_loading = Some a' /\
    Pro.currentLine a' = 1%Z /\
    Pro.highlighted a' = [1%Z] /\
    Pro.beeps a' = 1%nat.
Proof.
  destruct (syncLyrics_reports_changes 2.95 pro_loading)
    as [a' [Ha' [_ [_ Hidx]]]].
  destruct (Hidx _ eq_refl) as [idx [Hi [Hcur [_ Hch]]]].
  vm_compute in Hi. injection Hi as <-.
  destruct (Hch ltac:(discriminate)) as [Hhl [Hbeep _]].
  exists a'. split; [exact Ha' | split; [exact Hcur | split; [exact Hhl | ]]].
  apply Hbeep; [reflexivity | discriminate | discriminate].
Defined.

End LookupAny.

(** ** The estimate of the audio sync engine *)

Section Estimate.
Import Pro.

Lemma estimate_raw (e : AudioSyncEngine) (ctx : AudioContext) :
  audioContext e = Some ctx -> getAccurateTime e == Qmax 0 (rawEstimate e).
Proof.
  intros H. unfold getAccurateTime, rawEstimate. rewrite H. reflexivity.
Qed.

Lemma rawEstimate_elapse (dt : Q) (e : AudioSyncEngine) (ctx : AudioContext) :
  audioContext e = Some ctx ->
  rawEstimate (elapse dt e) == rawEstimate e + dt.
Proof.
  intros H. unfold rawEstimate, elapse; cbn. rewrite H; cbn. ring.
Qed.

(** X12: the estimate is never negative, and while the audio context's
    clock advances by dt >= 0 it does not go back and gains at most dt. *)
Theorem estimate_nonnegative_monotone (e : AudioSyncEngine) (dt : Q) :
  0 <= dt ->
  0 <= getAccurateTime e /\
  getAccurateTime e <= getAccurateTime (elapse dt e) /\
  getAccurateTime (elapse dt e) <= getAccurateTime e + dt.
Proof.
  intros Hdt. destruct (audioContext e) as [ctx | ] eqn:Hctx.
  - assert (Hctx' : audioContext (elapse dt e)
                    = Some {| currentTime := currentTime ctx + dt |})
      by (unfold elapse; cbn; now rewrite Hctx).
    rewrite (estimate_raw e ctx Hctx), (estimate_raw _ _ Hctx').
    rewrite (rawEstimate_elapse dt e ctx Hctx).
    repeat split.
    + apply Q.le_max_l.
    + apply Q.max_le_compat_l. lra.
    + apply Q.max_lub.
      * pose proof (Q.le_max_l 0 (rawEstimate e)). lra.
      * pose proof (Q.le_max_r 0 (rawEstimate e)). lra.
  - unfold getAccurateTime, elapse; cbn. rewrite Hctx. repeat split; lra.
Qed.

Lemma estimate_nonnegative_monotone_witness :
  0 <= getAccurateTime engine_playing /\
  getAccurateTime engine_playing <= getAccurateTime (elapse 2 engine_playing).
Proof.
  destruct (estimate_nonnegative_monotone engine_playing 2
              ltac:(vm_compute; discriminate)) as [H0 [H1 _]].
  split; assumption.
Defined.

(** X13: a pause followed by a start counts the paused position twice:
    after pause(P), any wait, and start(T), the estimate is
    max(0, T + P + driftCorrection). *)
Theorem pause_then_start_estimate (e : AudioSyncEngine) (P T dt : Q)
    (ctx : AudioContext) :
  audioContext e = Some ctx ->
  exists e',
    start T (elapse dt (pause P e)) = Some e' /\
    getAccurateTime e' == Qmax 0 (T + P + driftCorrection e).
Proof.
  intros Hctx.
  destruct (start_estimate (elapse dt (pause P e)) T
              {| currentTime := currentTime ctx + dt |}) as [e' [Hs He]].
  { unfold elapse, pause; cbn. now rewrite Hctx. }
  exists e'. split; [exact Hs | ]. rewrite He. reflexivity.
Qed.

Lemma pause_then_start_estimate_witness :
  exists e',
    start 5 (elapse 3 (pause 5 engine_playing)) = Some e' /\
    getAccurateTime e' == 10.
Proof.
  destruct (pause_then_start_estimate engine_playing 5 5 3
              {| currentTime := 0 + 5 |} eq_refl) as [e' [Hs He]].
  exists e'. split; [exact Hs | ]. rewrite He. reflexivity.
Defined.

(** *** Drift correction against the estimate *)

Lemma estimate_unfloored (e : AudioSyncEngine) (ctx : AudioContext) :
  audioContext e = Some ctx -> 0 <= rawEstimate e ->
  getAccurateTime e == rawEstimate e.
Proof.
  intros Hctx Hraw. rewrite (estimate_raw e ctx Hctx). now apply Q.max_r.
Qed.

Lemma correctDrift_fields (v s : Q) (e : AudioSyncEngine) :
  startTime (correctDrift v s e) = startTime e /\
  pausedTime (correctDrift v s e) = pausedTime e /\
  audioContext (correctDrift v s e) = audioContext e.
Proof.
  unfold correctDrift. destruct (Qlt_le_dec 0.2 (Qabs (v - s))); cbn; auto.
Qed.

Lemma rawEstimate_correctDrift_large (v s : Q) (e : AudioSyncEngine)
    (ctx : AudioContext) :
  audioContext e = Some ctx -> 0.2 < Qabs (v - s) ->
  rawEstimate (correctDrift v s e) == rawEstimate e + (v - s) * 0.3.
Proof.
  intros Hctx Hlt. unfold rawEstimate.
  destruct (correctDrift_fields v s e) as [Hs [Hp Hc]].
  rewrite Hc, Hctx, Hs, Hp, (correctDrift_large v s e Hlt). ring.
Qed.

(** One correction against the engine's own estimate. *)
Lemma correctDrift_against_estimate (e : AudioSyncEngine) (v : Q)
    (ctx : AudioContext) :
  audioContext e = Some ctx -> 0 <= rawEstimate e -> 0 <= v ->
  audioContext (correctDrift v (getAccurateTime e) e) = Some ctx /\
  0 <= rawEstimate (correctDrift v (getAccurateTime e) e) /\
  (Qabs (v - getAccurateTime e) <= 0.2 ->
   v - getAccurateTime (correctDrift v (getAccurateTime e) e)
   == v - getAccurateTime e) /\
  (0.2 < Qabs (v - getAccurateTime e) ->
   v - getAccurateTime (correctDrift v (getAccurateTime e) e)
   == 0.7 * (v - getAccurateTime e)).
Proof.
  intros Hctx Hraw Hv.
  pose proof (estimate_unfloored e ctx Hctx Hraw) as Hest.
  destruct (correctDrift_fields v (getAccurateTime e) e) as [_ [_ Hc]].
  rewrite Hctx in Hc.
  destruct (Qlt_le_dec 0.2 (Qabs (v - getAccurateTime e))) as [Hlt | Hle].
  - pose proof (rawEstimate_correctDrift_large v _ e ctx Hctx Hlt) as Hr.
    assert (Hraw' : 0 <= rawEstimate (correctDrift v (getAccurateTime e) e)).
    { rewrite Hr, Hest. lra. }
    split; [exact Hc | ]. split; [exact Hraw' | ]. split.
    + intros Hle. exfalso. apply (Qlt_irrefl 0.2).
      eapply Qlt_le_trans; eassumption.
    + intros _. rewrite (estimate_unfloored _ ctx Hc Hraw'), Hr, Hest. ring.
  - rewrite (correctDrift_small v _ e Hle).
    split; [exact Hctx | ]. split; [exact Hraw | ]. split.
    + intros _. reflexivity.
    + intros Hlt. exfalso. apply (Qlt_irrefl 0.2).
      eapply Qlt_le_trans; eassumption.
Qed.

(** X14: one correction against the engine's own estimate, as syncFrame
    makes it, leaves a drift of at most 0.2 s as it is and otherwise leaves
    exactly 70 % of it, when the video time is not negative and the
    estimate is not held at the floor; the estimate stays off the floor. *)
Theorem correctDrift_leaves_seventy_percent (e : AudioSyncEngine) (v : Q)
    (ctx : AudioContext) :
  audioContext e = Some ctx -> 0 <= rawEstimate e -> 0 <= v ->
  audioContext (correctDrift v (getAccurateTime e) e) = Some ctx /\
  0 <= rawEstimate (correctDrift v (getAccurateTime e) e) /\
  (Qabs (v - getAccurateTime e) <= 0.2 ->
   v - getAccurateTime (correctDrift v (getAccurateTime e) e)
   == v - getAccurateTime e) /\
  (0.2 < Qabs (v - getAccurateTime e) ->
   v - getAccurateTime (correctDrift v (getAccurateTime e) e)
   == 0.7 * (v - getAccurateTime e)).
Proof. apply correctDrift_against_estimate. Qed.

Lemma correctDrift_leaves_seventy_percent_witness :
  7 - getAccurateTime (correctDrift 7 (getAccurateTime engine_playing)
                         engine_playing) == 0.7 * (7 - 5).
Proof.
  destruct (correctDrift_leaves_seventy_percent engine_playing 7
              {| currentTime := 0 + 5 |} eq_refl
              ltac:(vm_compute; discriminate)
              ltac:(vm_compute; discriminate)) as [_ [_ [_ H]]].
  rewrite H; [reflexivity | vm_compute; reflexivity].
Defined.

(** *** The sync loop *)

Lemma syncLyrics_engine (q : Q) (a a' : App) :
  syncLyrics q a = Some a' ->
  player a' = player a /\ syncEngine a' = syncEngine a.
Proof.
  unfold syncLyrics.
  destruct (lyrics a) as [l | ]; [ | now intros [= <-]].
  destruct (newLine _ _) as [i | ]; [ | discriminate].
  destruct (negb _); now intros [= <-].
Qed.

(** One frame of the loop on a running app. *)
Lemma syncFrame_drift (a : App) (dt : Q) :
  running a -> 0 <= dt ->
  exists a',
    syncFrame (playFor dt a) = Some a' /\ running a' /\
    (Qabs (videoDrift a) <= 0.2 -> videoDrift a' == videoDrift a) /\
    (0.2 < Qabs (videoDrift a) -> videoDrift a' == 0.7 * videoDrift a).
Proof.
  intros [[p [Hp Hv]] [[ctx Hctx] Hraw]] Hdt.
  set (p1 := {| getCurrentTime := getCurrentTime p + dt;
                getDuration := getDuration p |}).
  set (e1 := elapse dt (syncEngine a)).
  set (ctx1 := {| currentTime := currentTime ctx + dt |}).
  assert (Hctx1 : audioContext e1 = Some ctx1)
    by (unfold e1, elapse; cbn; now rewrite Hctx).
  assert (Hraw1 : rawEstimate e1 == rawEstimate (syncEngine a) + dt)
    by (apply (rawEstimate_elapse dt _ ctx Hctx)).
  assert (Hraw1' : 0 <= rawEstimate e1) by (rewrite Hraw1; lra).
  assert (Hv1 : 0 <= getCurrentTime p1) by (cbn; lra).
  assert (Hd1 : getCurrentTime p1 - getAccurateTime e1 == videoDrift a).
  { unfold videoDrift. rewrite Hp.
    rewrite (estimate_unfloored e1 ctx1 Hctx1 Hraw1'), Hraw1.
    rewrite (estimate_unfloored _ ctx Hctx Hraw). cbn. ring. }
  destruct (correctDrift_against_estimate e1 (getCurrentTime p1) ctx1
              Hctx1 Hraw1' Hv1) as [Hc2 [Hraw2 [Hsmall Hlarge]]].
  unfold syncFrame, playFor. cbn [player]. rewrite Hp.
  cbn [syncEngine lyrics currentLine audioEnabled highlighted beeps].
  fold p1. fold e1.
  match goal with |- context [syncLyrics ?q ?s] =>
    destruct (syncLyrics_defined q s) as [a' Ha'] end.
  exists a'. split; [exact Ha' | ].
  destruct (syncLyrics_engine _ _ _ Ha') as [Hp' He'].
  cbn [player syncEngine] in Hp', He'.
  repeat split.
  - exists p1. split; [exact Hp' | exact Hv1].
  - exists ctx1. now rewrite He'.
  - now rewrite He'.
  - intros Hle. unfold videoDrift at 1. rewrite Hp', He'.
    rewrite <- Hd1. apply Hsmall. now rewrite Hd1.
  - intros Hlt. unfold videoDrift at 1. rewrite Hp', He'.
    rewrite <- Hd1. apply Hlarge. now rewrite Hd1.
Qed.

Lemma decay_scale (n : nat) : forall d, decay n d == decay n 1 * d.
Proof.
  induction n as [ | n IH]; intros d; cbn [decay]; [ring | ].
  rewrite (IH (0.7 * d)), (IH (0.7 * 1)). ring.
Qed.

Lemma decay_nonneg (n : nat) : forall d, 0 <= d -> 0 <= decay n d.
Proof.
  induction n as [ | n IH]; intros d Hd; cbn [decay]; [exact Hd | ].
  apply IH. lra.
Qed.

Lemma decay_abs (n : nat) (d : Q) : Qabs (decay n d) == decay n (Qabs d).
Proof.
  rewrite decay_scale, (decay_scale n (Qabs d)), Qabs_Qmult.
  rewrite (Qabs_pos (decay n 1)); [reflexivity | ].
  apply decay_nonneg. lra.
Qed.

(** After the frames [dts] the drift is within the tolerance or within
    what [decay] leaves of the first drift. *)
Lemma syncFrames_drift (dts : list Q) :
  Forall (fun dt => 0 <= dt) dts ->
  forall a, running a ->
  exists a',
    syncFrames dts a = Some a' /\ running a' /\
    Qabs (videoDrift a')
    <= Qmax 0.2 (decay (List.length dts) (Qabs (videoDrift a))).
Proof.
  induction 1 as [ | dt dts Hdt Hdts IH]; intros a Ha.
  - exists a. split; [reflexivity | ]. split; [exact Ha | ].
    cbn. apply Q.le_max_r.
  - destruct (syncFrame_drift a dt Ha Hdt) as [a1 [H1 [Hr1 [Hsmall Hlarge]]]].
    destruct (IH a1 Hr1) as [a' [Ha' [Hr' Hb]]].
    exists a'. cbn [syncFrames]. rewrite H1.
    split; [exact Ha' | ]. split; [exact Hr' | ].
    cbn [List.length decay].
    destruct (Qlt_le_dec 0.2 (Qabs (videoDrift a))) as [Hlt | Hle].
    + eapply Qle_trans; [exact Hb | ]. apply Q.max_le_compat_l.
      rewrite decay_scale, (decay_scale _ (0.7 * _)).
      rewrite (Hlarge Hlt), Qabs_Qmult.
      apply Qle_lteq. right. reflexivity.
    + eapply Qle_trans; [exact Hb | ]. apply Q.max_lub; [apply Q.le_max_l | ].
      rewrite decay_scale, (Hsmall Hle).
      eapply Qle_trans; [ | apply Q.le_max_l].
      assert (H1' : 0 <= decay (List.length dts) 1 <= 1).
      { split; [apply decay_nonneg; lra | ].
        clear. induction (List.length dts) as [ | n IHn]; cbn [decay];
          [lra | ].
        rewrite decay_scale. 
        assert (0 <= decay n 1) by (apply decay_nonneg; lra). nra. }
      assert (H0 : 0 <= Qabs (videoDrift a)) by apply Qabs_nonneg.
      nra.
Qed.

Lemma pro_drifting_running : running pro_drifting.
Proof.
  split; [ | split].
  - eexists. split; [reflexivity | ]. cbn. lra.
  - eexists. reflexivity.
  - vm_compute. discriminate.
Qed.

(** X15: on a running app, after frames any non-negative intervals apart,
    the drift between the video and the estimate is within the tolerance
    of 0.2 s or within 0.7 to the power of the number of frames times the
    drift at the start. *)
Theorem sync_loop_bounds_drift (dts : list Q) (a : App) :
  Forall (fun dt => 0 <= dt) dts -> running a ->
  exists a',
    syncFrames dts a = Some a' /\
    Qabs (videoDrift a')
    <= Qmax 0.2 (decay (List.length dts) (Qabs (videoDrift a))).
Proof.
  intros Hdts Ha.
  destruct (syncFrames_drift dts Hdts a Ha) as [a' [Ha' [_ Hb]]].
  exists a'. split; assumption.
Qed.

Lemma sync_loop_bounds_drift_witness :
  exists a',
    syncFrames [0.016; 0.016; 0.016] pro_drifting = Some a' /\
    Qabs (videoDrift a') <= Qmax 0.2 (decay 3 2).
Proof.
  destruct (sync_loop_bounds_drift [0.016; 0.016; 0.016] pro_drifting)
    as [a' [Ha' Hb]].
  - repeat constructor; vm_compute; discriminate.
  - exact pro_drifting_running.
  - exists a'. split; [exact Ha' | exact Hb].
Defined.

Lemma decay_harmonic (n : nat) :
  forall d, 0 <= d ->
    decay n d * (1 + (3 # 7) * inject_Z (Z.of_nat n)) <= d.
Proof.
  induction n as [ | n IH]; intros d Hd.
  - cbn [decay]. change (inject_Z (Z.of_nat 0)) with 0. lra.
  - cbn [decay].
    assert (Hd' : 0 <= 0.7 * d) by lra.
    pose proof (IH _ Hd') as Hn.
    pose proof (decay_nonneg n _ Hd') as H0.
    assert (Hk : 0 <= inject_Z (Z.of_nat n)).
    { change 0 with (inject_Z 0). rewrite <- Zle_Qle. lia. }
    assert (Hs : inject_Z (Z.of_nat (S n)) == inject_Z (Z.of_nat n) + 1).
    { rewrite Nat2Z.inj_succ. unfold Z.succ. rewrite inject_Z_plus.
      reflexivity. }
    rewrite Hs.
    set (y := decay n (0.7 * d)) in *. set (k := inject_Z (Z.of_nat n)) in *.
    nra.
Qed.

(** Enough frames bring any drift under the tolerance. *)
Lemma decay_settles (d : Q) :
  0 <= d ->
  forall n, (Z.to_nat (Qceiling (12 * d)) <= n)%nat -> decay n d <= 0.2.
Proof.
  intros Hd n Hn.
  pose proof (decay_harmonic n d Hd) as Hh.
  pose proof (decay_nonneg n d Hd) as H0.
  assert (Hk : 12 * d <= inject_Z (Z.of_nat n)).
  { eapply Qle_trans; [apply Qle_ceiling | ].
    rewrite <- Zle_Qle. lia. }
  set (y := decay n d) in *. set (k := inject_Z (Z.of_nat n)) in *.
  nra.
Qed.

(** X16: on a running app the loop settles: there is a number of frames
    after which, whatever the non-negative intervals between the frames,
    the drift between the video and the estimate is at most 0.2 s. *)
Theorem sync_loop_settles (a : App) :
  running a ->
  exists n, forall dts,
    (n <= List.length dts)%nat -> Forall (fun dt => 0 <= dt) dts ->
    exists a',
      syncFrames dts a = Some a' /\ Qabs (videoDrift a') <= 0.2.
Proof.
  intros Ha. exists (Z.to_nat (Qceiling (12 * Qabs (videoDrift a)))).
  intros dts Hn Hdts.
  destruct (syncFrames_drift dts Hdts a Ha) as [a' [Ha' [_ Hb]]].
  exists a'. split; [exact Ha' | ].
  eapply Qle_trans; [exact Hb | ].
  apply Q.max_lub; [apply Qle_refl | ].
  apply decay_settles; [apply Qabs_nonneg | exact Hn].
Qed.

Lemma sync_loop_settles_witness :
  exists n, forall dts,
    (n <= List.length dts)%nat -> Forall (fun dt => 0 <= dt) dts ->
    exists a',
      syncFrames dts pro_drifting = Some a' /\ Qabs (videoDrift a') <= 0.2.
Proof. apply (sync_loop_settles pro_drifting pro_drifting_running). Defined.

End Estimate.

(** ** The displays *)

Section Displays.
Import JS.
Local Open Scope string_scope.

(** X17: on a tick with a positive finite duration and a time between 0
    and that duration, both loops write a percentage between 0 and 100 to
    the progress display. *)
Theorem progress_between_0_and_100 (p : Player) (d : Q) :
  getDuration p = Fin d -> (0 < d)%Q ->
  (forall st, AppJs.player st = Some p ->
     (0 <= getCurrentTime p <= d)%Q ->
     exists st' x, AppJs.updateProgress st = Some st' /\
       AppJs.progressFill st' = Fin x /\ (0 <= x <= 100)%Q) /\
  (forall a, Pro.player a = Some p ->
     (Pro.getAccurateTime (Pro.syncEngine a) <= d)%Q ->
     exists a' x, Pro.syncFrame a = Some a' /\
       Pro.progressFill a' = Fin x /\ (0 <= x <= 100)%Q).
Proof.
  intros Hdur Hd.
  assert (Hd0 : ~ d == 0) by (intros H; rewrite H in Hd; discriminate).
  assert (Hrange : forall t, (0 <= t <= d)%Q -> (0 <= t / d * 100 <= 100)%Q).
  { intros t [H0 H1]. split.
    - apply Qmult_le_0_compat; [ | discriminate].
      apply Qle_shift_div_l; lra.
    - assert (t / d <= 1)%Q by (apply Qle_shift_div_r; lra). lra. }
  split.
  - intros st Hp Ht. unfold AppJs.updateProgress. rewrite Hp, Hdur.
    rewrite percent_finite by exact Hd0.
    destruct (AppJs.hasSyncedLyrics _).
    + match goal with |- context [AppJs.syncLyricsToTime ?q ?s] =>
        destruct (syncLyricsToTime_defined q s) as [st' Hst'] end.
      exists st', (getCurrentTime p / d * 100)%Q.
      split; [exact Hst' | ].
      rewrite (syncLyricsToTime_progressFill _ _ _ Hst'). auto.
    + eexists. exists (getCurrentTime p / d * 100)%Q. auto.
  - intros a Hp Ht. unfold Pro.syncFrame. rewrite Hp, Hdur.
    rewrite percent_finite by exact Hd0.
    match goal with |- context [Pro.syncLyrics ?q ?s] =>
      destruct (syncLyrics_defined q s) as [a' Ha'] end.
    exists a', (Pro.getAccurateTime (Pro.syncEngine a) / d * 100)%Q.
    split; [exact Ha' | ].
    rewrite (syncLyrics_progressFill _ _ _ Ha'). split; [reflexivity | ].
    apply Hrange. split; [ | exact Ht].
    unfold Pro.getAccurateTime.
    destruct (Pro.audioContext _); [apply Q.le_max_l | apply Qle_refl].
Qed.

Lemma progress_between_0_and_100_witness :
  exists st' x,
    AppJs.updateProgress
      {| AppJs.player := Some player_quarter;
         AppJs.syncedLyrics := track_abc;
         AppJs.hasSyncedLyrics := true;
         AppJs.currentLineIndex := (-1)%Z;
         AppJs.progressFill := Fin 0;
         AppJs.highlighted := [] |} = Some st' /\
    AppJs.progressFill st' = Fin x /\ (0 <= x <= 100)%Q.
Proof.
  apply (proj1 (progress_between_0_and_100 player_quarter 200 eq_refl
                  eq_refl)).
  - reflexivity.
  - split; vm_compute; discriminate.
Defined.

(** *** formatTime *)






(** *** The font size *)

(** X19: the buttons keep the font size between 0.7 and 2.6 rem: from any
    size in that range, any sequence of clicks leads to a size in it. *)
Theorem font_size_stays_in_range (clicks : list FontClick) (size : Q) :
  (0.7 <= size <= 2.6)%Q ->
  (0.7 <= fold_left (fun s c => fontClick c s) clicks size <= 2.6)%Q.
Proof.
  revert size. induction clicks as [ | c clicks IH]; intros size Hs;
    cbn [fold_left]; [exact Hs | ].
  apply IH. destruct c; cbn [fontClick].
  - unfold AppJs.fontIncrease.
    destruct (Qlt_le_dec size 2.5); lra.
  - unfold AppJs.fontDecrease.
    destruct (Qlt_le_dec 0.8 size); lra.
Qed.

Lemma font_size_stays_in_range_witness :
  (0.7 <= fold_left (fun s c => fontClick c s)
            [Increase; Increase; Decrease] 1.4 <= 2.6)%Q.
Proof.
  apply (font_size_stays_in_range [Increase; Increase; Decrease] 1.4).
  split; vm_compute; discriminate.
Defined.

End Displays.

(** ** The lyrics services *)

Section Services.
Import JS.
Local Open Scope string_scope.

Lemma sorted_by_index {A : Type} (R : A -> A -> Prop) (l : list A) :
  (forall i j a b, (i < j)%nat ->
     nth_error l i = Some a -> nth_error l j = Some b -> R a b) ->
  StronglySorted R l.
Proof.
  induction l as [ | x l IH]; intros H; constructor.
  - apply IH. intros i j a b Hij Ha Hb. apply (H (S i) (S j)); auto. lia.
  - apply Forall_forall. intros y Hy.
    apply In_nth_error in Hy as [k Hk].
    apply (H 0%nat (S k)); auto. lia.
Qed.

Lemma mapIndexed_nth {A B : Type} (f : A -> nat -> B) (l : list A) :
  forall i k,
    nth_error (Pro.mapIndexed f i l) k
    = option_map (fun x => f x (i + k)%nat) (nth_error l k).
Proof.
  induction l as [ | x l IH]; intros i k; cbn.
  - now destruct k.
  - destruct k as [ | k]; cbn.
    + now rewrite Nat.add_0_r.
    + rewrite IH. now rewrite Nat.add_succ_r.
Qed.

Lemma unsyncedLines_nth (s : string) (k : nat) (e : LyricEvent) :
  nth_error (Pro.unsyncedLines s) k = Some e ->
  time e = (inject_Z (Z.of_nat k) * 3)%Q /\ storedText (text e).
Proof.
  unfold Pro.unsyncedLines. rewrite mapIndexed_nth. cbn [Nat.add].
  destruct (nth_error _ k) as [txt | ] eqn:Hk; [ | discriminate].
  intros [= <-]. cbn. split; [reflexivity | ].
  apply nth_error_In, filter_In in Hk as [_ Ht].
  now apply storedText_trim.
Qed.

Lemma unsyncedLines_increasing (s : string) :
  increasing (Pro.unsyncedLines s).
Proof.
  apply sorted_by_index. intros i j a b Hij Ha Hb.
  apply unsyncedLines_nth in Ha as [-> _].
  apply unsyncedLines_nth in Hb as [-> _].
  assert (H : (inject_Z (Z.of_nat i) < inject_Z (Z.of_nat j))%Q)
    by (rewrite <- Zlt_Qlt; lia).
  lra.
Qed.

Lemma trimStart_blank (s : string) :
  truthy (trimStart s) = negb (blankLine s).
Proof.
  unfold blankLine. induction s as [ | c s IH]; [reflexivity | ].
  cbn [trimStart allChars].
  destruct (isWhiteSpace c); [exact IH | reflexivity].
Qed.

(** A line passes the filter [text => text.trim()] exactly when it is not
    blank. *)
Lemma trim_blank (s : string) : truthy (trim s) = negb (blankLine s).
Proof.
  rewrite <- trimStart_blank.
  destruct (trim s) eqn:Ht.
  - apply trim_empty_trimStart in Ht. now rewrite Ht.
  - destruct (trimStart s) eqn:Hs; [ | reflexivity].
    unfold trim in Ht. rewrite Hs in Ht. discriminate.
Qed.

Lemma mapIndexed_map {A B C : Type} (f : A -> nat -> B) (g : B -> C)
    (h : A -> C) (l : list A) :
  (forall x i, g (f x i) = h x) ->
  forall i, map g (Pro.mapIndexed f i l) = map h l.
Proof.
  intros H. induction l as [ | x l IH]; intros i; cbn; [reflexivity | ].
  now rewrite H, IH.
Qed.

(** X20: the lines made of plain lyrics are the lines of the text that are
    not blank, in their order, each trimmed: the text of the line of index
    k is the k-th non-blank line without the white space at its ends, and
    its time is 3 k seconds, so the times are strictly increasing. *)
Theorem unsyncedLines_three_seconds_apart (s : string) :
  increasing (Pro.unsyncedLines s) /\
  map text (Pro.unsyncedLines s)
  = map trim (filter (fun l => negb (blankLine l)) (split "010" s)) /\
  (forall k e, nth_error (Pro.unsyncedLines s) k = Some e ->
     time e == inject_Z (Z.of_nat k) * 3 /\ storedText (text e) /\
     exists l,
       nth_error (filter (fun l => negb (blankLine l)) (split "010" s)) k
       = Some l /\ text e = trim l).
Proof.
  assert (Hf : filter (fun txt => truthy (trim txt)) (split "010" s)
               = filter (fun l => negb (blankLine l)) (split "010" s)).
  { apply filter_ext. intros l. apply trim_blank. }
  split; [ | split].
  - apply unsyncedLines_increasing.
  - unfold Pro.unsyncedLines. rewrite Hf. now apply mapIndexed_map.
  - intros k e He. pose proof (unsyncedLines_nth _ _ _ He) as [Ht Hst].
    split; [now rewrite Ht | split; [exact Hst | ]].
    unfold Pro.unsyncedLines in He. rewrite mapIndexed_nth, Hf in He.
    destruct (nth_error _ k) as [l | ]; [ | discriminate].
    injection He as <-. exists l. split; reflexivity.
Qed.

Lemma unsyncedLines_three_seconds_apart_witness :
  exists e,
    nth_error (Pro.unsyncedLines plain_three_lines) 1 = Some e /\
    time e == 3 /\ text e = "two".
Proof.
  destruct (nth_error (Pro.unsyncedLines plain_three_lines) 1) as [e | ] eqn:He;
    [ | vm_compute in He; discriminate].
  destruct (proj2 (proj2 (unsyncedLines_three_seconds_apart
                            plain_three_lines)) 1%nat e He)
    as [Ht [_ [l [Hl Htxt]]]].
  vm_compute in Hl. injection Hl as <-.
  exists e. split; [reflexivity | split; [exact Ht | exact Htxt]].
Defined.

Lemma parseLRC_result (s : string) (ls : list LyricEvent) :
  Pro.parseLRC s = Done ls -> ascending ls /\ Forall eventOk ls.
Proof.
  intros Hs. destruct (parseLRC_events_ok s) as [events [He Hok]].
  rewrite Hs in He. injection He as <-. split; [ | exact Hok].
  destruct (matchedLines_total s) as [x Hx].
  specialize (Hx (S (String.length s)) ltac:(lia)).
  unfold Pro.parseLRC, Pro.parseLRC_fuel in Hs. rewrite Hx in Hs.
  injection Hs as <-. apply sortByTime_ascending.
Qed.

(** X21: whatever the two services answer, fetchWithFallback ends.  A
    result marked synced comes from LRCLIB's non-empty synced lyrics, read
    by parseLRC, and is sorted ascending by time; a result not marked
    synced comes from Lyrics.ovh, is used only when LRCLIB gave no synced
    lyrics, and has the lines three seconds apart; with neither, the
    function throws. *)
Theorem fetchWithFallback_results (lrclib : Pro.Response Pro.LrclibData)
    (ovh : Pro.Response Pro.OvhData) :
  exists r,
    Pro.fetchWithFallback lrclib ovh = Done r /\
    match r with
    | Pro.Returned sr =>
        (Pro.found_synced (Pro.result sr) = true /\
         Pro.source sr = "LRCLIB" /\
         ascending (Pro.found_lines (Pro.result sr)) /\
         exists s, lrclib = Pro.Ok {| Pro.syncedLyrics := Some s |} /\
           truthy s = true /\
           Pro.parseLRC s = Done (Pro.found_lines (Pro.result sr)))
        \/
        (Pro.found_synced (Pro.result sr) = false /\
         Pro.source sr = "Lyrics.ovh" /\
         increasing (Pro.found_lines (Pro.result sr)) /\
         (forall s, lrclib = Pro.Ok {| Pro.syncedLyrics := Some s |} ->
            truthy s = false) /\
         exists s, ovh = Pro.Ok {| Pro.lyricsText := Some s |} /\
           Pro.found_lines (Pro.result sr) = Pro.unsyncedLines s)
    | Pro.Threw =>
        (forall s, lrclib = Pro.Ok {| Pro.syncedLyrics := Some s |} ->
           truthy s = false) /\
        (forall s, ovh <> Pro.Ok {| Pro.lyricsText := Some s |})
    end.
Proof.
  assert (Hovh : forall (Hl : forall s,
              lrclib = Pro.Ok {| Pro.syncedLyrics := Some s |} ->
              truthy s = false),
            exists r,
              match Pro.fetchLyricsOvh ovh with
              | Pro.Returned (Some r1) =>
                  Done (Pro.Returned {| Pro.result := r1;
                                        Pro.source := "Lyrics.ovh" |})
              | _ => Done Pro.Threw
              end = Done r /\
              match r with
              | Pro.Returned sr =>
                  Pro.found_synced (Pro.result sr) = false /\
                  Pro.source sr = "Lyrics.ovh" /\
                  increasing (Pro.found_lines (Pro.result sr)) /\
                  (forall s,
                     lrclib = Pro.Ok {| Pro.syncedLyrics := Some s |} ->
                     truthy s = false) /\
                  exists s, ovh = Pro.Ok {| Pro.lyricsText := Some s |} /\
                    Pro.found_lines (Pro.result sr) = Pro.unsyncedLines s
              | Pro.Threw =>
                  (forall s,
                     lrclib = Pro.Ok {| Pro.syncedLyrics := Some s |} ->
                     truthy s = false) /\
                  (forall s, ovh <> Pro.Ok {| Pro.lyricsText := Some s |})
              end).
  { intros Hl.
    destruct ovh as [ | | [[s | ]]]; cbn.
    - exists Pro.Threw. split; [reflexivity | ]. split; [exact Hl | ].
      intros s. discriminate.
    - exists Pro.Threw. split; [reflexivity | ]. split; [exact Hl | ].
      intros s. discriminate.
    - eexists. split; [reflexivity | ]. cbn.
      split; [reflexivity | ]. split; [reflexivity | ].
      split; [apply (unsyncedLines_increasing s) | ].
      split; [exact Hl | ]. exists s. auto.
    - exists Pro.Threw. split; [reflexivity | ]. split; [exact Hl | ].
      intros s. discriminate. }
  unfold Pro.fetchWithFallback.
  destruct lrclib as [ | | [[s | ]]]; cbn [Pro.fetchLRCLIB Pro.syncedLyrics].
  - destruct (Hovh ltac:(discriminate)) as [r [Hr Hm]].
    exists r. split; [exact Hr | ]. destruct r; [right | ]; exact Hm.
  - destruct (Hovh ltac:(discriminate)) as [r [Hr Hm]].
    exists r. split; [exact Hr | ]. destruct r; [right | ]; exact Hm.
  - destruct (truthy s) eqn:Hs.
    + destruct (parseLRC_events_ok s) as [ls [Hls _]]. rewrite Hls.
      eexists. split; [reflexivity | ]. left. cbn.
      split; [reflexivity | ]. split; [reflexivity | ].
      split; [apply (parseLRC_result s ls Hls) | ]. exists s. auto.
    + assert (Hl : forall s0,
                Pro.Ok {| Pro.syncedLyrics := Some s |}
                = Pro.Ok {| Pro.syncedLyrics := Some s0 |} ->
                truthy s0 = false) by (intros s0 [= <-]; exact Hs).
      destruct (Hovh Hl) as [r [Hr Hm]].
      exists r. split; [exact Hr | ]. destruct r; [right | ]; exact Hm.
  - destruct (Hovh ltac:(discriminate)) as [r [Hr Hm]].
    exists r. split; [exact Hr | ]. destruct r; [right | ]; exact Hm.
Qed.

(** *** The fetchers of src/app.js *)

Lemma parseLrcLyrics_result (s : string) (ls : list LyricEvent) :
  AppJs.parseLrcLyrics s = Done ls -> ascending ls /\ Forall eventOk ls.
Proof.
  intros Hs. destruct (parseLrcLyrics_events_ok s) as [events [He Hok]].
  rewrite Hs in He. injection He as <-. split; [ | exact Hok].
  destruct (parsedEvents_total s) as [x Hx].
  specialize (Hx (S (String.length s)) ltac:(lia)).
  unfold AppJs.parseLrcLyrics, AppJs.parseLrcLyrics_fuel in Hs.
  rewrite Hx in Hs. injection Hs as <-. apply sortByTime_ascending.
Qed.

Lemma plain_result_ok (p : string) :
  truthy p && truthy (trim p) = true ->
  resultOk {| AppJsLyrics.synced := false; AppJsLyrics.raw := None;
              AppJsLyrics.parsed := []; AppJsLyrics.plain := p |}.
Proof.
  intros Hp. apply andb_true_iff in Hp as [_ Hp].
  split; cbn; [discriminate | auto].
Qed.

Lemma fromTrack_ok (data : AppJsLyrics.LrclibTrack) :
  exists r, AppJsLyrics.fromTrack data = Done r /\
    forall res, r = Some res -> resultOk res.
Proof.
  assert (Hplain : exists r,
            match AppJsLyrics.plainLyrics data with
            | Some p =>
                if truthy p && truthy (trim p) then
                  Done (Some {| AppJsLyrics.synced := false;
                                AppJsLyrics.raw := None;
                                AppJsLyrics.parsed := [];
                                AppJsLyrics.plain := p |})
                else Done None
            | None => Done None
            end = Done r /\ forall res, r = Some res -> resultOk res).
  { destruct (AppJsLyrics.plainLyrics data) as [p | ].
    - destruct (truthy p && truthy (trim p)) eqn:Hp.
      + eexists. split; [reflexivity | ]. intros res [= <-].
        now apply plain_result_ok.
      + exists None. split; [reflexivity | discriminate].
    - exists None. split; [reflexivity | discriminate]. }
  unfold AppJsLyrics.fromTrack.
  destruct (AppJsLyrics.syncedLyrics data) as [s | ]; [ | exact Hplain].
  destruct (truthy s && truthy (trim s)) eqn:Hs; [ | exact Hplain].
  destruct (parseLrcLyrics_events_ok s) as [evs [Hevs _]]. rewrite Hevs.
  destruct (stripTimestamps_defined s) as [t Ht]. rewrite Ht.
  apply andb_true_iff in Hs as [_ Hs].
  assert (Hok : forall p,
            resultOk {| AppJsLyrics.synced := true;
                        AppJsLyrics.raw := Some s;
                        AppJsLyrics.parsed := evs;
                        AppJsLyrics.plain := p |}).
  { intros p. split; cbn; [ | discriminate]. intros _. exists s. auto. }
  destruct (AppJsLyrics.plainLyrics data) as [p | ];
    [destruct (truthy p) | ];
    (eexists; split; [reflexivity | intros res [= <-]; apply Hok]).
Qed.

Lemma fetchFromLrclib_ok (get : Pro.Response AppJsLyrics.LrclibTrack)
    (search : Pro.Response (option (list AppJsLyrics.LrclibTrack))) :
  exists r, AppJsLyrics.fetchFromLrclib get search = Done r /\
    forall res, r = Pro.Returned res -> resultOk res.
Proof.
  assert (Hsearch : exists r,
            match search with
            | Pro.Ok (Some (best :: _)) =>
                match AppJsLyrics.fromTrack best with
                | Done (Some r0) => Done (Pro.Returned r0)
                | Done None => Done Pro.Threw
                | OutOfFuel => OutOfFuel
                | NaNTime => NaNTime
                end
            | _ => Done Pro.Threw
            end = Done r /\ forall res, r = Pro.Returned res -> resultOk res).
  { destruct search as [ | | [[ | best rest] | ]];
      try (exists Pro.Threw; split; [reflexivity | discriminate]).
    destruct (fromTrack_ok best) as [[r0 | ] [Hr0 Hok]]; rewrite Hr0.
    - eexists. split; [reflexivity | ]. intros res [= <-]. now apply Hok.
    - exists Pro.Threw. split; [reflexivity | discriminate]. }
  unfold AppJsLyrics.fetchFromLrclib.
  destruct get as [ | | data]; try exact Hsearch.
  destruct (fromTrack_ok data) as [[r0 | ] [Hr0 Hok]]; rewrite Hr0.
  - eexists. split; [reflexivity | ]. intros res [= <-]. now apply Hok.
  - exact Hsearch.
Qed.

Lemma fetchLyrics_ok (get : Pro.Response AppJsLyrics.LrclibTrack)
    (search : Pro.Response (option (list AppJsLyrics.LrclibTrack)))
    (ovh : Pro.Response Pro.OvhData) :
  exists r, AppJsLyrics.fetchLyrics get search ovh = Done r /\
    forall res, r = Pro.Returned res -> resultOk res.
Proof.
  unfold AppJsLyrics.fetchLyrics.
  destruct (fetchFromLrclib_ok get search) as [[r0 | ] [Hr0 Hok]]; rewrite Hr0.
  - eexists. split; [reflexivity | ]. intros res [= <-]. now apply Hok.
  - eexists. split; [reflexivity | ].
    unfold AppJsLyrics.fetchFromLyricsOvh.
    destruct ovh as [ | | [[s | ]]]; cbn; try discriminate.
    destruct (truthy s && truthy (trim s)) eqn:Hs; [ | discriminate].
    intros res [= <-]. now apply plain_result_ok.
Qed.

(** X24: whatever LRCLIB's two endpoints and Lyrics.ovh answer, fetchLyrics
    ends, and a result it returns is of one of two kinds: synced, with the
    non-blank text it was parsed from and the events of parseLrcLyrics,
    sorted ascending by time; or not synced, with no events and a plain
    text that is not blank. *)
Theorem fetchLyrics_results (get : Pro.Response AppJsLyrics.LrclibTrack)
    (search : Pro.Response (option (list AppJsLyrics.LrclibTrack)))
    (ovh : Pro.Response Pro.OvhData) :
  exists r, AppJsLyrics.fetchLyrics get search ovh = Done r /\
    match r with
    | Pro.Returned res =>
        resultOk res /\ ascending (AppJsLyrics.parsed res) /\
        Forall eventOk (AppJsLyrics.parsed res)
    | Pro.Threw => True
    end.
Proof.
  destruct (fetchLyrics_ok get search ovh) as [r [Hr Hok]].
  exists r. split; [exact Hr | ]. destruct r as [res | ]; [ | exact I].
  specialize (Hok res eq_refl). split; [exact Hok | ].
  destruct (AppJsLyrics.synced res) eqn:Hs.
  - destruct (proj1 Hok Hs) as [s [_ [_ Hp]]].
    now apply (parseLrcLyrics_result s).
  - destruct (proj2 Hok Hs) as [_ [-> _]]. split; constructor.
Qed.

(** X25: after displayLyrics of a result of fetchLyrics, hasSyncedLyrics is
    set exactly when the result is synced and has events, and the array
    the sync path scans is sorted ascending by time. *)
Theorem displayLyrics_of_fetched (get : Pro.Response AppJsLyrics.LrclibTrack)
    (search : Pro.Response (option (list AppJsLyrics.LrclibTrack)))
    (ovh : Pro.Response Pro.OvhData) (res : AppJsLyrics.LyricsResult)
    (st : AppJs.State) :
  AppJsLyrics.fetchLyrics get search ovh = Done (Pro.Returned res) ->
  (AppJs.hasSyncedLyrics (AppJsLyrics.displayLyrics res st) = true <->
   AppJsLyrics.synced res = true /\ AppJsLyrics.parsed res <> []) /\
  (AppJs.hasSyncedLyrics (AppJsLyrics.displayLyrics res st) = true ->
   AppJs.syncedLyrics (AppJsLyrics.displayLyrics res st) <> []) /\
  ascending (AppJs.syncedLyrics (AppJsLyrics.displayLyrics res st)) /\
  Forall eventOk (AppJs.syncedLyrics (AppJsLyrics.displayLyrics res st)).
Proof.
  intros Hf. destruct (fetchLyrics_ok get search ovh) as [r [Hr Hok]].
  rewrite Hf in Hr. injection Hr as <-. specialize (Hok res eq_refl).
  assert (Hhas : AppJs.hasSyncedLyrics (AppJsLyrics.displayLyrics res st) = true
                 <-> AppJsLyrics.synced res = true
                     /\ AppJsLyrics.parsed res <> []).
  { unfold AppJsLyrics.displayLyrics. cbn [AppJs.hasSyncedLyrics].
    destruct (AppJsLyrics.synced res); destruct (AppJsLyrics.parsed res);
      cbn; split; try discriminate; try (intros [H1 H2]; congruence).
    intros _. split; [reflexivity | discriminate]. }
  split; [exact Hhas | ]. split; [intros H; now apply Hhas in H | ].
  cbn [AppJsLyrics.displayLyrics AppJs.syncedLyrics].
  destruct (AppJsLyrics.synced res) eqn:Hs.
  - destruct (proj1 Hok Hs) as [s [_ [_ Hp]]].
    now apply (parseLrcLyrics_result s).
  - destruct (proj2 Hok Hs) as [_ [-> _]]. split; constructor.
Qed.

Lemma displayLyrics_of_fetched_witness :
  exists res,
    AppJsLyrics.fetchLyrics lrclib_two_lines Pro.Rejected Pro.Rejected
    = Done (Pro.Returned res) /\
    AppJs.hasSyncedLyrics (AppJsLyrics.displayLyrics res appjs_loading) = true /\
    ascending (AppJs.syncedLyrics (AppJsLyrics.displayLyrics res appjs_loading)).
Proof.
  eexists. split; [vm_compute; reflexivity | ].
  match goal with |- AppJs.hasSyncedLyrics (AppJsLyrics.displayLyrics ?r _) = _ /\ _ =>
    destruct (displayLyrics_of_fetched lrclib_two_lines Pro.Rejected
                Pro.Rejected r appjs_loading) as [Hh [_ [Ha _]]]
  end.
  - vm_compute. reflexivity.
  - split; [ | exact Ha]. apply Hh. split; [reflexivity | discriminate].
Defined.

End Services.

(** ** The video id of a URL *)

Section VideoId.
Import JS.
Local Open Scope string_scope.

Lemma litStr_inv (p s r : string) : litStr p s = Some r -> s = p ++ r.
Proof.
  revert s. induction p as [ | c p IH]; intros s; cbn [litStr].
  - now intros [= ->].
  - destruct (lit c s) as [s' | ] eqn:Hl; [ | discriminate].
    apply lit_inv in Hl as ->. intros H. cbn. f_equal. now apply IH.
Qed.

Lemma idChars_inv (n : nat) (s cs r : string) :
  idChars n s = Some (cs, r) ->
  s = cs ++ r /\ String.length cs = n /\ allChars isIdChar cs = true.
Proof.
  revert s cs r. induction n as [ | n IH]; intros s cs r; cbn [idChars].
  - intros [= <- <-]. auto.
  - destruct s as [ | x s]; [discriminate | ].
    destruct (isIdChar x) eqn:Hx; [ | discriminate].
    destruct (idChars n s) as [[cs' r'] | ] eqn:Hd; [ | discriminate].
    intros [= <- <-]. destruct (IH _ _ _ Hd) as [-> [<- Hall]].
    cbn. rewrite Hx, Hall. auto.
Qed.

Lemma idChars_append (cs rest : string) :
  allChars isIdChar cs = true ->
  idChars (String.length cs) (cs ++ rest) = Some (cs, rest).
Proof.
  induction cs as [ | x cs IH]; cbn; [reflexivity | ].
  intros H. apply andb_true_iff in H as [Hx Hcs].
  now rewrite Hx, (IH Hcs).
Qed.

Lemma videoId_append (id rest : string) :
  isVideoId id -> videoId (id ++ rest) = Some id.
Proof.
  intros [Hlen Hall]. unfold videoId. rewrite <- Hlen.
  now rewrite (idChars_append id rest Hall).
Qed.

Lemma firstOf_inv (alts : list string) (s id : string) :
  firstOf alts videoId s = Some id ->
  isVideoId id /\ exists p post, In p alts /\ s = p ++ id ++ post.
Proof.
  induction alts as [ | p alts IH]; cbn [firstOf]; [discriminate | ].
  destruct (litStr p s) as [s' | ] eqn:Hp.
  - destruct (videoId s') as [id' | ] eqn:Hid.
    + intros [= <-]. unfold videoId in Hid.
      destruct (idChars 11 s') as [[cs r] | ] eqn:Hc; [ | discriminate].
      injection Hid as <-.
      destruct (idChars_inv _ _ _ _ Hc) as [-> [Hlen Hall]].
      apply litStr_inv in Hp as ->.
      split; [split; assumption | ]. exists p, r. split; [now left | reflexivity].
    + intros H. destruct (IH H) as [Hv [q [post [Hq Hs]]]].
      split; [exact Hv | ]. exists q, post. split; [now right | exact Hs].
  - intros H. destruct (IH H) as [Hv [q [post [Hq Hs]]]].
    split; [exact Hv | ]. exists q, post. split; [now right | exact Hs].
Qed.

Lemma searchFor_inv (m : string -> option string) (s id : string) :
  searchFor m s = Some id -> exists pre t, s = pre ++ t /\ m t = Some id.
Proof.
  induction s as [ | c s IH]; cbn [searchFor].
  - destruct (m "") eqn:Hm; [ | discriminate].
    intros [= <-]. exists "", "". auto.
  - destruct (m (String c s)) eqn:Hm.
    + intros [= <-]. exists "", (String c s). auto.
    + intros H. destruct (IH H) as [pre [t [-> Ht]]].
      exists (String c pre), t. auto.
Qed.

Lemma extract_inv (watch shorts : list string) (url id : string) :
  match searchFor (firstOf watch videoId) url with
  | Some i => Some i
  | None => searchFor (firstOf shorts videoId) url
  end = Some id ->
  isVideoId id /\
  exists pre p post, In p (watch ++ shorts)%list /\ url = pre ++ p ++ id ++ post.
Proof.
  destruct (searchFor (firstOf watch videoId) url) as [i | ] eqn:Hw.
  - intros [= ->]. apply searchFor_inv in Hw as [pre [t [-> Ht]]].
    apply firstOf_inv in Ht as [Hv [p [post [Hp ->]]]].
    split; [exact Hv | ]. exists pre, p, post.
    split; [apply in_or_app; now left | reflexivity].
  - intros Hs. apply searchFor_inv in Hs as [pre [t [-> Ht]]].
    apply firstOf_inv in Ht as [Hv [p [post [Hp ->]]]].
    split; [exact Hv | ]. exists pre, p, post.
    split; [apply in_or_app; now right | reflexivity].
Qed.

(** X22: an id that extractYouTubeVideoId (src/app.js) or extractVideoId
    (src/unnamed/part_001) returns is made of eleven characters of
    [a-zA-Z0-9_-] and stands in the URL right behind one of the prefixes
    the patterns list. *)
Theorem extracted_id_follows_prefix (url id : string) :
  (AppJs.extractYouTubeVideoId url = Some id ->
   isVideoId id /\
   exists pre p post,
     In p (AppJs.watchPrefixes ++ AppJs.shortsPrefixes)%list /\
     url = pre ++ p ++ id ++ post) /\
  (Pro.extractVideoId url = Some id ->
   isVideoId id /\
   exists pre p post,
     In p (Pro.watchPrefixes ++ Pro.shortsPrefixes)%list /\
     url = pre ++ p ++ id ++ post).
Proof. split; apply extract_inv. Qed.

Lemma extracted_id_follows_prefix_witness :
  isVideoId "dQw4w9WgXcQ" /\
  exists pre p post,
    In p (AppJs.watchPrefixes ++ AppJs.shortsPrefixes)%list /\
    "see https://youtu.be/dQw4w9WgXcQ?t=3" = pre ++ p ++ "dQw4w9WgXcQ" ++ post.
Proof.
  apply (proj1 (extracted_id_follows_prefix
                  "see https://youtu.be/dQw4w9WgXcQ?t=3" "dQw4w9WgXcQ")).
  reflexivity.
Defined.

Lemma allChars_append (f : ascii -> bool) (a b : string) :
  allChars f (a ++ b) = allChars f a && allChars f b.
Proof.
  induction a as [ | c a IH]; cbn; [reflexivity | ].
  now rewrite IH, andb_assoc.
Qed.

Lemma idChar_notDot (s : string) :
  allChars isIdChar s = true -> allChars notDot s = true.
Proof.
  induction s as [ | c s IH]; cbn; [reflexivity | ].
  intros H. apply andb_true_iff in H as [Hc Hs]. rewrite (IH Hs), andb_true_r.
  unfold notDot. destruct (Ascii.eqb_spec c "."%char) as [-> | _];
    [discriminate | reflexivity].
Qed.

(** Where there is no dot the first pattern matches nowhere. *)
Lemma firstOf_needs_dot (alts : list string) (s : string) :
  Forall (fun p => allChars notDot p = false) alts ->
  allChars notDot s = true -> firstOf alts videoId s = None.
Proof.
  intros Halts Hs. induction Halts as [ | p alts Hp _ IH]; cbn [firstOf];
    [reflexivity | ].
  destruct (litStr p s) as [s' | ] eqn:Hl; [ | exact IH].
  apply litStr_inv in Hl as ->. rewrite allChars_append, Hp in Hs.
  discriminate.
Qed.

Lemma searchFor_needs_dot (alts : list string) (s : string) :
  Forall (fun p => allChars notDot p = false) alts ->
  allChars notDot s = true -> searchFor (firstOf alts videoId) s = None.
Proof.
  intros Halts. induction s as [ | c s IH]; intros Hs; cbn [searchFor].
  - now rewrite (firstOf_needs_dot alts "" Halts).
  - rewrite (firstOf_needs_dot alts _ Halts Hs).
    cbn in Hs. apply andb_true_iff in Hs as [_ Hs]. now apply IH.
Qed.

(** X23: the usual URLs give their id back: for every video id and
    whatever follows it, the watch, youtu.be and embed forms in both
    scripts, the /v/ form in src/app.js, and the shorts form when no dot
    follows the id. *)
Theorem extract_id_of_usual_urls (id rest : string) :
  isVideoId id ->
  AppJs.extractYouTubeVideoId
    ("https://www.youtube.com/watch?v=" ++ id ++ rest) = Some id /\
  AppJs.extractYouTubeVideoId ("https://youtu.be/" ++ id ++ rest) = Some id /\
  AppJs.extractYouTubeVideoId
    ("https://www.youtube.com/embed/" ++ id ++ rest) = Some id /\
  AppJs.extractYouTubeVideoId
    ("https://www.youtube.com/v/" ++ id ++ rest) = Some id /\
  Pro.extractVideoId
    ("https://www.youtube.com/watch?v=" ++ id ++ rest) = Some id /\
  Pro.extractVideoId ("https://youtu.be/" ++ id ++ rest) = Some id /\
  Pro.extractVideoId
    ("https://www.youtube.com/embed/" ++ id ++ rest) = Some id /\
  (allChars notDot rest = true ->
   AppJs.extractYouTubeVideoId
     ("https://www.youtube.com/shorts/" ++ id ++ rest) = Some id /\
   Pro.extractVideoId
     ("https://www.youtube.com/shorts/" ++ id ++ rest) = Some id).
Proof.
  intros Hid. pose proof (videoId_append id rest Hid) as Hv.
  repeat match goal with |- _ /\ _ => split end.
  1-7: unfold AppJs.extractYouTubeVideoId, Pro.extractVideoId,
         AppJs.watchPrefixes, Pro.watchPrefixes;
       cbn [append searchFor firstOf litStr lit Ascii.eqb Bool.eqb andb];
       rewrite Hv; reflexivity.
  intros Hrest.
  assert (Hnd : allChars notDot (id ++ rest) = true).
  { rewrite allChars_append, Hrest. destruct Hid as [_ Hall].
    now rewrite (idChar_notDot id Hall). }
  assert (Hw1 : searchFor (firstOf AppJs.watchPrefixes videoId) (id ++ rest)
                = None).
  { apply searchFor_needs_dot; [ | exact Hnd].
    repeat constructor. }
  assert (Hw2 : searchFor (firstOf Pro.watchPrefixes videoId) (id ++ rest)
                = None).
  { apply searchFor_needs_dot; [ | exact Hnd].
    repeat constructor. }
  split.
  - unfold AppJs.extractYouTubeVideoId.
    assert (H : searchFor (firstOf AppJs.watchPrefixes videoId)
                  ("https://www.youtube.com/shorts/" ++ id ++ rest) = None).
    { unfold AppJs.watchPrefixes in *.
      cbn [append searchFor firstOf litStr lit Ascii.eqb Bool.eqb andb].
      exact Hw1. }
    rewrite H. unfold AppJs.shortsPrefixes.
    cbn [append searchFor firstOf litStr lit Ascii.eqb Bool.eqb andb].
    now rewrite Hv.
  - unfold Pro.extractVideoId.
    assert (H : searchFor (firstOf Pro.watchPrefixes videoId)
                  ("https://www.youtube.com/shorts/" ++ id ++ rest) = None).
    { unfold Pro.watchPrefixes in *.
      cbn [append searchFor firstOf litStr lit Ascii.eqb Bool.eqb andb].
      exact Hw2. }
    rewrite H. unfold Pro.shortsPrefixes.
    cbn [append searchFor firstOf litStr lit Ascii.eqb Bool.eqb andb].
    now rewrite Hv.
Qed.

Lemma extract_id_of_usual_urls_witness :
  AppJs.extractYouTubeVideoId
    "https://www.youtube.com/watch?v=dQw4w9WgXcQ&list=PL.1" = Some "dQw4w9WgXcQ".
Proof.
  apply (proj1 (extract_id_of_usual_urls "dQw4w9WgXcQ" "&list=PL.1"
                  (conj eq_refl eq_refl))).
Defined.

End VideoId.

(** ** The artist and the song of a title *)

Section Title.
Import JS.
Local Open Scope string_scope.

Lemma removeAll_empty (m : string -> option string) (k : nat) :
  removeAll m "" k = "".
Proof. reflexivity. Qed.

Lemma removeAll_skip (m : string -> option string) (u t : string) :
  removeAll m (u ++ t) (String.length u) = removeAll m t 0.
Proof.
  induction u as [ | c u IH]; cbn [append String.length]; [reflexivity | ].
  cbn [removeAll]. exact IH.
Qed.

Lemma marker_needs_open (o c : ascii) (w s : string) (x : ascii) :
  Ascii.eqb x o = false -> Pro.marker o w c (String x s) = None.
Proof. intros H. unfold Pro.marker. cbn [lit]. now rewrite H. Qed.

(** Text without the opening bracket is kept. *)
Lemma removeAll_lacks (o c : ascii) (w p q : string) :
  lacks o p = true ->
  removeAll (Pro.marker o w c) (p ++ q) 0
  = p ++ removeAll (Pro.marker o w c) q 0.
Proof.
  induction p as [ | x p IH]; cbn [append]; [reflexivity | ].
  intros H. cbn in H. apply andb_true_iff in H as [Hx Hp].
  apply negb_true_iff in Hx.
  cbn [removeAll]. rewrite (marker_needs_open o c w _ x Hx).
  now rewrite (IH Hp).
Qed.

Lemma removeAll_lacks_all (o c : ascii) (w p : string) :
  lacks o p = true -> removeAll (Pro.marker o w c) p 0 = p.
Proof.
  intros H. rewrite <- (append_empty_r p) at 1.
  rewrite (removeAll_lacks o c w p "" H). cbn. apply append_empty_r.
Qed.

Lemma litStrCI_self (w rest : string) : litStrCI w (w ++ rest) = Some rest.
Proof.
  induction w as [ | c w IH]; cbn; [reflexivity | ].
  now rewrite Ascii.eqb_refl.
Qed.

Lemma lazyUntil_first (c : ascii) (x rest : string) :
  allChars (fun a => negb (Ascii.eqb a c) && negb (isLineTerminator a)) x
  = true ->
  lazyUntil c (x ++ String c rest) = Some rest.
Proof.
  induction x as [ | a x IH]; cbn.
  - now rewrite Ascii.eqb_refl.
  - intros H. apply andb_true_iff in H as [Ha Hx].
    apply andb_true_iff in Ha as [Ha1 Ha2].
    apply negb_true_iff in Ha1, Ha2. rewrite Ha1, Ha2. now apply IH.
Qed.

(** A marker is dropped whole. *)
Lemma removeAll_marker (o c : ascii) (w x rest : string) :
  allChars (fun a => negb (Ascii.eqb a c) && negb (isLineTerminator a)) x
  = true ->
  removeAll (Pro.marker o w c) (String o (w ++ x ++ String c rest)) 0
  = removeAll (Pro.marker o w c) rest 0.
Proof.
  intros Hx. cbn [removeAll].
  assert (Hm : Pro.marker o w c (String o (w ++ x ++ String c rest))
               = Some rest).
  { unfold Pro.marker. cbn [lit]. rewrite Ascii.eqb_refl, litStrCI_self.
    now apply lazyUntil_first. }
  rewrite Hm.
  replace (w ++ x ++ String c rest) with ((w ++ x ++ String c "") ++ rest)
    by (rewrite !append_assoc; reflexivity).
  rewrite length_append, Nat.add_sub. apply removeAll_skip.
Qed.

Lemma trimEnd_append (y b : string) :
  trimEnd b <> "" -> trimEnd (y ++ b) = y ++ trimEnd b.
Proof.
  intros Hb. induction y as [ | c y IH]; [reflexivity | ].
  cbn [append]. rewrite trimEnd_cons, IH.
  destruct (y ++ trimEnd b) as [ | d r] eqn:Hy; [ | reflexivity].
  destruct y; cbn in Hy; [contradiction | discriminate].
Qed.

Lemma trimEnd_space (b : string) : trimEnd (b ++ " ") = trimEnd b.
Proof.
  induction b as [ | c b IH]; [reflexivity | ].
  cbn [append]. now rewrite !trimEnd_cons, IH.
Qed.

Lemma storedText_inv (b : string) :
  storedText b ->
  trimStart b = b /\ trimEnd b = b /\ b <> "".
Proof.
  intros [Ht Htrim]. destruct b as [ | c r]; [discriminate | ].
  assert (Hc : isWhiteSpace c = false).
  { destruct (isWhiteSpace c) eqn:Hc; [ | reflexivity].
    pose proof (trimEnd_head (trimStart (String c r))
                  (trimStart_head (String c r))) as Hh.
    unfold trim in Htrim. rewrite Htrim in Hh. congruence. }
  assert (Hs : trimStart (String c r) = String c r)
    by (cbn; now rewrite Hc).
  split; [exact Hs | ]. split; [ | discriminate].
  unfold trim in Htrim. now rewrite Hs in Htrim.
Qed.

Lemma prefix_append (sep t : string) : prefix sep (sep ++ t) = true.
Proof.
  induction sep as [ | c sep' IH]; cbn.
  - now destruct t.
  - destruct (ascii_dec c c); [apply IH | congruence].
Qed.

Lemma includes_step (sep s : string) :
  includes sep s
  = if prefix sep s then true
    else match s with
         | String _ s' => includes sep s'
         | "" => false
         end.
Proof. now destruct s. Qed.

Lemma includes_after (sep a b : string) : includes sep (a ++ sep ++ b) = true.
Proof.
  induction a as [ | c a IH]; cbn [append].
  - now rewrite includes_step, prefix_append.
  - rewrite includes_step, IH. now destruct (prefix sep _).
Qed.

Lemma prefix_inv (p s : string) :
  prefix p s = true -> exists t, s = p ++ t.
Proof.
  revert s. induction p as [ | c p IH]; intros s.
  - exists s. reflexivity.
  - destruct s as [ | d s]; [discriminate | ]. cbn.
    destruct (ascii_dec c d) as [-> | ]; [ | discriminate].
    intros H. destruct (IH _ H) as [t ->]. now exists t.
Qed.

Lemma join_cons (sep x y : string) (l : list string) :
  join sep (x :: y :: l) = x ++ sep ++ join sep (y :: l).
Proof. reflexivity. Qed.

(** Splitting and joining with the same separator gives the text back. *)
Lemma join_splitBy (sep : string) (s : string) :
  sep <> "" ->
  forall skip cur,
    join sep (fst (splitBy sep s skip cur) :: snd (splitBy sep s skip cur))
    = cur ++ slice skip s.
Proof.
  intros Hsep. induction s as [ | c s IH]; intros skip cur.
  - cbn. destruct skip; cbn; now rewrite append_empty_r.
  - destruct skip as [ | k]; cbn [splitBy slice].
    + destruct (prefix sep (String c s)) eqn:Hp.
      * destruct (splitBy sep s (String.length sep - 1) "") as [piece others]
          eqn:Hsp.
        cbn [fst snd]. rewrite join_cons.
        pose proof (IH (String.length sep - 1)%nat "") as Hj.
        rewrite Hsp in Hj. cbn [fst snd] in Hj. rewrite Hj.
        apply prefix_inv in Hp as [t Ht].
        destruct sep as [ | d sep']; [contradiction | ].
        cbn in Ht. injection Ht as <- ->.
        cbn [String.length Nat.sub]. rewrite Nat.sub_0_r, slice_append.
        reflexivity.
      * rewrite IH. cbn [slice]. rewrite append_assoc. reflexivity.
    + apply IH.
Qed.

(** The first piece ends at the separator when no hyphen comes before. *)
Lemma splitBy_first (a b : string) :
  lacks "-" a = true ->
  forall cur,
    splitBy " - " (a ++ " - " ++ b) 0 cur
    = (cur ++ a,
       fst (splitBy " - " b 0 "") :: snd (splitBy " - " b 0 "")).
Proof.
  induction a as [ | c a IH]; intros Ha cur.
  - pose proof (prefix_append " - " b) as Hp.
    cbn [append] in Hp |- *. cbn [splitBy]. rewrite Hp.
    cbn [String.length Nat.sub splitBy].
    destruct (splitBy " - " b 0 "") as [piece others].
    now rewrite append_empty_r.
  - cbn in Ha. apply andb_true_iff in Ha as [Hc Ha].
    change (String c a ++ " - " ++ b) with (String c (a ++ " - " ++ b)).
    cbn [splitBy].
    assert (Hp : prefix " - " (String c (a ++ " - " ++ b)) = false).
    { cbn [prefix]. destruct (ascii_dec " " c) as [_ | _]; [ | reflexivity].
      destruct a as [ | d a]; cbn [append prefix].
      - destruct (ascii_dec "-" " ") as [H | _]; [discriminate H | reflexivity].
      - cbn in Ha. apply andb_true_iff in Ha as [Hd _].
        destruct (ascii_dec "-" d) as [<- | _]; [discriminate | reflexivity]. }
    rewrite Hp, (IH Ha). rewrite append_assoc. reflexivity.
Qed.

Lemma parseTitle_clean (a b : string) :
  storedText a -> storedText b ->
  lacks "-" a = true ->
  trim (a ++ " - " ++ b) = a ++ " - " ++ b /\
  (includes " - " (a ++ " - " ++ b) = true /\
   (let (artist, songParts) := splitBy " - " (a ++ " - " ++ b) 0 "" in
    (trim artist, trim (join " - " songParts))) = (a, b)).
Proof.
  intros Ha Hb Hdash.
  destruct (storedText_inv a Ha) as [Ha1 [Ha2 Ha3]].
  destruct (storedText_inv b Hb) as [Hb1 [Hb2 Hb3]].
  split; [ | split].
  - unfold trim. rewrite trimStart_fixed.
    + rewrite !trimEnd_append; rewrite ?Hb2; try assumption.
      * reflexivity.
      * cbn. rewrite Hb2. destruct b; [contradiction | discriminate].
    + destruct a as [ | c a]; [contradiction | ].
      cbn in Ha1 |- *. destruct (isWhiteSpace c) eqn:Hc; [ | reflexivity].
      pose proof (trimStart_head a) as Hh. rewrite Ha1 in Hh. congruence.
  - apply includes_after.
  - rewrite (splitBy_first a b Hdash ""). cbn [append].
    pose proof (join_splitBy " - " b ltac:(discriminate) 0%nat "") as Hj.
    cbn [slice append] in Hj. rewrite Hj.
    destruct Ha as [_ Ha], Hb as [_ Hb]. now rewrite Ha, Hb.
Qed.

(** X26: parseTitle gives the artist and the song of a title "artist -
    song" back, with or without an "(Official ...)" marker behind it: the
    artist and the song are not blank and have no white space at either
    end, neither contains an opening bracket and the artist contains no
    hyphen; the marker's text has no closing bracket and no line
    terminator. *)
Theorem parseTitle_artist_song (a b x : string) :
  storedText a -> storedText b ->
  lacks "-" a = true -> lacks "(" a = true -> lacks "[" a = true ->
  lacks "(" b = true -> lacks "[" b = true ->
  allChars (fun c => negb (Ascii.eqb c ")") && negb (isLineTerminator c)) x
  = true ->
  Pro.parseTitle (a ++ " - " ++ b) = (a, b) /\
  Pro.parseTitle (a ++ " - " ++ b ++ " (Official" ++ x ++ ")") = (a, b).
Proof.
  intros Ha Hb Hdash Ha1 Ha2 Hb1 Hb2 Hx.
  destruct (parseTitle_clean a b Ha Hb Hdash) as [Htrim [Hinc Hsplit]].
  assert (Hl : forall o, lacks o a = true -> lacks o b = true ->
                 Ascii.eqb " " o = false -> Ascii.eqb "-" o = false ->
                 lacks o (a ++ " - " ++ b) = true).
  { intros o H1 H2 H3 H4. unfold lacks in *.
    rewrite !allChars_append, H1, H2. cbn [allChars andb].
    now rewrite H3, H4. }
  assert (Hp : lacks "(" (a ++ " - " ++ b) = true) by (apply Hl; auto).
  assert (Hq : lacks "[" (a ++ " - " ++ b) = true) by (apply Hl; auto).
  assert (Hfinal : forall t,
            removeAll (Pro.marker "[" "Lyric" "]")
              (removeAll (Pro.marker "(" "Lyric" ")")
                 (removeAll (Pro.marker "[" "Official" "]") t 0) 0) 0 = t ->
            removeAll (Pro.marker "(" "Official" ")") t 0 = t ->
            trim t = a ++ " - " ++ b ->
            Pro.parseTitle t = (a, b)).
  { intros t H1 H2 H3. unfold Pro.parseTitle. rewrite H2, H1, H3, Hinc.
    exact Hsplit. }
  split.
  - apply Hfinal; [ | | exact Htrim].
    + now rewrite (removeAll_lacks_all "[" "]" "Official" _ Hq),
        (removeAll_lacks_all "(" ")" "Lyric" _ Hp),
        (removeAll_lacks_all "[" "]" "Lyric" _ Hq).
    + now rewrite (removeAll_lacks_all "(" ")" "Official" _ Hp).
  - unfold Pro.parseTitle.
    assert (Hrm : removeAll (Pro.marker "(" "Official" ")")
              (a ++ " - " ++ b ++ " (Official" ++ x ++ ")") 0
            = (a ++ " - " ++ b) ++ " ").
    { replace (a ++ " - " ++ b ++ " (Official" ++ x ++ ")")
        with (((a ++ " - " ++ b) ++ " ")
              ++ String "(" ("Official" ++ x ++ String ")" ""))
        by (rewrite !append_assoc; reflexivity).
      rewrite removeAll_lacks.
      - rewrite (removeAll_marker "(" ")" "Official" x "" Hx). cbn.
        now rewrite append_empty_r.
      - unfold lacks in *. rewrite allChars_append, Hp. reflexivity. }
    rewrite Hrm.
    assert (Hsp : forall o, lacks o (a ++ " - " ++ b) = true ->
                    Ascii.eqb " " o = false ->
                    lacks o ((a ++ " - " ++ b) ++ " ") = true).
    { intros o H1 H2. unfold lacks in *. rewrite allChars_append, H1.
      cbn [allChars andb]. now rewrite H2. }
    assert (Hp' : lacks "(" ((a ++ " - " ++ b) ++ " ") = true)
      by (apply Hsp; auto).
    assert (Hq' : lacks "[" ((a ++ " - " ++ b) ++ " ") = true)
      by (apply Hsp; auto).
    rewrite (removeAll_lacks_all "[" "]" "Official" _ Hq'),
      (removeAll_lacks_all "(" ")" "Lyric" _ Hp'),
      (removeAll_lacks_all "[" "]" "Lyric" _ Hq').
    assert (Ht : trim ((a ++ " - " ++ b) ++ " ") = a ++ " - " ++ b).
    { unfold trim in *. rewrite trimStart_fixed.
      - rewrite trimEnd_space. rewrite trimStart_fixed in Htrim; [exact Htrim | ].
        destruct (storedText_inv a Ha) as [Hs [_ Hne]].
        destruct a as [ | c a]; [contradiction | ].
        cbn in Hs |- *. destruct (isWhiteSpace c) eqn:Hc; [ | reflexivity].
        pose proof (trimStart_head a) as Hh. rewrite Hs in Hh. congruence.
      - destruct (storedText_inv a Ha) as [Hs [_ Hne]].
        destruct a as [ | c a]; [contradiction | ].
        cbn in Hs |- *. destruct (isWhiteSpace c) eqn:Hc; [ | reflexivity].
        pose proof (trimStart_head a) as Hh. rewrite Hs in Hh. congruence. }
    rewrite Ht, Hinc. exact Hsplit.
Qed.

Lemma parseTitle_artist_song_witness :
  Pro.parseTitle "Queen - Bohemian Rhapsody - Live (Official Video)"
  = ("Queen", "Bohemian Rhapsody - Live").
Proof.
  apply (proj2 (parseTitle_artist_song "Queen" "Bohemian Rhapsody - Live"
                  " Video"
                  (conj eq_refl eq_refl) (conj eq_refl eq_refl)
                  eq_refl eq_refl eq_refl eq_refl eq_refl eq_refl)).
Defined.

End Title.
